(** * Checkers rules engine and bot: a shallow embedding of
    [src/lib/checkers-logic.ts] and the properties of its specification.

    Conventions of the embedding.
    - A JavaScript [number] used as an index, a coordinate or a rating is an
      integer ([Z]); a search depth is a natural number; the scores of the
      search are integers extended with the two infinities; the per-move
      heuristic, which subtracts 3.5, is computed over the rationals.
      The value of [Math.random()] is a double, and its product with the
      length of an array is rounded as the multiplication of doubles
      rounds it.
    - A call either returns a value or throws [TypeError] (reading an
      element of [undefined]): [result] is the error monad of the file.
    - An array is a list.  [null], [undefined] and a hole of an array are
      all falsy and are all read as [None].
    - The functions are first given on board values.  [makeMove], which
      the specification wants not to change its argument, is also given on
      a store of objects, where an assignment to an array is seen through
      every reference to it (module [Store]). *)

From Stdlib Require Import ZArith QArith Qabs Qround Lia.
From stdpp Require Import base tactics option list list_numbers.

Local Open Scope Z_scope.

(** ** Data model *)

(** [type PieceType = 'white' | 'black' | null] *)
Inductive PieceType : Type := white | black | null.

Global Instance PieceType_eq_dec : EqDecision PieceType.
Proof. solve_decision. Defined.

(** [interface Piece { type: PieceType; isKing: boolean }] *)
Record Piece : Type := mkPiece { type : PieceType; isKing : bool }.

Global Instance Piece_eq_dec : EqDecision Piece.
Proof. solve_decision. Defined.

(** [interface Position { row: number; col: number }] *)
Record Position : Type := mkPosition { row : Z; col : Z }.

Global Instance Position_eq_dec : EqDecision Position.
Proof. solve_decision. Defined.

(** [interface Move { from: Position; to: Position; captured?: Position[] }]:
    an absent [captured] is [None]. *)
Record Move : Type :=
  mkMove { from : Position; to : Position; captured : option (list Position) }.

Global Instance Move_eq_dec : EqDecision Move.
Proof. solve_decision. Defined.

(** [type Board = (Piece | null)[][]] *)
Abbreviation Row := (list (option Piece)) (only parsing).
Abbreviation Board := (list (list (option Piece))) (only parsing).

Definition BOARD_SIZE : Z := 8.

(** ** Calls that may throw *)

Inductive result (A : Type) : Type :=
  | Ok (a : A)
  | TypeError.
Global Arguments Ok {A} a.
Global Arguments TypeError {A}.

Global Instance result_ret : MRet result := fun A a => Ok a.
Global Instance result_bind : MBind result := fun A B f r =>
  match r with
  | Ok a => f a
  | TypeError => TypeError
  end.
Global Instance result_fmap : FMap result := fun A B f r =>
  match r with
  | Ok a => Ok (f a)
  | TypeError => TypeError
  end.

(** A [for ... of] loop over [xs] that threads the variables [s] the body
    assigns. *)
Fixpoint for_each {A S : Type} (xs : list A) (body : S → A → result S)
    (s : S) : result S :=
  match xs with
  | [] => Ok s
  | x :: xs' => s' ← body s x; for_each xs' body s'
  end.

(** ** Arrays *)

(** [a[i]]: [None] stands for [undefined]. *)
Definition index {A : Type} (a : list A) (i : Z) : option A :=
  if i <? 0 then None else a !! Z.to_nat i.

(** [a[i] = v] on an array of nullable elements: inside the array the
    element is replaced; past the end the array grows, the new elements in
    between being holes; at a negative [i] JavaScript sets a property that
    is not an element, and the elements stay as they are (such a property
    is dropped by [Array.prototype.map] and is not represented here). *)
Definition set_index {A : Type} (a : list (option A)) (i : Z) (v : option A)
    : list (option A) :=
  if i <? 0 then a
  else if i <? Z.of_nat (length a) then <[Z.to_nat i := v]> a
  else a ++ replicate (Z.to_nat i - length a) None ++ [v].

(** [board[r]] followed by an element access: when [board[r]] is
    [undefined] the access throws. *)
Definition row_of (board : Board) (r : Z) : result Row :=
  match index board r with
  | Some cells => Ok cells
  | None => TypeError
  end.

(** [board[r][c]] *)
Definition cell (board : Board) (r c : Z) : result (option Piece) :=
  cells ← row_of board r;
  Ok (default None (index cells c)).

(** [board[r][c] = v] *)
Definition set_cell (board : Board) (r c : Z) (v : option Piece) : result Board :=
  cells ← row_of board r;
  Ok (<[Z.to_nat r := set_index cells c v]> board).

(** ** createInitialBoard *)

Definition createInitialBoard : result Board :=
  let board : Board :=
    (λ _, replicate (Z.to_nat BOARD_SIZE) None)
      <$> replicate (Z.to_nat BOARD_SIZE) (@None Piece) in
  for_each (seqZ 0 BOARD_SIZE) (λ board row,
    for_each (seqZ 0 BOARD_SIZE) (λ board col,
      if decide ((row + col) `mod` 2 = 1) then
        if decide (row < 3) then
          set_cell board row col (Some (mkPiece black false))
        else if decide (row > 4) then
          set_cell board row col (Some (mkPiece white false))
        else Ok board
      else Ok board) board) board.

(** ** Move generation *)

(** [isValidPosition] *)
Definition isValidPosition (r c : Z) : bool :=
  bool_decide (r >= 0) && bool_decide (r < BOARD_SIZE)
  && bool_decide (c >= 0) && bool_decide (c < BOARD_SIZE).

(** [cell?.type]: [None] is [undefined], which is [===] to no [PieceType]. *)
Definition type_of (cell : option Piece) : option PieceType := type <$> cell.

(** [move.captured && move.captured.length > 0] *)
Definition isCapture (move : Move) : bool :=
  match captured move with
  | Some cs => bool_decide (0 < length cs)%nat
  | None => false
  end.

(** The directions a piece may move in, in the order the source pushes
    them. *)
Definition directions_of (piece : Piece) : list (Z * Z) :=
  (if bool_decide (type piece = white) || isKing piece
   then [(-1, -1); (-1, 1)] else [])
  ++ (if bool_decide (type piece = black) || isKing piece
      then [(1, -1); (1, 1)] else []).

(** One iteration of the loop over the directions in [getValidMoves]; the
    state is the pair of the arrays [moves] and [captures]. *)
Definition scan_direction (board : Board) (position : Position) (piece : Piece)
    (acc : list Move * list Move) (d : Z * Z) : result (list Move * list Move) :=
  let '(moves, captures) := acc in
  let '(dRow, dCol) := d in
  let newRow := row position + dRow in
  let newCol := col position + dCol in
  if isValidPosition newRow newCol then
    target ← cell board newRow newCol;
    match target with
    | None =>
        Ok (moves ++ [mkMove position (mkPosition newRow newCol) None], captures)
    | Some other =>
        if decide (type other ≠ type piece) then
          let jumpRow := newRow + dRow in
          let jumpCol := newCol + dCol in
          if isValidPosition jumpRow jumpCol then
            landing ← cell board jumpRow jumpCol;
            match landing with
            | None =>
                Ok (moves,
                    captures ++ [mkMove position (mkPosition jumpRow jumpCol)
                                   (Some [mkPosition newRow newCol])])
            | Some _ => Ok (moves, captures)
            end
          else Ok (moves, captures)
        else Ok (moves, captures)
    end
  else Ok (moves, captures).

Definition getValidMoves (board : Board) (position : Position) : result (list Move) :=
  piece ← cell board (row position) (col position);
  match piece with
  | None => Ok []
  | Some piece =>
      '(moves, captures) ←
        for_each (directions_of piece) (scan_direction board position piece) ([], []);
      Ok (if bool_decide (0 < length captures)%nat then captures else moves)
  end.

(** The body of the inner loop of [getAllValidMoves]. *)
Definition collect_square (board : Board) (playerType : PieceType) (r : Z)
    (acc : list Move * list Move) (c : Z) : result (list Move * list Move) :=
  piece ← cell board r c;
  if decide (type_of piece = Some playerType) then
    pieceMoves ← getValidMoves board (mkPosition r c);
    for_each pieceMoves (λ '(moves, captures) move,
      if isCapture move then Ok (moves, captures ++ [move])
      else Ok (moves ++ [move], captures)) acc
  else Ok acc.

Definition getAllValidMoves (board : Board) (playerType : PieceType) : result (list Move) :=
  '(moves, captures) ←
    for_each (seqZ 0 BOARD_SIZE) (λ acc r,
      for_each (seqZ 0 BOARD_SIZE) (collect_square board playerType r) acc) ([], []);
  Ok (if bool_decide (0 < length captures)%nat then captures else moves).

(** ** makeMove, on board values *)

(** [board.map((row) => row.map((cell) => (cell ? { ...cell } : null)))] *)
Definition copy_board (board : Board) : Board :=
  (λ cells : Row,
     (λ c : option Piece,
        match c with
        | Some p => Some (mkPiece (type p) (isKing p))
        | None => None
        end) <$> cells) <$> board.

Definition makeMove (board : Board) (move : Move) : result Board :=
  let newBoard := copy_board board in
  piece ← cell newBoard (row (from move)) (col (from move));
  match piece with
  | None => Ok newBoard
  | Some piece =>
      newBoard ← set_cell newBoard (row (to move)) (col (to move)) (Some piece);
      newBoard ← set_cell newBoard (row (from move)) (col (from move)) None;
      newBoard ←
        match captured move with
        | Some cs =>
            for_each cs (λ nb pos, set_cell nb (row pos) (col pos) None) newBoard
        | None => Ok newBoard
        end;
      if decide (type piece = white ∧ row (to move) = 0) then
        set_cell newBoard (row (to move)) (col (to move))
          (Some (mkPiece (type piece) true))
      else if decide (type piece = black ∧ row (to move) = BOARD_SIZE - 1) then
        set_cell newBoard (row (to move)) (col (to move))
          (Some (mkPiece (type piece) true))
      else Ok newBoard
  end.

(** ** checkWinner *)

(** The counting loops of [checkWinner]: the state is
    [(whiteCount, blackCount)]. *)
Definition count_pieces (board : Board) : result (Z * Z) :=
  for_each (seqZ 0 BOARD_SIZE) (λ acc r,
    for_each (seqZ 0 BOARD_SIZE) (λ '(whiteCount, blackCount) c,
      piece ← cell board r c;
      let whiteCount :=
        if decide (type_of piece = Some white) then whiteCount + 1 else whiteCount in
      let blackCount :=
        if decide (type_of piece = Some black) then blackCount + 1 else blackCount in
      Ok (whiteCount, blackCount)) acc) (0, 0).

Definition checkWinner (board : Board) : result PieceType :=
  '(whiteCount, blackCount) ← count_pieces board;
  if decide (whiteCount = 0) then Ok black
  else if decide (blackCount = 0) then Ok white
  else
    whiteMoves ← getAllValidMoves board white;
    blackMoves ← getAllValidMoves board black;
    if bool_decide (length whiteMoves = 0%nat) && bool_decide (0 < length blackMoves)%nat
    then Ok black
    else if bool_decide (length blackMoves = 0%nat) && bool_decide (0 < length whiteMoves)%nat
    then Ok white
    else Ok null.

(** ** Scores of the search *)

(** The values [minimax] computes with: integers, [-Infinity] and
    [Infinity]. *)
Inductive number : Type := NegInfinity | Int (z : Z) | Infinity.

Global Instance number_eq_dec : EqDecision number.
Proof. solve_decision. Defined.

(** [a <= b] *)
Definition num_le (a b : number) : bool :=
  match a, b with
  | NegInfinity, _ => true
  | _, Infinity => true
  | Int x, Int y => bool_decide (x ≤ y)
  | _, _ => false
  end.

(** [a > b] *)
Definition num_gt (a b : number) : bool := negb (num_le a b).

(** [a < b] *)
Definition num_lt (a b : number) : bool := negb (num_le b a).

(** [Math.max(a, b)] and [Math.min(a, b)] *)
Definition num_max (a b : number) : number := if num_le a b then b else a.
Definition num_min (a b : number) : number := if num_le a b then a else b.

(** ** evaluateBoard *)

Definition evaluateBoard (board : Board) : result Z :=
  for_each (seqZ 0 BOARD_SIZE) (λ score r,
    for_each (seqZ 0 BOARD_SIZE) (λ score c,
      piece ← cell board r c;
      match piece with
      | Some piece =>
          let pieceValue := if isKing piece then 15 else 10 in
          let positionBonus :=
            if isKing piece then 0
            else if decide (type piece = black) then r
            else BOARD_SIZE - 1 - r in
          if decide (type piece = black) then Ok (score + (pieceValue + positionBonus))
          else Ok (score - (pieceValue + positionBonus))
      | None => Ok score
      end) score) 0.

(** ** minimax *)

(** A [for ... of] loop whose body may [break]: the body returns the new
    state and whether the loop stops there. *)
Fixpoint for_each_break {A S : Type} (xs : list A) (body : S → A → result (S * bool))
    (s : S) : result S :=
  match xs with
  | [] => Ok s
  | x :: xs' =>
      '(s', stop) ← body s x;
      if stop : bool then Ok s' else for_each_break xs' body s'
  end.

(** The bodies of the two loops of [minimax]; [search] is the recursive
    call on the board after the move.  The state of the first loop is
    [(maxEval, alpha)], that of the second [(minEval, beta)]; the boolean
    is the test [beta <= alpha] of the [break]. *)
Definition max_step (search : list (list (option Piece)) → number → number → result number)
    (board : Board) (beta : number)
    (state : number * number) (move : Move) : result (number * number * bool) :=
  let '(maxEval, alpha) := state in
  newBoard ← makeMove board move;
  evalScore ← search newBoard alpha beta;
  let maxEval := num_max maxEval evalScore in
  let alpha := num_max alpha evalScore in
  Ok (maxEval, alpha, num_le beta alpha).

Definition min_step (search : list (list (option Piece)) → number → number → result number)
    (board : Board) (alpha : number)
    (state : number * number) (move : Move) : result (number * number * bool) :=
  let '(minEval, beta) := state in
  newBoard ← makeMove board move;
  evalScore ← search newBoard alpha beta;
  let minEval := num_min minEval evalScore in
  let beta := num_min beta evalScore in
  Ok (minEval, beta, num_le beta alpha).

(** [depth] counts down to the test [depth === 0]. *)
Fixpoint minimax (board : Board) (depth : nat) (alpha beta : number)
    (isMaximizing : bool) {struct depth} : result number :=
  winner ← checkWinner board;
  if decide (winner = black) then Ok (Int 1000)
  else if decide (winner = white) then Ok (Int (-1000))
  else
    match depth with
    | O => Int <$> evaluateBoard board
    | S depth' =>
        let currentPlayer := if isMaximizing then black else white in
        moves ← getAllValidMoves board currentPlayer;
        if decide (length moves = 0%nat) then
          Ok (if isMaximizing then Int (-1000) else Int 1000)
        else if isMaximizing then
          fst <$> for_each_break moves
            (max_step (λ newBoard alpha beta, minimax newBoard depth' alpha beta false)
               board beta)
            (NegInfinity, alpha)
        else
          fst <$> for_each_break moves
            (min_step (λ newBoard alpha beta, minimax newBoard depth' alpha beta true)
               board alpha)
            (Infinity, beta)
    end.

(** The search of the specification: the same terminal tests, move
    generator, applicator and leaf evaluation, every move of the side to
    play explored, no bounds. *)
Fixpoint minimax_exhaustive (board : Board) (depth : nat) (isMaximizing : bool)
    {struct depth} : result number :=
  winner ← checkWinner board;
  if decide (winner = black) then Ok (Int 1000)
  else if decide (winner = white) then Ok (Int (-1000))
  else
    match depth with
    | O => Int <$> evaluateBoard board
    | S depth' =>
        moves ← getAllValidMoves board (if isMaximizing then black else white);
        if decide (length moves = 0%nat) then
          Ok (if isMaximizing then Int (-1000) else Int 1000)
        else
          scores ← mapM (λ move,
            newBoard ← makeMove board move;
            minimax_exhaustive newBoard depth' (negb isMaximizing)) moves;
          Ok (if isMaximizing then foldr num_max NegInfinity scores
              else foldr num_min Infinity scores)
    end.

(** ** evaluateMove *)

(** The score is built up by the assignments of the source, in order.
    The [board] parameter is never read. *)
Definition evaluateMove (board : Board) (move : Move) : Q :=
  let score : Q := 0%Q in
  let score :=
    match captured move with
    | Some cs => (score + inject_Z (Z.of_nat (length cs)) * 100)%Q
    | None => score
    end in
  let score :=
    if decide (row (to move) = BOARD_SIZE - 1) then (score + 50)%Q else score in
  let centerDistance :=
    (Qabs (inject_Z (col (to move)) - 3.5) + Qabs (inject_Z (row (to move)) - 3.5))%Q in
  let score := (score + (7 - centerDistance) * 5)%Q in
  let score :=
    if decide (col (to move) = 0 ∨ col (to move) = 7) then (score - 10)%Q else score in
  score.

(** The score the specification gives to a move of a piece of [side]:
    100 per captured square, 50 when the destination is on the far rank of
    the side, 5 per unit of Manhattan distance less than 7 between the
    destination and the centre (3.5, 3.5), minus 10 on the two outer
    columns. *)
Definition score_move_spec (side : PieceType) (move : Move) : Q :=
  (100 * inject_Z (Z.of_nat (length (default [] (captured move))))
   + (if decide ((side = white ∧ row (to move) = 0%Z) ∨ (side = black ∧ row (to move) = 7%Z))
      then 50 else 0)
   + 5 * (7 - (Qabs (inject_Z (col (to move)) - 3.5)
               + Qabs (inject_Z (row (to move)) - 3.5)))
   - (if decide (col (to move) = 0%Z ∨ col (to move) = 7%Z) then 10 else 0))%Q.

(** ** The bot *)

(** [scoredMoves.sort(cmp)]: the sort of an array is stable, so it is the
    insertion, from the last element to the first, of each element before
    the first one it does not have to follow. *)
Fixpoint sort_insert {A : Type} (cmp : A → A → Q) (x : A) (sorted : list A) : list A :=
  match sorted with
  | [] => [x]
  | y :: rest =>
      if Qle_bool (cmp x y) 0 then x :: y :: rest
      else y :: sort_insert cmp x rest
  end.

Definition array_sort {A : Type} (cmp : A → A → Q) (a : list A) : list A :=
  foldr (sort_insert cmp) [] a.

(** A finite number of JavaScript, a double: [significand × 2^exponent].
    The significand of a double is below 2^53 in absolute value and its
    exponent is -1074 at least. *)
Record double : Type := mkDouble { significand : Z; exponent : Z }.

(** The double nearest to [m × 2^e], the one of even significand when two
    are equally near: what an arithmetic operation returns when its exact
    result is [m × 2^e].  The result has the exponent [u] of the unit in
    the last place of a number of that size, 52 below its binary order
    and -1074 at least, and the significand [m × 2^(e - u)] rounded to an
    integer.  [None] stands for an infinity, which the operation returns
    when the rounded result reaches 2^1024. *)
Definition double_round (m e : Z) : option double :=
  let a := Z.abs m in
  let u := Z.max (Z.log2 a + e - 52) (-1074) in
  let k := u - e in
  let r :=
    if k <=? 0 then a * 2 ^ (- k)
    else
      let q := a / 2 ^ k in
      let rest := a mod 2 ^ k in
      let half := 2 ^ (k - 1) in
      if rest <? half then q
      else if half <? rest then q + 1
      else if Z.even q then q else q + 1 in
  if 2 ^ 1024 <=? r * 2 ^ u then None
  else Some (mkDouble (Z.sgn m * r) u).

(** [Math.floor] of a double *)
Definition double_floor (d : double) : Z :=
  if 0 <=? exponent d then significand d * 2 ^ exponent d
  else significand d / 2 ^ (- exponent d).

(** A double of the interval [0, 1), as [Math.random()] returns:
    [s × 2^e] with [0 ≤ s < 2^53], [-1074 ≤ e ≤ 0] and [s < 2^(-e)]. *)
Definition unit_double (d : double) : Prop :=
  0 ≤ significand d < 2 ^ 53
  ∧ -1074 ≤ exponent d ≤ 0
  ∧ significand d < 2 ^ (- exponent d).

Global Instance unit_double_dec d : Decision (unit_double d).
Proof. unfold unit_double. apply _. Defined.

(** The length of an array is below 2^32, and so it is a double. *)
Definition array_length (n : nat) : Prop := Z.of_nat n < 2 ^ 32.

Global Instance array_length_dec n : Decision (array_length n).
Proof. unfold array_length. apply _. Defined.

Section Bot.
(** The value [Math.random()] returns; each path through [getBotMove]
    calls it exactly once. *)
Variable random : double.

(** [Math.floor(Math.random() * n)] for the length [n] of an array: the
    exact product of the two doubles is [(s × n) × 2^e], which the
    multiplication rounds.  [None] stands for [Infinity]. *)
Definition random_index (n : nat) : option Z :=
  double_floor <$> double_round (significand random * Z.of_nat n) (exponent random).

(** [a[Math.floor(Math.random() * a.length)]]: [None] is [undefined],
    which is also what an array has at [Infinity]. *)
Definition random_element {A : Type} (a : list A) : option A :=
  i ← random_index (length a); index a i.

Definition getRandomMove (moves : list Move) : option Move :=
  random_element moves.

Definition getBasicMove (board : Board) (moves : list Move) : option Move :=
  let captures := filter (λ m, isCapture m = true) moves in
  if bool_decide (0 < length captures)%nat then random_element captures
  else
    let kingMoves := filter (λ m, row (to m) = BOARD_SIZE - 1) moves in
    if bool_decide (0 < length kingMoves)%nat then random_element kingMoves
    else getRandomMove moves.

(** [topMoves[i].move] throws when [topMoves[i]] is [undefined]. *)
Definition getIntermediateMove (board : Board) (moves : list Move) : result Move :=
  let scoredMoves := (λ move, (move, evaluateMove board move)) <$> moves in
  let scoredMoves := array_sort (λ a b, (snd b - snd a)%Q) scoredMoves in
  let topMoves := take (Nat.min 3 (length scoredMoves)) scoredMoves in
  match random_element topMoves with
  | Some scored => Ok (fst scored)
  | None => TypeError
  end.

(** The state of the loop is [(bestMove, bestScore)]; [bestMove] starts
    as [moves[0]]. *)
Definition getAdvancedMove (board : Board) (moves : list Move) (difficulty : Z)
    : result (option Move) :=
  let depth : nat := if decide (difficulty >= 1600) then 4%nat else 3%nat in
  fst <$> for_each moves (λ '(bestMove, bestScore) move,
    newBoard ← makeMove board move;
    score ← minimax newBoard (depth - 1) NegInfinity Infinity false;
    if num_gt score bestScore then Ok (Some move, score)
    else Ok (bestMove, bestScore)) (index moves 0, NegInfinity).

(** The result is a move, or [None] for [null] (and for [undefined]). *)
Definition getBotMove (board : Board) (difficulty : Z) : result (option Move) :=
  moves ← getAllValidMoves board black;
  if decide (length moves = 0%nat) then Ok None
  else if decide (difficulty < 400) then Ok (getRandomMove moves)
  else if decide (difficulty < 800) then Ok (getBasicMove board moves)
  else if decide (difficulty < 1200) then Some <$> getIntermediateMove board moves
  else getAdvancedMove board moves difficulty.
End Bot.

(** ** Notions of the specification *)

(** The board of the data model: an 8x8 grid. *)
Definition wf_board (b : Board) : Prop :=
  length b = Z.to_nat BOARD_SIZE ∧ Forall (λ cells : Row, length cells = Z.to_nat BOARD_SIZE) b.

Global Instance wf_board_dec b : Decision (wf_board b).
Proof. unfold wf_board. apply _. Defined.

(** The loops of the source read [board[0]] to [board[7]]; these rows
    exist in a board of the data model. *)
Definition has_rows (b : Board) : Prop := (Z.to_nat BOARD_SIZE ≤ length b)%nat.

Global Instance has_rows_dec b : Decision (has_rows b).
Proof. unfold has_rows. apply _. Defined.

(** A square of the grid. *)
Definition on_board (p : Position) : Prop := isValidPosition (row p) (col p) = true.

Global Instance on_board_dec p : Decision (on_board p).
Proof. unfold on_board. apply _. Defined.

(** The 64 squares, row by row. *)
Definition squares : list Position :=
  r ← seqZ 0 BOARD_SIZE; c ← seqZ 0 BOARD_SIZE; [mkPosition r c].

(** What a square holds; nothing outside the board. *)
Definition piece_on (b : Board) (r c : Z) : option Piece :=
  default None (index (default [] (index b r)) c).

(** The pieces of the board with their squares, row by row. *)
Definition occupied (b : Board) : list (Position * Piece) :=
  omap (λ pos, (λ p, (pos, p)) <$> piece_on b (row pos) (col pos)) squares.

(** The squares that hold a piece of a side, row by row. *)
Definition pieces_of (b : Board) (side : PieceType) : list Position :=
  filter (λ p, type_of (piece_on b (row p) (col p)) = Some side) squares.

(** Dark squares are those where row + column is odd. *)
Definition dark (r c : Z) : Prop := (r + c) `mod` 2 = 1.

Global Instance dark_dec r c : Decision (dark r c).
Proof. unfold dark. apply _. Defined.

(** Every piece of the board stands on a dark square. *)
Definition dark_only (b : Board) : Prop :=
  ∀ r c p, cell b r c = Ok (Some p) → dark r c.

(** The union of the per-piece move sets of a side: the moves of
    [getValidMoves] for each square holding a piece of the side. *)
Definition side_candidates (b : Board) (side : PieceType) : result (list Move) :=
  raw ← mapM (getValidMoves b) (pieces_of b side); Ok (concat raw).

(** The far rank of a piece, and the piece as it stands after a move to
    row [r]: crowned on its far rank. *)
Definition far_rank (p : Piece) (r : Z) : Prop :=
  (type p = white ∧ r = 0) ∨ (type p = black ∧ r = 7).

Global Instance far_rank_dec p r : Decision (far_rank p r).
Proof. unfold far_rank. apply _. Defined.

Definition promote (p : Piece) (r : Z) : Piece :=
  if decide (far_rank p r) then mkPiece (type p) true else p.

(** The shape of a move from [pos]: one diagonal step, or a jump of two
    over the single captured square; the squares involved are on the
    board. *)
Definition move_from (pos : Position) (m : Move) : Prop :=
  from m = pos ∧ on_board (to m) ∧
  ∃ dRow dCol, (dRow = -1 ∨ dRow = 1) ∧ (dCol = -1 ∨ dCol = 1) ∧
    ((to m = mkPosition (row pos + dRow) (col pos + dCol) ∧ captured m = None)
     ∨ (to m = mkPosition (row pos + dRow + dRow) (col pos + dCol + dCol)
        ∧ captured m = Some [mkPosition (row pos + dRow) (col pos + dCol)]
        ∧ on_board (mkPosition (row pos + dRow) (col pos + dCol)))).

(** A move of that shape, of a piece of [side] standing on [b]. *)
Definition moved_by (b : Board) (side : PieceType) (m : Move) : Prop :=
  type_of (piece_on b (row (from m)) (col (from m))) = Some side
  ∧ move_from (from m) m.

(** The forced-capture rule on a set of candidate moves. *)
Definition forced_capture (candidates : list Move) : list Move :=
  if decide (Exists (λ m, isCapture m = true) candidates)
  then filter (λ m, isCapture m = true) candidates
  else candidates.

(** What a search with the window [(α, β)] may return for a position of
    exhaustive value [v]: the value itself when it lies inside the window,
    and otherwise a bound of the value on the same side of the window. *)
Definition bounded_by (α β r v : number) : Prop :=
  (num_le v α = true → num_le v r = true ∧ num_le r α = true)
  ∧ (num_le β v = true → num_le β r = true ∧ num_le r v = true)
  ∧ (num_lt α v = true → num_lt v β = true → r = v).

(** The children of a node of the search: every move of [ms] can be
    applied to [b], the board it gives has a value, and the search of that
    board, with any window, is bounded by its value. *)
Definition children_ok
    (search : list (list (option Piece)) → number → number → result number)
    (value : list (list (option Piece)) → result number)
    (b : Board) (ms : list Move) : Prop :=
  ∀ m, m ∈ ms →
    ∃ nb v, makeMove b m = Ok nb ∧ value nb = Ok v
      ∧ ∀ a k, num_lt a k = true → ∃ r, search nb a k = Ok r ∧ bounded_by a k r v.

(** The squares a move names as captured. *)
Definition captured_squares (m : Move) : list Position := default [] (captured m).

(** ** Boards used as examples *)

Definition bp : option Piece := Some (mkPiece black false).
Definition wp : option Piece := Some (mkPiece white false).
Definition e_ : option Piece := None.

(** The starting position. *)
Definition initial_board : Board :=
  [ [e_; bp; e_; bp; e_; bp; e_; bp];
    [bp; e_; bp; e_; bp; e_; bp; e_];
    [e_; bp; e_; bp; e_; bp; e_; bp];
    [e_; e_; e_; e_; e_; e_; e_; e_];
    [e_; e_; e_; e_; e_; e_; e_; e_];
    [wp; e_; wp; e_; wp; e_; wp; e_];
    [e_; wp; e_; wp; e_; wp; e_; wp];
    [wp; e_; wp; e_; wp; e_; wp; e_] ].

(** A black piece on (3,2) that can jump the white piece on (4,3), and a
    second black piece on (0,1) with only simple moves. *)
Definition capture_board : Board :=
  [ [e_; bp; e_; e_; e_; e_; e_; e_];
    [e_; e_; e_; e_; e_; e_; e_; e_];
    [e_; e_; e_; e_; e_; e_; e_; e_];
    [e_; e_; bp; e_; e_; e_; e_; e_];
    [e_; e_; e_; wp; e_; e_; e_; e_];
    [e_; e_; e_; e_; e_; e_; e_; e_];
    [e_; e_; e_; e_; e_; e_; e_; e_];
    [e_; e_; e_; e_; e_; e_; e_; e_] ].

(** No piece at all. *)
Definition empty_board : Board := replicate 8 (replicate 8 e_).

(** A white piece on (1,2) stepping to (0,1). *)
Definition crowning_board : Board :=
  <[1%nat := [e_; e_; wp; e_; e_; e_; e_; e_]]> empty_board.
Definition crowning_move : Move := mkMove (mkPosition 1 2) (mkPosition 0 1) None.

(** The first move of the black piece on (2,1). *)
Definition opening_move : Move := mkMove (mkPosition 2 1) (mkPosition 3 0) None.

(** ** makeMove, on the store

    On board values a function cannot change its argument.  To state that
    [makeMove] leaves the board it is given as it was, the arrays and the
    piece objects are placed in a store: a board is a reference to an array
    of references to rows, a row an array of [null]s and of references to
    piece objects.  An allocation extends the store; an assignment to an
    element of a row replaces the row object in place, and is seen through
    every reference to that row. *)
Module Store.

Abbreviation ref := nat (only parsing).

Inductive object : Type :=
  | PieceObj (p : Piece)
  | RowObj (cells : list (option ref))
  | BoardObj (rows : list ref).

Abbreviation store := (list object) (only parsing).

(** A call returns a value or throws, and leaves a store either way. *)
Inductive outcome (A : Type) : Type :=
  | Return (a : A) (σ : store)
  | Throw (σ : store).
Global Arguments Return {A} a σ.
Global Arguments Throw {A} σ.

Definition M (A : Type) : Type := store → outcome A.

Definition ret {A : Type} (a : A) : M A := λ σ, Return a σ.

Definition bind {A B : Type} (m : M A) (f : A → M B) : M B := λ σ,
  match m σ with
  | Return a σ' => f a σ'
  | Throw σ' => Throw σ'
  end.

#[global] Instance M_ret : MRet M := @ret.
#[global] Instance M_bind : MBind M := λ A B f m, bind m f.

Definition throw {A : Type} : M A := λ σ, Throw σ.

(** A new object gets the next free reference. *)
Definition alloc (o : object) : M ref := λ σ, Return (length σ) (σ ++ [o]).

(** Dereferencing; a reference that does not denote an object of the
    expected kind does not occur in a store that holds a board (see
    [board_at]), and is made a throw. *)
Definition get_piece (l : ref) : M Piece := λ σ,
  match σ !! l with
  | Some (PieceObj p) => Return p σ
  | _ => Throw σ
  end.

Definition get_row (l : ref) : M (list (option ref)) := λ σ,
  match σ !! l with
  | Some (RowObj cells) => Return cells σ
  | _ => Throw σ
  end.

Definition get_board (l : ref) : M (list ref) := λ σ,
  match σ !! l with
  | Some (BoardObj rows) => Return rows σ
  | _ => Throw σ
  end.

Definition put_row (l : ref) (cells : list (option ref)) : M unit := λ σ,
  Return () (<[l := RowObj cells]> σ).

(** [a.map(f)] *)
Fixpoint array_map {A B : Type} (f : A → M B) (a : list A) : M (list B) :=
  match a with
  | [] => ret []
  | x :: a' => y ← f x; ys ← array_map f a'; ret (y :: ys)
  end.

(** [for (const x of xs) body(x)] *)
Fixpoint for_each {A : Type} (xs : list A) (body : A → M unit) : M unit :=
  match xs with
  | [] => ret ()
  | x :: xs' => body x;; for_each xs' body
  end.

(** [cell ? { ...cell } : null] *)
Definition copy_cell (c : option ref) : M (option ref) :=
  match c with
  | Some l =>
      p ← get_piece l;
      l' ← alloc (PieceObj (mkPiece (type p) (isKing p)));
      ret (Some l')
  | None => ret None
  end.

(** [row.map((cell) => ...)] *)
Definition copy_row (rl : ref) : M ref :=
  cells ← get_row rl;
  cells' ← array_map copy_cell cells;
  alloc (RowObj cells').

(** [board.map((row) => row.map(...))] *)
Definition copy_board (board : ref) : M ref :=
  rows ← get_board board;
  rows' ← array_map copy_row rows;
  alloc (BoardObj rows').

(** [board[r][c]] *)
Definition cell (board : ref) (r c : Z) : M (option ref) :=
  rows ← get_board board;
  match index rows r with
  | Some rl => cells ← get_row rl; ret (default None (index cells c))
  | None => throw
  end.

(** [board[r][c] = v] *)
Definition set_cell (board : ref) (r c : Z) (v : option ref) : M unit :=
  rows ← get_board board;
  match index rows r with
  | Some rl => cells ← get_row rl; put_row rl (set_index cells c v)
  | None => throw
  end.

Definition makeMove (board : ref) (move : Move) : M ref :=
  newBoard ← copy_board board;
  piece ← cell newBoard (row (from move)) (col (from move));
  match piece with
  | None => ret newBoard
  | Some pl =>
      set_cell newBoard (row (to move)) (col (to move)) (Some pl);;
      set_cell newBoard (row (from move)) (col (from move)) None;;
      match captured move with
      | Some cs => for_each cs (λ pos, set_cell newBoard (row pos) (col pos) None)
      | None => ret ()
      end;;
      p ← get_piece pl;
      if decide (type p = white ∧ row (to move) = 0) then
        promoted ← alloc (PieceObj (mkPiece (type p) true));
        set_cell newBoard (row (to move)) (col (to move)) (Some promoted);;
        ret newBoard
      else if decide (type p = black ∧ row (to move) = BOARD_SIZE - 1) then
        promoted ← alloc (PieceObj (mkPiece (type p) true));
        set_cell newBoard (row (to move)) (col (to move)) (Some promoted);;
        ret newBoard
      else ret newBoard
  end.

(** The board value a reference denotes in a store, if it denotes one. *)
Definition piece_at (σ : store) (c : option ref) : option (option Piece) :=
  match c with
  | Some l =>
      match σ !! l with
      | Some (PieceObj p) => Some (Some p)
      | _ => None
      end
  | None => Some None
  end.

Definition row_at (σ : store) (l : ref) : option Row :=
  match σ !! l with
  | Some (RowObj cells) => mapM (piece_at σ) cells
  | _ => None
  end.

Definition board_at (σ : store) (l : ref) : option Board :=
  match σ !! l with
  | Some (BoardObj rows) => mapM (row_at σ) rows
  | _ => None
  end.

(** The store a call leaves. *)
Definition final_store {A : Type} (o : outcome A) : store :=
  match o with
  | Return _ σ => σ
  | Throw σ => σ
  end.

(** A store that holds a board: the cells, row after row, then the array
    of the rows. *)
Definition alloc_cell (c : option Piece) : M (option ref) :=
  match c with
  | Some p => l ← alloc (PieceObj p); ret (Some l)
  | None => ret None
  end.

Definition alloc_board (b : Board) : M ref :=
  rows ← array_map (λ cells, cs ← array_map alloc_cell cells; alloc (RowObj cs)) b;
  alloc (BoardObj rows).

(** In the store [σ], which extends [σ0], the reference [rl] is a row
    allocated after [σ0], with the content [cells], itself made of pieces
    allocated after [σ0]. *)
Definition fresh_row (σ0 σ : store) (rl : ref) (cells : list (option Piece)) : Prop :=
  (length σ0 ≤ rl)%nat
  ∧ ∃ cs, σ !! rl = Some (RowObj cs)
      ∧ Forall2 (λ c v, piece_at σ c = Some v) cs cells
      ∧ Forall (λ c, ∀ l, c = Some l → (length σ0 ≤ l)%nat) cs.

(** In the store [σ], which extends [σ0], the reference [nb] is a board of
    content [b] that shares no row and no piece with [σ0], and whose rows
    are distinct arrays. *)
Definition fresh_board (σ0 σ : store) (nb : ref) (b : Board) : Prop :=
  σ0 `prefix_of` σ
  ∧ (length σ0 ≤ nb)%nat
  ∧ ∃ rows, σ !! nb = Some (BoardObj rows) ∧ NoDup rows
      ∧ Forall2 (fresh_row σ0 σ) rows b.

End Store.

(** What the specification says of a move whose origin holds the piece
    [p], between the board [b] before and the board [b'] after: the piece
    (promoted on its far rank) on the destination, the origin empty, every
    captured square empty, every other square as before. *)
Definition relocated (b b' : Board) (m : Move) (p : Piece) : Prop :=
  cell b' (row (to m)) (col (to m)) = Ok (Some (promote p (row (to m))))
  ∧ cell b' (row (from m)) (col (from m)) = Ok None
  ∧ (∀ pos, pos ∈ captured_squares m → cell b' (row pos) (col pos) = Ok None)
  ∧ (∀ r c, mkPosition r c ≠ to m → mkPosition r c ≠ from m →
            mkPosition r c ∉ captured_squares m → cell b' r c = cell b r c).

(** The input board is left unchanged by a call [makeMove(board, m)] in
    the store [σ], where [board] denotes [b]: the objects of [σ] are as
    they were in the store the call leaves, and [board] still denotes
    [b]. *)
Definition input_unchanged (σ : list Store.object) (board : nat) (b : Board) (m : Move)
    : Prop :=
  σ `prefix_of` Store.final_store (Store.makeMove board m σ)
  ∧ Store.board_at (Store.final_store (Store.makeMove board m σ)) board = Some b.

(** The call returns a new board, disjoint from the input, that denotes
    the board [makeMove] computes on values and is as [relocated] says. *)
Definition returns_relocated (σ : list Store.object) (board : nat) (b : Board)
    (m : Move) (p : Piece) : Prop :=
  ∃ board' σ' b',
    Store.makeMove board m σ = Store.Return board' σ'
    ∧ Store.fresh_board σ σ' board' b'
    ∧ Store.board_at σ' board' = Some b'
    ∧ makeMove b m = Ok b'
    ∧ relocated b b' m p.

(** The property of [makeMove] as the specification states it. *)
Definition makeMove_claim (σ : list Store.object) (board : nat) (b : Board) (m : Move)
    : Prop :=
  input_unchanged σ board b m
  ∧ ∀ p, cell b (row (from m)) (col (from m)) = Ok (Some p) →
         returns_relocated σ board b m p.

(** The starting position in a store, and two moves the generator never
    produces: a jump that names its own destination as the captured
    square, and a move that goes nowhere. *)
Definition initial_store : list Store.object :=
  Store.final_store (Store.alloc_board initial_board []).

Definition initial_ref : nat :=
  match Store.alloc_board initial_board [] with
  | Store.Return l _ => l
  | Store.Throw _ => 0%nat
  end.


Definition standing_move : Move := mkMove (mkPosition 2 1) (mkPosition 2 1) None.


(** ** Further notions of the move generator *)

(** The directions of the rules: towards row 0 for white, towards row 7 for
    black, both ways for a king; one column to the left or to the right. *)
Definition legal_direction (piece : Piece) (d : Z * Z) : Prop :=
  (d.2 = -1 ∨ d.2 = 1)
  ∧ ((d.1 = -1 ∧ (type piece = white ∨ isKing piece = true))
     ∨ (d.1 = 1 ∧ (type piece = black ∨ isKing piece = true))).

(** The square next to [pos] in the direction [d]. *)
Definition neighbour (pos : Position) (d : Z * Z) : Position :=
  mkPosition (row pos + d.1) (col pos + d.2).

(** The piece on [pos] can step in the direction [d]: the next square is
    on the board and empty. *)
Definition can_step (b : Board) (pos : Position) (d : Z * Z) : Prop :=
  on_board (neighbour pos d)
  ∧ piece_on b (row (neighbour pos d)) (col (neighbour pos d)) = None.

(** It can jump in the direction [d]: the next square holds a piece of
    another [type], and the square behind is on the board and empty. *)
Definition can_jump (b : Board) (pos : Position) (piece : Piece) (d : Z * Z) : Prop :=
  on_board (neighbour pos d)
  ∧ (∃ other, piece_on b (row (neighbour pos d)) (col (neighbour pos d)) = Some other
              ∧ type other ≠ type piece)
  ∧ on_board (neighbour (neighbour pos d) d)
  ∧ piece_on b (row (neighbour (neighbour pos d) d))
      (col (neighbour (neighbour pos d) d)) = None.

Definition step_move (pos : Position) (d : Z * Z) : Move :=
  mkMove pos (neighbour pos d) None.

Definition jump_move (pos : Position) (d : Z * Z) : Move :=
  mkMove pos (neighbour (neighbour pos d) d) (Some [neighbour pos d]).

Global Instance can_step_dec b pos d : Decision (can_step b pos d).
Proof. unfold can_step. apply _. Defined.

Global Instance can_jump_dec b pos piece d : Decision (can_jump b pos piece d).
Proof.
  unfold can_jump.
  destruct (piece_on b (row (neighbour pos d)) (col (neighbour pos d))) as [other|].
  - destruct (decide (on_board (neighbour pos d) ∧ type other ≠ type piece
                      ∧ on_board (neighbour (neighbour pos d) d)
                      ∧ piece_on b (row (neighbour (neighbour pos d) d))
                          (col (neighbour (neighbour pos d) d)) = None))
      as [H|H].
    + left. destruct H as (? & ? & ? & ?). eauto 10.
    + right. intros (? & (other' & [= <-] & ?) & ? & ?). tauto.
  - right. intros (_ & (other & [=] & _) & _).
Defined.

(** ** The piece counts of the status panel *)

(** [countPieces] of game-status.tsx: the loops run over the rows and the
    cells the board has, whatever its shape; a hole or a [null] cell has
    no [type]. *)
Record PieceCount : Type := mkPieceCount { total : Z; kings : Z }.

Definition countPieces (board : Board) (type_ : PieceType) : PieceCount :=
  let '(count, kings) :=
    foldl (λ acc (cells : Row),
      foldl (λ '(count, kings) (cell : option Piece),
        match cell with
        | Some piece =>
            if decide (type piece = type_) then
              (count + 1, if isKing piece then kings + 1 else kings)
            else (count, kings)
        | None => (count, kings)
        end) acc cells) (0, 0) board in
  mkPieceCount count kings.

(** The squares among [cs] that hold a piece of type [t]. *)
Definition holding (b : Board) (t : PieceType) (cs : list Position) : list Position :=
  filter (λ pos, type_of (piece_on b (row pos) (col pos)) = Some t) cs.

(** The squares that hold a piece of another type than [side]. *)
Definition rivals_of (b : Board) (side : PieceType) : list Position :=
  filter (λ p, is_Some (piece_on b (row p) (col p))
               ∧ type_of (piece_on b (row p) (col p)) ≠ Some side) squares.

(** ** Further notions of the bot *)

(** A list of scored moves in which no move is followed by a move of a
    higher score. *)
Fixpoint descending (l : list (Move * Q)) : Prop :=
  match l with
  | [] => True
  | x :: l' => Forall (λ z, (snd z <= snd x)%Q) l' ∧ descending l'
  end.

Global Instance Qlt_decision (x y : Q) : Decision (x < y)%Q :=
  match Qlt_le_dec x y with
  | left H => left H
  | right H => right (Qle_not_lt _ _ H)
  end.

(** The score the loop of [getAdvancedMove] gives to a move: that of the
    search, one ply shallower, of the board after the move, with white to
    play. *)
Definition ply_score (board : Board) (difficulty : Z) (move : Move) : result number :=
  let depth : nat := if decide (difficulty >= 1600) then 4%nat else 3%nat in
  newBoard ← makeMove board move;
  minimax newBoard (depth - 1) NegInfinity Infinity false.

(** The state of the loop of [getAdvancedMove] after the moves [pre] of
    the list [all]: before the first move the best move is [all[0]] and
    the best score -Infinity; afterwards the best move is the first of
    the moves seen whose score is the highest. *)
Definition best_so_far (score : Move → result number) (all pre : list Move)
    (best : option Move) (bestScore : number) : Prop :=
  (pre = [] ∧ bestScore = NegInfinity ∧ best = all !! 0%nat)
  ∨ ∃ (i : nat) (m : Move),
      pre !! i = Some m ∧ best = Some m ∧ score m = Ok bestScore
      ∧ (∀ m', m' ∈ pre → ∃ s', score m' = Ok s' ∧ num_le s' bestScore = true)
      ∧ (∀ (j : nat) m', (j < i)%nat → pre !! j = Some m' →
           ∃ s', score m' = Ok s' ∧ num_lt s' bestScore = true).

(** ** The game component *)

(** The handlers of [CheckersGame] in checkers-game.tsx, as functions of
    the state variables they read and write. *)
Module Game.

Record State : Type := mkState {
  board : Board;
  currentPlayer : PieceType;
  selectedPosition : option Position;
  validMoves : list Move;
  winner : PieceType;
  difficulty : Z;
  isThinking : bool;
  animatingMove : option Move }.

(** [resetGame]: the rating and [isThinking] are not reset. *)
Definition resetGame (s : State) : result State :=
  newBoard ← createInitialBoard;
  Ok (mkState newBoard white None [] null (difficulty s) (isThinking s) None).

(** [(m) => m.to.row === row && m.to.col === col] *)
Definition targets (r c : Z) (m : Move) : bool :=
  bool_decide (row (to m) = r) && bool_decide (col (to m) = c).

(** [handleCellClick]: the state after the click and, when the click
    starts a move, the move whose completion [setTimeout] schedules.  An
    exception leaves the state as it was, every state update of the
    handler coming after its last call that can throw.  [validMoves.some]
    holds exactly when [validMoves.find] returns a move, the first one the
    test accepts. *)
Definition handleCellClick (s : State) (r c : Z) : result (State * option Move) :=
  if bool_decide (winner s ≠ null) || bool_decide (currentPlayer s ≠ white)
     || bool_decide (animatingMove s ≠ None)
  then Ok (s, None)
  else
    clickedPiece ← cell (board s) r c;
    match selectedPosition s, find (targets r c) (validMoves s) with
    | Some _, Some move =>
        Ok (mkState (board s) (currentPlayer s) (selectedPosition s) (validMoves s)
              (winner s) (difficulty s) (isThinking s) (Some move),
            Some move)
    | _, _ =>
        if decide (type_of clickedPiece = Some white) then
          allMoves ← getAllValidMoves (board s) white;
          pieceMoves ← getValidMoves (board s) (mkPosition r c);
          let hasCaptures := existsb isCapture allMoves in
          let pieceHasCaptures := existsb isCapture pieceMoves in
          if hasCaptures && negb pieceHasCaptures then Ok (s, None)
          else
            Ok (mkState (board s) (currentPlayer s) (Some (mkPosition r c)) pieceMoves
                  (winner s) (difficulty s) (isThinking s) (animatingMove s),
                None)
        else
          Ok (mkState (board s) (currentPlayer s) None []
                (winner s) (difficulty s) (isThinking s) (animatingMove s),
              None)
    end.

(** The callback [handleCellClick] schedules: [board0] and [move] are the
    board and the move of the click, [s] is the state when the callback
    runs.  The result is the state after the callback and whether it
    threw: the updates made before an exception stay. *)
Definition playerMoveDone (board0 : Board) (move : Move) (s : State)
    : State * result unit :=
  match makeMove board0 move with
  | TypeError => (s, TypeError)
  | Ok newBoard =>
      let s1 := mkState newBoard (currentPlayer s) None [] (winner s) (difficulty s)
                  (isThinking s) None in
      match checkWinner newBoard with
      | TypeError => (s1, TypeError)
      | Ok gameWinner =>
          if decide (gameWinner ≠ null) then
            (mkState newBoard (currentPlayer s) None [] gameWinner (difficulty s)
               (isThinking s) None, Ok ())
          else
            (mkState newBoard black None [] (winner s) (difficulty s)
               (isThinking s) None, Ok ())
      end
  end.

(** The test of the effect that lets the bot play. *)
Definition botToPlay (s : State) : bool :=
  bool_decide (currentPlayer s = black) && bool_decide (winner s = null)
  && bool_decide (animatingMove s = None).

Section Bot.
Variable random : double.

(** The callback of the first timer of the effect; the effect runs again,
    and cancels the timer, when the board or the rating changes, so the
    callback reads those of the state it runs in.  The result is the
    state after the callback and the move whose completion the second
    timer then has. *)
Definition botTimer (s : State) : result (State * option Move) :=
  botMove ← getBotMove random (board s) (difficulty s);
  match botMove with
  | Some move =>
      Ok (mkState (board s) (currentPlayer s) (selectedPosition s) (validMoves s)
            (winner s) (difficulty s) (isThinking s) (Some move),
          Some move)
  | None =>
      Ok (mkState (board s) (currentPlayer s) (selectedPosition s) (validMoves s)
            white (difficulty s) false (animatingMove s),
          None)
  end.
End Bot.

(** The callback of the second timer: [board0] and [botMove] are those of
    the first callback. *)
Definition botMoveDone (board0 : Board) (botMove : Move) (s : State)
    : State * result unit :=
  match makeMove board0 botMove with
  | TypeError => (s, TypeError)
  | Ok newBoard =>
      let s1 := mkState newBoard (currentPlayer s) (selectedPosition s) (validMoves s)
                  (winner s) (difficulty s) false None in
      match checkWinner newBoard with
      | TypeError => (s1, TypeError)
      | Ok gameWinner =>
          if decide (gameWinner ≠ null) then
            (mkState newBoard (currentPlayer s) (selectedPosition s) (validMoves s)
               gameWinner (difficulty s) false None, Ok ())
          else
            (mkState newBoard white (selectedPosition s) (validMoves s) (winner s)
               (difficulty s) false None, Ok ())
      end
  end.

End Game.

(** ** Further examples *)

(** The jumps on [capture_board]: of the black piece on (3,2) over (4,3),
    and of the white piece on (4,3) over (3,2). *)
Definition black_jump : Move :=
  mkMove (mkPosition 3 2) (mkPosition 5 4) (Some [mkPosition 4 3]).
Definition white_jump : Move :=
  mkMove (mkPosition 4 3) (mkPosition 2 1) (Some [mkPosition 3 2]).

(** The seven moves of black on the initial board, in the order of
    [getAllValidMoves]. *)
Definition opening_moves : list Move :=
  [ mkMove (mkPosition 2 1) (mkPosition 3 0) None;
    mkMove (mkPosition 2 1) (mkPosition 3 2) None;
    mkMove (mkPosition 2 3) (mkPosition 3 2) None;
    mkMove (mkPosition 2 3) (mkPosition 3 4) None;
    mkMove (mkPosition 2 5) (mkPosition 3 4) None;
    mkMove (mkPosition 2 5) (mkPosition 3 6) None;
    mkMove (mkPosition 2 7) (mkPosition 3 6) None ].

(** A list with one capture among simple moves, and a list with no
    capture and one move to row 7. *)
Definition capture_choice : list Move :=
  [ opening_move; mkMove (mkPosition 6 1) (mkPosition 7 2) None; black_jump;
    mkMove (mkPosition 2 3) (mkPosition 3 4) None ].
Definition crowning_choice : list Move :=
  [ opening_move; mkMove (mkPosition 2 3) (mkPosition 3 4) None;
    mkMove (mkPosition 6 1) (mkPosition 7 2) None ].

(** Black to play with three moves: the first, of the piece on (2,3)
    to (3,2), leaves the piece to the jump of the white piece on (4,1). *)
Definition exposed_board : Board :=
  [ [e_; e_; e_; e_; e_; e_; e_; e_];
    [e_; e_; e_; e_; e_; e_; e_; e_];
    [e_; e_; e_; bp; e_; e_; e_; bp];
    [e_; e_; e_; e_; e_; e_; e_; e_];
    [e_; wp; e_; e_; e_; e_; e_; e_];
    [e_; e_; e_; e_; e_; e_; e_; e_];
    [e_; e_; e_; e_; e_; e_; e_; e_];
    [wp; e_; e_; e_; e_; e_; e_; e_] ].
Definition exposed_moves : list Move :=
  [ mkMove (mkPosition 2 3) (mkPosition 3 2) None;
    mkMove (mkPosition 2 3) (mkPosition 3 4) None;
    mkMove (mkPosition 2 7) (mkPosition 3 6) None ].

(** Two values of [Math.random()]: 2573485501354569 * 2^-52, just below
    4/7, and 6004799503160661 * 2^-54, just below 1/3. *)
Definition random_4_7 : double := mkDouble 2573485501354569 (-52).
Definition random_1_3 : double := mkDouble 6004799503160661 (-54).

(** States of the game on a board: white to play with nothing selected,
    white to play with the piece on (4,3) selected for its jump, and
    black to play. *)
Definition white_to_play (b : Board) : Game.State :=
  Game.mkState b white None [] null 1000 false None.
Definition white_selected (b : Board) : Game.State :=
  Game.mkState b white (Some (mkPosition 4 3)) [white_jump] null 1000 false None.
Definition black_to_play (b : Board) : Game.State :=
  Game.mkState b black None [] null 1000 true None.

(** ** The difficulty selector *)

(** The levels of difficulty-selector.tsx; the colour class of a level,
    a string the selector only prints, is left out of the record. *)
Module Selector.

Inductive DifficultyKey : Type := beginner | easy | medium | hard | expert.

Global Instance DifficultyKey_eq_dec : EqDecision DifficultyKey.
Proof. solve_decision. Defined.

Record Level : Type := mkLevel { key : DifficultyKey; elo : Z }.

Global Instance Level_eq_dec : EqDecision Level.
Proof. solve_decision. Defined.

Definition difficulties : list Level :=
  [ mkLevel beginner 200; mkLevel easy 600; mkLevel medium 1000;
    mkLevel hard 1400; mkLevel expert 1800 ].

(** [a.reduce(f)] without an initial value: it throws a TypeError on an
    empty array. *)
Definition reduce {A : Type} (a : list A) (f : A → A → A) : result A :=
  match a with
  | [] => TypeError
  | x :: rest => Ok (foldl f x rest)
  end.

(** The level the selector shows for a rating. *)
Definition currentDifficulty (difficulty : Z) : result Level :=
  reduce difficulties (λ prev curr,
    if decide (Z.abs (elo curr - difficulty) < Z.abs (elo prev - difficulty))
    then curr else prev).

End Selector.

(** * Properties *)

(** ** The error monad and the loops *)

Lemma bind_Ok {A B : Type} (m : result A) (f : A → result B) (y : B) :
  m ≫= f = Ok y ↔ ∃ x, m = Ok x ∧ f x = Ok y.
Proof.
  destruct m as [x|]; simpl; split.
  - intros H. exists x. done.
  - intros (x' & [= <-] & H). done.
  - done.
  - intros (x' & [=] & _).
Qed.

Lemma fmap_Ok {A B : Type} (m : result A) (f : A → B) (y : B) :
  f <$> m = Ok y ↔ ∃ x, m = Ok x ∧ y = f x.
Proof.
  destruct m as [x|]; simpl; split.
  - intros [= <-]. eauto.
  - intros (x' & [= <-] & ->). done.
  - done.
  - intros (x' & [=] & _).
Qed.

Lemma for_each_app {A S : Type} (xs ys : list A) (body : S → A → result S) (s : S) :
  for_each (xs ++ ys) body s = for_each xs body s ≫= for_each ys body.
Proof.
  revert s. induction xs as [|x xs IH]; intros s; simpl; [done|].
  destruct (body s x) as [s'|]; simpl; [apply IH | done].
Qed.

Lemma for_each_ext {A S : Type} (xs : list A) (body1 body2 : S → A → result S) (s : S) :
  (∀ s x, body1 s x = body2 s x) → for_each xs body1 s = for_each xs body2 s.
Proof.
  intros Hext. revert s. induction xs as [|x xs IH]; intros s; simpl; [done|].
  rewrite Hext. destruct (body2 s x); simpl; [apply IH | done].
Qed.

(** A loop throws when its body throws on one of the elements, whatever
    the state. *)
Lemma for_each_throws {A S : Type} (xs : list A) (body : S → A → result S) (s : S)
    (x : A) :
  x ∈ xs → (∀ s, body s x = TypeError) → for_each xs body s = TypeError.
Proof.
  intros Hx Hbody. revert s. induction xs as [|y xs IH]; intros s.
  - by apply elem_of_nil in Hx.
  - simpl. apply elem_of_cons in Hx as [<-|Hx].
    + by rewrite Hbody.
    + destruct (body s y); simpl; [by apply IH | done].
Qed.

(** A loop whose body keeps an invariant and never throws returns a state
    that satisfies the invariant. *)
Lemma for_each_invariant {A S : Type} (P : S → Prop) (xs : list A)
    (body : S → A → result S) (s : S) :
  P s →
  (∀ s x, x ∈ xs → P s → ∃ s', body s x = Ok s' ∧ P s') →
  ∃ s', for_each xs body s = Ok s' ∧ P s'.
Proof.
  revert s. induction xs as [|x xs IH]; intros s Hs Hbody; simpl.
  - eauto.
  - destruct (Hbody s x) as (s' & -> & Hs'); [left | done |]. simpl.
    apply IH; [done|]. intros s'' y Hy. apply Hbody. by right.
Qed.

(** Two nested loops are one loop over the pairs. *)
Lemma for_each_nested {A B S : Type} (xs : list A) (ys : list B)
    (body : A → S → B → result S) (s : S) :
  for_each xs (λ acc x, for_each ys (body x) acc) s
  = for_each (x ← xs; y ← ys; [(x, y)]) (λ acc xy, body xy.1 acc xy.2) s.
Proof.
  revert s. induction xs as [|x xs IH]; intros s; [done|].
  change (for_each (x :: xs) (λ acc x, for_each ys (body x) acc) s)
    with (for_each ys (body x) s ≫= for_each xs (λ acc x, for_each ys (body x) acc)).
  change ((x :: xs) ≫= (λ x, ys ≫= (λ y, [(x, y)])))
    with ((ys ≫= (λ y, [(x, y)])) ++ (xs ≫= (λ x, ys ≫= (λ y, [(x, y)])))).
  rewrite for_each_app.
  assert (Hin : ∀ s0, for_each (ys ≫= (λ y, [(x, y)])) (λ acc xy, body xy.1 acc xy.2) s0
                      = for_each ys (body x) s0).
  { clear. induction ys as [|y ys IHy]; intros s0; [done|]. simpl.
    destruct (body x s0 y); simpl; [apply IHy | done]. }
  rewrite Hin. destruct (for_each ys (body x) s) as [s'|]; simpl; [apply IH | done].
Qed.

(** ** Arrays and boards *)

Lemma index_Some {A : Type} (a : list A) (i : Z) (x : A) :
  index a i = Some x ↔ 0 ≤ i ∧ a !! Z.to_nat i = Some x.
Proof.
  unfold index. destruct (Z.ltb_spec i 0); split.
  - done.
  - intros [? _]. lia.
  - intros ?. split; [lia | done].
  - intros [_ ?]. done.
Qed.

Lemma index_None {A : Type} (a : list A) (i : Z) :
  index a i = None ↔ i < 0 ∨ Z.of_nat (length a) ≤ i.
Proof.
  unfold index. destruct (Z.ltb_spec i 0).
  - split; [by left | done].
  - rewrite lookup_ge_None. lia.
Qed.

Lemma index_of_nat {A : Type} (a : list A) (i : nat) :
  index a (Z.of_nat i) = a !! i.
Proof.
  unfold index. destruct (Z.ltb_spec (Z.of_nat i) 0); [lia|]. by rewrite Nat2Z.id.
Qed.

Lemma index_set_index {A : Type} (a : list (option A)) (i j : Z) (v : option A) :
  default None (index (set_index a i v) j)
  = if decide (j = i ∧ 0 ≤ i) then v else default None (index a j).
Proof.
  unfold set_index. destruct (Z.ltb_spec i 0) as [Hi|Hi].
  { rewrite decide_False by lia. done. }
  destruct (Z.ltb_spec i (Z.of_nat (length a))) as [Hlt|Hge].
  - case_decide as Hj.
    + destruct Hj as [-> _]. unfold index. destruct (Z.ltb_spec i 0); [lia|].
      rewrite list_lookup_insert_eq by lia. done.
    + unfold index. destruct (Z.ltb_spec j 0); [done|].
      rewrite list_lookup_insert_ne by lia. done.
  - unfold index. destruct (Z.ltb_spec j 0) as [Hj|Hj].
    { rewrite decide_False by lia. done. }
    case_decide as Hji.
    + destruct Hji as [-> _].
      rewrite lookup_app_r by lia. rewrite lookup_app_r by (rewrite length_replicate; lia).
      rewrite length_replicate.
      replace (Z.to_nat i - length a - (Z.to_nat i - length a))%nat with 0%nat by lia.
      done.
    + destruct (decide (Z.to_nat j < length a)%nat) as [Hja|Hja].
      * rewrite lookup_app_l by lia. done.
      * rewrite (lookup_ge_None_2 a) by lia.
        rewrite lookup_app_r by lia.
        destruct (decide (Z.to_nat j - length a < Z.to_nat i - length a)%nat).
        -- rewrite lookup_app_l by (rewrite length_replicate; lia).
           rewrite lookup_replicate_2 by lia. done.
        -- rewrite lookup_app_r by (rewrite length_replicate; lia).
           rewrite length_replicate.
           rewrite lookup_ge_None_2; [done|]. simpl. lia.
Qed.

Lemma row_of_Ok (b : Board) (r : Z) (cells : Row) :
  row_of b r = Ok cells ↔ index b r = Some cells.
Proof. unfold row_of. destruct (index b r); split; congruence. Qed.

Lemma row_of_in_range (b : Board) (r : Z) :
  0 ≤ r < Z.of_nat (length b) → ∃ cells, row_of b r = Ok cells ∧ index b r = Some cells.
Proof.
  intros Hr. destruct (index b r) as [cells|] eqn:E.
  - exists cells. by rewrite row_of_Ok.
  - apply index_None in E. lia.
Qed.

(** Inside the rows of the board a read returns what the square holds. *)
Lemma cell_in_range (b : Board) (r c : Z) :
  0 ≤ r < Z.of_nat (length b) → cell b r c = Ok (piece_on b r c).
Proof.
  intros Hr. destruct (row_of_in_range b r Hr) as (cells & Hrow & Hidx).
  unfold cell, piece_on. rewrite Hrow, Hidx. done.
Qed.

Lemma cell_Ok (b : Board) (r c : Z) (v : option Piece) :
  cell b r c = Ok v ↔ 0 ≤ r < Z.of_nat (length b) ∧ piece_on b r c = v.
Proof.
  split.
  - intros H. assert (Hr : 0 ≤ r < Z.of_nat (length b)).
    { unfold cell, row_of in H. destruct (index b r) eqn:E; [|done].
      apply index_Some in E as [? E]. apply lookup_lt_Some in E. lia. }
    rewrite cell_in_range in H by done. split; congruence.
  - intros [Hr <-]. by apply cell_in_range.
Qed.

Lemma cell_out_of_range (b : Board) (r c : Z) :
  ¬ (0 ≤ r < Z.of_nat (length b)) → cell b r c = TypeError.
Proof.
  intros Hr. destruct (cell b r c) eqn:E; [|done]. apply cell_Ok in E. tauto.
Qed.

Lemma piece_on_Some_range (b : Board) (r c : Z) (p : Piece) :
  piece_on b r c = Some p → 0 ≤ r < Z.of_nat (length b) ∧ 0 ≤ c.
Proof.
  unfold piece_on. intros H.
  destruct (index b r) as [cells|] eqn:E; simpl in H.
  - apply index_Some in E as [? E]. apply lookup_lt_Some in E.
    destruct (index cells c) eqn:Ec; [|done]. apply index_Some in Ec. lia.
  - unfold index in H. destruct (c <? 0); done.
Qed.

(** An assignment to a square inside the rows of the board returns; the
    board keeps its number of rows, the square holds the value assigned
    (when the column is an element index), every other square is as
    before. *)
Lemma set_cell_in_range (b : Board) (r c : Z) (v : option Piece) :
  0 ≤ r < Z.of_nat (length b) →
  ∃ b', set_cell b r c v = Ok b' ∧ length b' = length b ∧
    ∀ r' c', piece_on b' r' c'
             = if decide (r' = r ∧ c' = c ∧ 0 ≤ c) then v else piece_on b r' c'.
Proof.
  intros Hr. destruct (row_of_in_range b r Hr) as (cells & Hrow & Hidx).
  unfold set_cell. rewrite Hrow. simpl. eexists. split; [done|].
  split; [by rewrite length_insert|].
  intros r' c'. unfold piece_on at 1.
  destruct (decide (r' = r)) as [->|Hne].
  - replace (index (<[Z.to_nat r:=set_index cells c v]> b) r)
      with (Some (set_index cells c v)).
    2:{ symmetry. apply index_Some. split; [lia|].
        apply list_lookup_insert_eq. lia. }
    simpl. rewrite index_set_index. unfold piece_on. rewrite Hidx. simpl.
    repeat case_decide; try done; tauto.
  - rewrite decide_False by tauto. unfold piece_on.
    replace (index (<[Z.to_nat r:=set_index cells c v]> b) r') with (index b r'); [done|].
    unfold index. destruct (r' <? 0) eqn:E; [done|].
    symmetry. apply list_lookup_insert_ne. apply Z.ltb_ge in E. lia.
Qed.

Lemma set_cell_Ok (b b' : Board) (r c : Z) (v : option Piece) :
  set_cell b r c v = Ok b' → 0 ≤ r < Z.of_nat (length b).
Proof.
  unfold set_cell, row_of. destruct (index b r) eqn:E; [|done]. intros _.
  apply index_Some in E as [? E]. apply lookup_lt_Some in E. lia.
Qed.

Lemma set_cell_out_of_range (b : Board) (r c : Z) (v : option Piece) :
  ¬ (0 ≤ r < Z.of_nat (length b)) → set_cell b r c v = TypeError.
Proof.
  intros Hr. destruct (set_cell b r c v) eqn:E; [|done].
  apply set_cell_Ok in E. tauto.
Qed.


(** ** The squares of the board *)

Lemma for_each_fmap {A B S : Type} (f : A → B) (xs : list A)
    (body : S → B → result S) (s : S) :
  for_each (f <$> xs) body s = for_each xs (λ acc x, body acc (f x)) s.
Proof.
  revert s. induction xs as [|x xs IH]; intros s; simpl; [done|].
  destruct (body s (f x)); simpl; [apply IH | done].
Qed.

(** The two loops over the rows and the columns visit the squares. *)
Lemma for_each_squares {S : Type} (body : Z → S → Z → result S) (s : S) :
  for_each (seqZ 0 BOARD_SIZE) (λ acc r, for_each (seqZ 0 BOARD_SIZE) (body r) acc) s
  = for_each squares (λ acc p, body (row p) acc (col p)) s.
Proof.
  rewrite for_each_nested.
  replace squares
    with ((λ rc : Z * Z, mkPosition rc.1 rc.2)
            <$> (r ← seqZ 0 BOARD_SIZE; c ← seqZ 0 BOARD_SIZE; [(r, c)]))
    by (vm_compute; reflexivity).
  by rewrite for_each_fmap.
Qed.

Lemma elem_of_squares (p : Position) : p ∈ squares ↔ on_board p.
Proof.
  unfold squares, on_board, isValidPosition. rewrite list_elem_of_bind.
  setoid_rewrite list_elem_of_bind. setoid_rewrite elem_of_seqZ.
  setoid_rewrite list_elem_of_singleton.
  rewrite !andb_true_iff, !bool_decide_eq_true. unfold BOARD_SIZE. split.
  - intros (r & (c & -> & ?) & ?). simpl. lia.
  - intros ?. exists (row p). split; [|lia]. exists (col p). split; [|lia].
    by destruct p.
Qed.

Lemma on_board_range (p : Position) :
  on_board p ↔ 0 ≤ row p < 8 ∧ 0 ≤ col p < 8.
Proof.
  unfold on_board, isValidPosition, BOARD_SIZE.
  rewrite !andb_true_iff, !bool_decide_eq_true. lia.
Qed.

Lemma isValidPosition_range (r c : Z) :
  isValidPosition r c = true ↔ 0 ≤ r < 8 ∧ 0 ≤ c < 8.
Proof. apply (on_board_range (mkPosition r c)). Qed.

Lemma has_rows_range (b : Board) (r : Z) :
  has_rows b → 0 ≤ r < 8 → 0 ≤ r < Z.of_nat (length b).
Proof. unfold has_rows, BOARD_SIZE. lia. Qed.

Lemma wf_board_has_rows (b : Board) : wf_board b → has_rows b.
Proof. intros [H _]. unfold has_rows. lia. Qed.

(** On a board of the data model a piece stands on one of the squares. *)
Lemma wf_board_piece_on (b : Board) (r c : Z) (p : Piece) :
  wf_board b → piece_on b r c = Some p → on_board (mkPosition r c).
Proof.
  intros [Hlen Hrows] H. apply on_board_range. simpl.
  unfold piece_on in H. destruct (index b r) as [cells|] eqn:E; simpl in H.
  - apply index_Some in E as [? E].
    assert (length cells = Z.to_nat BOARD_SIZE) as Hc.
    { eapply (Forall_lookup_1 _ _ _ _ Hrows E). }
    apply lookup_lt_Some in E.
    destruct (index cells c) eqn:Ec; [|done].
    apply index_Some in Ec as [? Ec]. apply lookup_lt_Some in Ec.
    unfold BOARD_SIZE in *. lia.
  - unfold index in H. destruct (c <? 0); done.
Qed.

(** ** getValidMoves *)

Lemma directions_of_step (piece : Piece) (d : Z * Z) :
  d ∈ directions_of piece → (d.1 = -1 ∨ d.1 = 1) ∧ (d.2 = -1 ∨ d.2 = 1).
Proof.
  unfold directions_of. rewrite elem_of_app.
  destruct (bool_decide (type piece = white) || isKing piece),
           (bool_decide (type piece = black) || isKing piece);
    rewrite ?elem_of_cons, ?elem_of_nil; intros H;
    destruct_or?; simplify_eq/=; lia.
Qed.

(** One direction adds at most a move of the expected shape, and does not
    throw when the rows of the grid exist. *)
Lemma scan_direction_total (b : Board) (pos : Position) (piece : Piece)
    (moves captures : list Move) (d : Z * Z) :
  has_rows b →
  (d.1 = -1 ∨ d.1 = 1) ∧ (d.2 = -1 ∨ d.2 = 1) →
  Forall (move_from pos) moves → Forall (move_from pos) captures →
  ∃ moves' captures',
    scan_direction b pos piece (moves, captures) d = Ok (moves', captures')
    ∧ Forall (move_from pos) moves' ∧ Forall (move_from pos) captures'.
Proof.
  intros Hb Hd Hm Hc. destruct d as [dRow dCol]. simpl in Hd.
  unfold scan_direction.
  destruct (isValidPosition (row pos + dRow) (col pos + dCol)) eqn:Hnew; [|eauto].
  pose proof Hnew as Hnew'. apply isValidPosition_range in Hnew'.
  rewrite (cell_in_range b (row pos + dRow) (col pos + dCol))
    by (apply has_rows_range; [done | lia]). simpl.
  destruct (piece_on b (row pos + dRow) (col pos + dCol)) as [other|].
  - case_decide; [|eauto].
    destruct (isValidPosition (row pos + dRow + dRow) (col pos + dCol + dCol)) eqn:Hjump;
      [|eauto].
    pose proof Hjump as Hjump'. apply isValidPosition_range in Hjump'.
    rewrite (cell_in_range b (row pos + dRow + dRow) (col pos + dCol + dCol))
      by (apply has_rows_range; [done | lia]). simpl.
    destruct (piece_on b (row pos + dRow + dRow) (col pos + dCol + dCol)); [eauto|].
    do 2 eexists. split; [done|]. split; [done|].
    apply Forall_app. split; [done|]. apply Forall_singleton.
    split; [done|]. split; [done|].
    exists dRow, dCol. split; [tauto|]. split; [tauto|]. right. done.
  - do 2 eexists. split; [done|]. split; [|done].
    apply Forall_app. split; [done|]. apply Forall_singleton.
    split; [done|]. split; [done|].
    exists dRow, dCol. split; [tauto|]. split; [tauto|]. left. done.
Qed.

(** [getValidMoves] returns for every square of the rows of the board;
    its moves leave from that square and have the expected shape. *)
Lemma getValidMoves_total (b : Board) (pos : Position) :
  has_rows b → 0 ≤ row pos < Z.of_nat (length b) →
  ∃ ms, getValidMoves b pos = Ok ms ∧ Forall (move_from pos) ms
        ∧ (piece_on b (row pos) (col pos) = None → ms = []).
Proof.
  intros Hb Hpos. unfold getValidMoves. rewrite cell_in_range by done. simpl.
  destruct (piece_on b (row pos) (col pos)) as [piece|]; [|eauto].
  destruct (for_each_invariant
              (λ acc, Forall (move_from pos) acc.1 ∧ Forall (move_from pos) acc.2)
              (directions_of piece) (scan_direction b pos piece) ([], []))
    as ([moves captures] & -> & Hm & Hc).
  - done.
  - intros [moves captures] d Hd [Hm Hc].
    destruct (scan_direction_total b pos piece moves captures d)
      as (moves' & captures' & -> & ? & ?); eauto using directions_of_step.
  - simpl. eexists. split; [done|]. split; [by case_bool_decide | done].
Qed.


(** ** getAllValidMoves *)

(** The loop over the moves of one piece sorts them into the two arrays. *)
Lemma partition_loop (ms moves captures : list Move) :
  for_each ms (λ '(moves, captures) move,
      if isCapture move then Ok (moves, captures ++ [move])
      else Ok (moves ++ [move], captures)) (moves, captures)
  = Ok (moves ++ filter (λ m, isCapture m ≠ true) ms,
        captures ++ filter (λ m, isCapture m = true) ms).
Proof.
  revert moves captures. induction ms as [|m ms IH]; intros moves captures.
  - simpl. by rewrite !app_nil_r.
  - simpl. destruct (isCapture m) eqn:E; simpl; rewrite IH.
    + rewrite filter_cons_False by (rewrite E; auto).
      rewrite filter_cons_True by done. by rewrite <- app_assoc.
    + rewrite filter_cons_True by (rewrite E; auto).
      rewrite filter_cons_False by (rewrite E; auto). by rewrite <- app_assoc.
Qed.

Lemma for_each_cons {A S : Type} (x : A) (xs : list A) (body : S → A → result S) (s : S) :
  for_each (x :: xs) body s = body s x ≫= for_each xs body.
Proof. done. Qed.

Lemma filter_none {A : Type} (P : A → Prop) `{∀ x, Decision (P x)} (l : list A) :
  Forall (λ x, ¬ P x) l → filter P l = [].
Proof.
  induction 1 as [|x l Hx _ IH]; [done|]. by rewrite filter_cons_False.
Qed.

Lemma filter_all {A : Type} (P : A → Prop) `{∀ x, Decision (P x)} (l : list A) :
  Forall P l → filter P l = l.
Proof.
  induction 1 as [|x l Hx _ IH]; [done|]. rewrite filter_cons_True by done.
  by rewrite IH.
Qed.

(** One square of the loop of [getAllValidMoves]. *)
Lemma collect_square_step (b : Board) (side : PieceType) (p : Position)
    (moves captures : list Move) :
  has_rows b → on_board p →
  collect_square b side (row p) (moves, captures) (col p)
  = if decide (type_of (piece_on b (row p) (col p)) = Some side)
    then ms ← getValidMoves b p;
         Ok (moves ++ filter (λ m, isCapture m ≠ true) ms,
             captures ++ filter (λ m, isCapture m = true) ms)
    else Ok (moves, captures).
Proof.
  intros Hb Hp. apply on_board_range in Hp.
  unfold collect_square.
  rewrite cell_in_range by (apply has_rows_range; [done | lia]). simpl.
  case_decide; [|done].
  replace (mkPosition (row p) (col p)) with p by (by destruct p).
  destruct (getValidMoves b p) as [ms|]; simpl; [|done]. apply partition_loop.
Qed.

(** The loop over the squares: the moves of the pieces of the side, in
    the order of the squares, sorted into the two arrays. *)
Lemma collect_loop (b : Board) (side : PieceType) (sqs : list Position)
    (moves captures : list Move) :
  has_rows b → Forall on_board sqs →
  ∃ raw,
    mapM (getValidMoves b)
      (filter (λ p, type_of (piece_on b (row p) (col p)) = Some side) sqs) = Ok raw
    ∧ Forall2 (λ p ms, Forall (move_from p) ms)
        (filter (λ p, type_of (piece_on b (row p) (col p)) = Some side) sqs) raw
    ∧ for_each sqs (λ acc p, collect_square b side (row p) acc (col p)) (moves, captures)
      = Ok (moves ++ filter (λ m, isCapture m ≠ true) (concat raw),
            captures ++ filter (λ m, isCapture m = true) (concat raw)).
Proof.
  intros Hb Hsqs. revert moves captures.
  induction Hsqs as [|p sqs Hp Hsqs IH]; intros moves captures.
  - exists []. simpl. rewrite !app_nil_r. done.
  - rewrite for_each_cons, collect_square_step by done.
    case_decide as Hside.
    + rewrite filter_cons_True by done.
      assert (Hrow : 0 ≤ row p < Z.of_nat (length b)).
      { apply on_board_range in Hp. apply has_rows_range; [done | lia]. }
      destruct (getValidMoves_total b p Hb Hrow) as (ms & Hms & Hshape & _).
      rewrite Hms. simpl.
      destruct (IH (moves ++ filter (λ m, isCapture m ≠ true) ms)
                   (captures ++ filter (λ m, isCapture m = true) ms))
        as (raw & Hraw & Hshapes & Hloop).
      exists (ms :: raw). simpl. rewrite Hms. simpl. rewrite Hraw. simpl.
      split; [done|]. split; [by constructor|].
      rewrite Hloop, !filter_app, !app_assoc. done.
    + rewrite filter_cons_False by done. apply IH.
Qed.

Lemma squares_on_board : Forall on_board squares.
Proof. apply Forall_forall. intros p. apply elem_of_squares. Qed.

(** The result of [getAllValidMoves] in terms of the candidate moves. *)
Lemma getAllValidMoves_candidates (b : Board) (side : PieceType) :
  has_rows b →
  ∃ raw,
    mapM (getValidMoves b) (pieces_of b side) = Ok raw
    ∧ Forall2 (λ p ms, Forall (move_from p) ms) (pieces_of b side) raw
    ∧ getAllValidMoves b side = Ok (forced_capture (concat raw)).
Proof.
  intros Hb.
  destruct (collect_loop b side squares [] [] Hb squares_on_board)
    as (raw & Hraw & Hshape & Hloop).
  exists raw. split; [done|]. split; [done|].
  unfold getAllValidMoves. rewrite for_each_squares.
  unfold pieces_of in Hraw. rewrite Hloop. simpl.
  unfold forced_capture. f_equal.
  set (cand := concat raw).
  destruct (decide (Exists (λ m, isCapture m = true) cand)) as [Hex|Hno].
  - rewrite bool_decide_eq_true_2; [done|].
    apply Exists_exists in Hex as (m & Hm & Hcap).
    assert (m ∈ filter (λ m, isCapture m = true) cand) as Hin
      by (by apply list_elem_of_filter).
    destruct (filter (λ m, isCapture m = true) cand); [by apply elem_of_nil in Hin|].
    simpl. lia.
  - assert (Hall : Forall (λ m, isCapture m ≠ true) cand).
    { apply Forall_forall. intros m Hm Hcap. apply Hno, Exists_exists. eauto. }
    rewrite (filter_none (λ m, isCapture m = true)) by done.
    rewrite bool_decide_eq_false_2 by (simpl; lia).
    by rewrite filter_all.
Qed.

Lemma forced_capture_subseteq (candidates : list Move) :
  forced_capture candidates ⊆ candidates.
Proof.
  unfold forced_capture. case_decide; [|done].
  intros m Hm. by apply list_elem_of_filter in Hm as [_ ?].
Qed.

Lemma elem_of_pieces_of (b : Board) (side : PieceType) (p : Position) :
  p ∈ pieces_of b side
  ↔ on_board p ∧ type_of (piece_on b (row p) (col p)) = Some side.
Proof.
  unfold pieces_of. rewrite list_elem_of_filter, elem_of_squares. tauto.
Qed.

(** [getAllValidMoves] returns when the rows of the grid exist; each of its
    moves is the move of a piece of the side. *)
Lemma getAllValidMoves_total (b : Board) (side : PieceType) :
  has_rows b →
  ∃ ms, getAllValidMoves b side = Ok ms ∧ Forall (moved_by b side) ms.
Proof.
  intros Hb.
  destruct (getAllValidMoves_candidates b side Hb) as (raw & _ & Hshape & ->).
  eexists. split; [done|]. apply Forall_forall. intros m Hm.
  apply forced_capture_subseteq in Hm.
  apply list_elem_of_In, in_concat in Hm as (ms & Hms & Hm).
  apply list_elem_of_In in Hms. apply list_elem_of_In in Hm.
  apply list_elem_of_lookup in Hms as (i & Hi).
  destruct (Forall2_lookup_r _ _ _ _ _ Hshape Hi) as (p & Hp & Hall).
  apply list_elem_of_lookup_2 in Hp. apply elem_of_pieces_of in Hp as [_ Hside].
  rewrite Forall_forall in Hall. specialize (Hall m Hm).
  pose proof Hall as (Hfrom & _). split; rewrite Hfrom; done.
Qed.

(** A move of [getValidMoves] is the move of the piece on the square. *)
Lemma getValidMoves_moved_by (b : Board) (pos : Position) (ms : list Move) (m : Move) :
  has_rows b → getValidMoves b pos = Ok ms → m ∈ ms →
  ∃ side, moved_by b side m.
Proof.
  intros Hb Hms Hm.
  assert (Hrow : 0 ≤ row pos < Z.of_nat (length b)).
  { unfold getValidMoves in Hms. apply bind_Ok in Hms as (v & Hv & _).
    by apply cell_Ok in Hv as [? _]. }
  destruct (getValidMoves_total b pos Hb Hrow) as (ms' & Hms' & Hshape & Hnone).
  rewrite Hms in Hms'. injection Hms' as <-.
  rewrite Forall_forall in Hshape. specialize (Hshape m Hm).
  destruct (piece_on b (row pos) (col pos)) as [piece|] eqn:E.
  - exists (type piece). pose proof Hshape as (Hfrom & _).
    split; rewrite Hfrom; [by rewrite E | done].
  - rewrite Hnone in Hm by done. by apply elem_of_nil in Hm.
Qed.

(** C1.  On a board of the data model, for every side: the moves of
    [getAllValidMoves] are, when some candidate move of the side is a
    capture, the capture moves among the candidates and nothing else, and
    otherwise all the candidates, which are then all simple moves.  The
    candidates are the union of the moves of [getValidMoves] over the
    squares holding a piece of the side. *)
Theorem getAllValidMoves_forced_capture (b : Board) (side : PieceType) :
  wf_board b →
  ∃ candidates moves,
    side_candidates b side = Ok candidates
    ∧ getAllValidMoves b side = Ok moves
    ∧ (Exists (λ m, isCapture m = true) candidates →
       moves = filter (λ m, isCapture m = true) candidates
       ∧ Forall (λ m, isCapture m = true) moves)
    ∧ (¬ Exists (λ m, isCapture m = true) candidates →
       moves = candidates ∧ Forall (λ m, isCapture m = false) moves).
Proof.
  intros Hwf. apply wf_board_has_rows in Hwf.
  destruct (getAllValidMoves_candidates b side Hwf) as (raw & Hraw & _ & Hall).
  exists (concat raw), (forced_capture (concat raw)).
  unfold side_candidates. rewrite Hraw. simpl. split; [done|]. split; [done|].
  unfold forced_capture. split; intros Hex.
  - rewrite decide_True by done. split; [done|].
    apply Forall_forall. intros m Hm. by apply list_elem_of_filter in Hm as [? _].
  - rewrite decide_False by done. split; [done|].
    apply Forall_forall. intros m Hm. destruct (isCapture m) eqn:E; [|done].
    exfalso. apply Hex, Exists_exists. eauto.
Qed.

Lemma wf_initial_board : wf_board initial_board.
Proof. split; [reflexivity | repeat constructor]. Qed.

Lemma wf_capture_board : wf_board capture_board.
Proof. split; [reflexivity | repeat constructor]. Qed.

Lemma wf_empty_board : wf_board empty_board.
Proof. split; [reflexivity | repeat constructor]. Qed.

Lemma getAllValidMoves_forced_capture_witness :
  wf_board capture_board
  ∧ ∃ candidates moves,
      side_candidates capture_board black = Ok candidates
      ∧ getAllValidMoves capture_board black = Ok moves
      ∧ (Exists (λ m, isCapture m = true) candidates →
         moves = filter (λ m, isCapture m = true) candidates
         ∧ Forall (λ m, isCapture m = true) moves)
      ∧ (¬ Exists (λ m, isCapture m = true) candidates →
         moves = candidates ∧ Forall (λ m, isCapture m = false) moves).
Proof.
  split; [exact wf_capture_board|].
  apply (getAllValidMoves_forced_capture capture_board black).
  split; [reflexivity | repeat constructor].
Defined.

(** On [capture_board] the simple moves of the piece on (0,1) are dropped:
    the only move of black is the jump. *)
Example getAllValidMoves_capture_board :
  getAllValidMoves capture_board black
  = Ok [mkMove (mkPosition 3 2) (mkPosition 5 4) (Some [mkPosition 4 3])]
  ∧ side_candidates capture_board black
    = Ok [mkMove (mkPosition 0 1) (mkPosition 1 0) None;
          mkMove (mkPosition 0 1) (mkPosition 1 2) None;
          mkMove (mkPosition 3 2) (mkPosition 5 4) (Some [mkPosition 4 3])].
Proof. split; vm_compute; reflexivity. Qed.


(** ** makeMove on board values *)

Lemma copy_board_id (b : Board) : copy_board b = b.
Proof.
  unfold copy_board. rewrite <- (list_fmap_id b) at 2.
  apply list_fmap_ext. intros _ cells _. rewrite <- (list_fmap_id cells) at 2.
  apply list_fmap_ext. intros _ [[]|] _; done.
Qed.

Lemma piece_on_negative_col (b : Board) (r c : Z) : c < 0 → piece_on b r c = None.
Proof.
  intros Hc. unfold piece_on, index at 1. destruct (Z.ltb_spec c 0); [done | lia].
Qed.

(** The loop that clears the captured squares. *)
Lemma clear_loop (cs : list Position) (nb : Board) :
  Forall (λ pos, 0 ≤ row pos < Z.of_nat (length nb)) cs →
  ∃ b', for_each cs (λ nb pos, set_cell nb (row pos) (col pos) None) nb = Ok b'
        ∧ length b' = length nb
        ∧ ∀ r c, piece_on b' r c
                 = if decide (mkPosition r c ∈ cs) then None else piece_on nb r c.
Proof.
  intros Hcs. revert nb Hcs. induction cs as [|pos cs IH]; intros nb Hcs.
  - exists nb. split; [done|]. split; [done|]. intros r c.
    rewrite decide_False; [done|]. apply not_elem_of_nil.
  - apply Forall_cons in Hcs as [Hpos Hcs].
    destruct (set_cell_in_range nb (row pos) (col pos) None Hpos)
      as (nb1 & Hset & Hlen & Hread).
    destruct (IH nb1) as (b' & Hloop & Hlen' & Hread').
    { by rewrite Hlen. }
    exists b'. rewrite for_each_cons, Hset. simpl. split; [done|].
    split; [congruence|]. intros r c. rewrite Hread', Hread.
    destruct (decide (mkPosition r c = pos)) as [<-|Hne]; simpl.
    + rewrite (decide_True (P := _ ∈ _ :: _)) by left.
      destruct (decide (mkPosition r c ∈ cs)); [done|].
      destruct (decide (r = r ∧ c = c ∧ 0 ≤ c)) as [|Hn]; [done|].
      apply piece_on_negative_col. lia.
    + rewrite (decide_False (P := r = row pos ∧ _))
        by (intros (? & ? & _); destruct pos; simplify_eq/=).
      destruct (decide (mkPosition r c ∈ cs)).
      * rewrite decide_True by (by right). done.
      * rewrite decide_False; [done|]. rewrite elem_of_cons. tauto.
Qed.

(** What every square holds after [makeMove], for a move whose origin
    holds the piece [p] and whose destination and captured squares are in
    rows of the board.  The last assignment to a square decides: the
    promotion, then the clearing of the captured squares and of the origin,
    then the placing of the piece. *)
Lemma makeMove_piece_on (b : Board) (m : Move) (p : Piece) :
  piece_on b (row (from m)) (col (from m)) = Some p →
  0 ≤ row (to m) < Z.of_nat (length b) → 0 ≤ col (to m) →
  Forall (λ pos, 0 ≤ row pos < Z.of_nat (length b)) (captured_squares m) →
  ∃ b', makeMove b m = Ok b' ∧ length b' = length b ∧
    ∀ r c, piece_on b' r c =
      if decide (mkPosition r c = to m) then
        if decide (far_rank p (row (to m))) then Some (promote p (row (to m)))
        else if decide (to m ∈ captured_squares m ∨ to m = from m) then None
        else Some p
      else if decide (mkPosition r c ∈ captured_squares m ∨ mkPosition r c = from m)
      then None
      else piece_on b r c.
Proof.
  intros Hp Hto Hcol Hcs.
  pose proof (piece_on_Some_range _ _ _ _ Hp) as [Hfrom Hfromc].
  unfold makeMove. rewrite copy_board_id, cell_in_range, Hp by done. simpl.
  destruct (set_cell_in_range b (row (to m)) (col (to m)) (Some p) Hto)
    as (b1 & -> & Hlen1 & Hread1). simpl.
  destruct (set_cell_in_range b1 (row (from m)) (col (from m)) None)
    as (b2 & -> & Hlen2 & Hread2); [by rewrite Hlen1|]. simpl.
  assert (∃ b3, match captured m with
                | Some cs => for_each cs (λ nb pos, set_cell nb (row pos) (col pos) None) b2
                | None => Ok b2
                end = Ok b3 ∧ length b3 = length b2
                ∧ ∀ r c, piece_on b3 r c
                    = if decide (mkPosition r c ∈ captured_squares m) then None
                      else piece_on b2 r c) as (b3 & -> & Hlen3 & Hread3).
  { unfold captured_squares in *. destruct (captured m) as [cs|].
    - apply clear_loop. by rewrite Hlen2, Hlen1.
    - exists b2. split; [done|]. split; [done|]. intros r c.
      rewrite decide_False; [done|]. apply not_elem_of_nil. }
  simpl.
  assert (Hbase : ∀ r c, piece_on b3 r c =
      if decide (mkPosition r c ∈ captured_squares m ∨ mkPosition r c = from m)
      then None
      else if decide (mkPosition r c = to m) then Some p else piece_on b r c).
  { intros r c. rewrite Hread3, Hread2, Hread1.
    destruct (decide (mkPosition r c ∈ captured_squares m)).
    { rewrite (decide_True (P := _ ∨ _)) by tauto. done. }
    destruct (decide (mkPosition r c = from m)) as [E|E].
    { rewrite (decide_True (P := _ ∨ _)) by tauto.
      destruct (decide (r = row (from m) ∧ c = col (from m) ∧ 0 ≤ col (from m)))
        as [|Hn]; [done|].
      exfalso. apply Hn. rewrite <- E. simpl. rewrite <- E in Hfromc. done. }
    rewrite (decide_False (P := _ ∨ _)) by tauto.
    destruct (decide (r = row (from m) ∧ c = col (from m) ∧ 0 ≤ col (from m)))
      as [(? & ? & _)|].
    { exfalso. apply E. destruct (from m); by simplify_eq/=. }
    destruct (decide (mkPosition r c = to m)) as [E'|E'].
    - destruct (decide (r = row (to m) ∧ c = col (to m) ∧ 0 ≤ col (to m)))
        as [|Hn]; [done|].
      exfalso. apply Hn. rewrite <- E'. simpl. rewrite <- E' in Hcol. done.
    - destruct (decide (r = row (to m) ∧ c = col (to m) ∧ 0 ≤ col (to m)))
        as [(? & ? & _)|]; [|done].
      exfalso. apply E'. destruct (to m); by simplify_eq/=. }
  assert (Hking : ∀ Q : Prop, Q →
    ∃ b', set_cell b3 (row (to m)) (col (to m)) (Some (mkPiece (type p) true)) = Ok b'
          ∧ length b' = length b
          ∧ ∀ r c, piece_on b' r c
              = if decide (mkPosition r c = to m) then Some (mkPiece (type p) true)
                else if decide (mkPosition r c ∈ captured_squares m ∨ mkPosition r c = from m)
                then None else piece_on b r c).
  { intros _ _.
    destruct (set_cell_in_range b3 (row (to m)) (col (to m))
                (Some (mkPiece (type p) true)))
      as (b4 & -> & Hlen4 & Hread4); [by rewrite Hlen3, Hlen2, Hlen1|].
    exists b4. split; [done|]. split; [congruence|]. intros r c.
    rewrite Hread4, Hbase.
    destruct (decide (mkPosition r c = to m)) as [E'|E'].
    - destruct (decide (r = row (to m) ∧ c = col (to m) ∧ 0 ≤ col (to m)))
        as [|Hn]; [done|].
      exfalso. apply Hn. rewrite <- E'. simpl. rewrite <- E' in Hcol. done.
    - destruct (decide (r = row (to m) ∧ c = col (to m) ∧ 0 ≤ col (to m)))
        as [(? & ? & _)|]; [|done].
      exfalso. apply E'. destruct (to m); by simplify_eq/=. }
  unfold promote, far_rank, BOARD_SIZE.
  destruct (decide (type p = white ∧ row (to m) = 0)) as [Hw|Hw].
  { destruct (Hking True I) as (b4 & -> & Hlen4 & Hread4).
    exists b4. split; [done|]. split; [done|]. intros r c. rewrite Hread4.
    rewrite !(decide_True (P := (type p = white ∧ _) ∨ _)) by tauto. done. }
  destruct (decide (type p = black ∧ row (to m) = 8 - 1)) as [Hk|Hk].
  { destruct (Hking True I) as (b4 & -> & Hlen4 & Hread4).
    exists b4. split; [done|]. split; [done|]. intros r c. rewrite Hread4.
    rewrite !(decide_True (P := (type p = white ∧ _) ∨ _))
      by (right; split; [tauto | lia]). done. }
  exists b3. split; [done|]. split; [congruence|]. intros r c. rewrite Hbase.
  rewrite !(decide_False (P := (type p = white ∧ _) ∨ _))
    by (intros [?|[? ?]]; [tauto | apply Hk; split; [done | lia]]).
  destruct (decide (mkPosition r c = to m)) as [E|E].
  - rewrite E. destruct (decide (to m ∈ captured_squares m ∨ to m = from m)); done.
  - done.
Qed.

(** When the origin is empty the board comes back as it was. *)
Lemma makeMove_empty_origin (b : Board) (m : Move) :
  cell b (row (from m)) (col (from m)) = Ok None → makeMove b m = Ok b.
Proof. intros H. unfold makeMove. rewrite copy_board_id, H. done. Qed.

(** An assignment inside the grid keeps the board an 8x8 grid. *)
Lemma set_cell_wf (b b' : Board) (r c : Z) (v : option Piece) :
  wf_board b → 0 ≤ c < 8 → set_cell b r c v = Ok b' → wf_board b'.
Proof.
  intros [Hlen Hrows] Hc H. unfold set_cell in H.
  apply bind_Ok in H as (cells & Hcells & [= <-]).
  apply row_of_Ok, index_Some in Hcells as [Hr Hcells].
  split; [by rewrite length_insert|].
  apply Forall_insert; [done|].
  pose proof (Forall_lookup_1 _ _ _ _ Hrows Hcells) as Hl. simpl in Hl.
  unfold set_index. destruct (Z.ltb_spec c 0); [lia|].
  destruct (Z.ltb_spec c (Z.of_nat (length cells))).
  - by rewrite length_insert.
  - unfold BOARD_SIZE in Hl. lia.
Qed.

Lemma clear_loop_wf (cs : list Position) (nb b' : Board) :
  wf_board nb → Forall on_board cs →
  for_each cs (λ nb pos, set_cell nb (row pos) (col pos) None) nb = Ok b' →
  wf_board b'.
Proof.
  intros Hwf Hcs. revert nb Hwf. induction Hcs as [|pos cs Hpos _ IH]; intros nb Hwf H.
  - by injection H as <-.
  - rewrite for_each_cons in H. apply bind_Ok in H as (nb1 & Hset & H).
    apply on_board_range in Hpos.
    eapply IH; [|done]. eapply set_cell_wf; [done| |done]. lia.
Qed.

(** [makeMove] keeps the board an 8x8 grid when the destination and the
    captured squares are squares of the grid. *)
Lemma makeMove_wf (b b' : Board) (m : Move) :
  wf_board b → on_board (to m) → Forall on_board (captured_squares m) →
  makeMove b m = Ok b' → wf_board b'.
Proof.
  intros Hwf Hto Hcs H. unfold makeMove in H. rewrite copy_board_id in H.
  apply bind_Ok in H as (piece & Hpiece & H).
  destruct piece as [p|]; [|by injection H as <-].
  apply cell_Ok in Hpiece as [_ Hp].
  pose proof (wf_board_piece_on _ _ _ _ Hwf Hp) as Hfrom.
  apply on_board_range in Hfrom. simpl in Hfrom. apply on_board_range in Hto.
  apply bind_Ok in H as (b1 & H1 & H).
  apply bind_Ok in H as (b2 & H2 & H).
  apply bind_Ok in H as (b3 & H3 & H).
  assert (wf_board b1) as Hwf1 by (eapply set_cell_wf; [done| |done]; lia).
  assert (wf_board b2) as Hwf2 by (eapply set_cell_wf; [done| |done]; lia).
  assert (wf_board b3) as Hwf3.
  { unfold captured_squares in Hcs. destruct (captured m) as [cs|].
    - by eapply clear_loop_wf.
    - by injection H3 as <-. }
  destruct (decide (type p = white ∧ row (to m) = 0)).
  { eapply set_cell_wf; [done| |done]. lia. }
  destruct (decide (type p = black ∧ row (to m) = BOARD_SIZE - 1)).
  { eapply set_cell_wf; [done| |done]. lia. }
  by injection H as <-.
Qed.

(** The squares of a move of the generator. *)
Lemma move_from_squares (pos : Position) (m : Move) :
  move_from pos m →
  on_board (to m) ∧ Forall on_board (captured_squares m)
  ∧ to m ≠ from m ∧ (to m ∉ captured_squares m)
  ∧ (row (to m) + col (to m)) `mod` 2 = (row pos + col pos) `mod` 2.
Proof.
  intros (Hfrom & Hto & dRow & dCol & HdR & HdC & Hshape).
  split; [done|]. unfold captured_squares.
  destruct Hshape as [[Eto ->]|(Eto & -> & Hmid)]; simpl.
  - split; [done|]. rewrite Hfrom, Eto. split.
    { destruct pos as [r c]. intros [= ? ?]. lia. }
    split; [apply not_elem_of_nil|]. simpl.
    destruct HdR as [-> | ->], HdC as [-> | ->]; Z.div_mod_to_equations; lia.
  - split; [by apply Forall_singleton|]. rewrite Hfrom, Eto. split.
    { destruct pos as [r c]. intros [= ? ?]. lia. }
    split.
    { rewrite list_elem_of_singleton. intros [= ? ?]. lia. }
    simpl.
    destruct HdR as [-> | ->], HdC as [-> | ->]; Z.div_mod_to_equations; lia.
Qed.

(** [makeMove] returns for a move of the generator; the rows of the grid
    still exist and the squares are as [makeMove_piece_on] says, which for
    such a move reads: the piece, promoted if need be, on the destination;
    the origin and the captured squares empty; the rest as before. *)
Lemma makeMove_moved_by (b : Board) (side : PieceType) (m : Move) :
  has_rows b → moved_by b side m →
  ∃ p b', piece_on b (row (from m)) (col (from m)) = Some p ∧ type p = side
    ∧ makeMove b m = Ok b' ∧ length b' = length b
    ∧ ∀ r c, piece_on b' r c =
        if decide (mkPosition r c = to m) then Some (promote p (row (to m)))
        else if decide (mkPosition r c ∈ captured_squares m ∨ mkPosition r c = from m)
        then None
        else piece_on b r c.
Proof.
  intros Hb [Hside Hshape].
  destruct (piece_on b (row (from m)) (col (from m))) as [p|] eqn:Hp; [|done].
  injection Hside as Hside.
  destruct (move_from_squares _ _ Hshape) as (Hto & Hcs & Hne & Hnin & _).
  apply on_board_range in Hto.
  destruct (makeMove_piece_on b m p Hp) as (b' & Hmk & Hlen & Hread).
  { apply has_rows_range; [done | lia]. }
  { lia. }
  { eapply Forall_impl; [exact Hcs|]. intros pos Hpos. apply on_board_range in Hpos.
    apply has_rows_range; [done | lia]. }
  exists p, b'. split; [done|]. split; [done|]. split; [done|]. split; [done|].
  intros r c. rewrite Hread. destruct (decide (mkPosition r c = to m)); [|done].
  rewrite (decide_False (P := _ ∨ _)) by tauto.
  unfold promote. by destruct (decide (far_rank p (row (to m)))).
Qed.

Lemma makeMove_has_rows (b : Board) (side : PieceType) (m : Move) :
  has_rows b → moved_by b side m → ∃ b', makeMove b m = Ok b' ∧ has_rows b'.
Proof.
  intros Hb Hm. destruct (makeMove_moved_by b side m Hb Hm)
    as (p & b' & _ & _ & Hmk & Hlen & _).
  exists b'. split; [done|]. unfold has_rows in *. by rewrite Hlen.
Qed.

(** C4.  On a board of the data model, for a move whose destination and
    captured squares are squares of the grid and whose origin holds a
    piece [p]: [makeMove] returns a board; when [p] is not a king and the
    destination is on its far rank (row 0 for white, row 7 for black) the
    destination holds [p] made a king; when [p] is a king already, or the
    destination is not on its far rank, a piece on the destination is [p]
    itself, king flag included, and [p] does stand there when the
    destination is neither the origin nor a captured square. *)
Theorem makeMove_promotion (b : Board) (m : Move) (p : Piece) :
  wf_board b → on_board (to m) → Forall on_board (captured_squares m) →
  cell b (row (from m)) (col (from m)) = Ok (Some p) →
  ∃ b', makeMove b m = Ok b'
    ∧ (isKing p = false ∧ far_rank p (row (to m)) →
       cell b' (row (to m)) (col (to m)) = Ok (Some (mkPiece (type p) true)))
    ∧ (isKing p = true ∨ ¬ far_rank p (row (to m)) →
       (∀ q, cell b' (row (to m)) (col (to m)) = Ok (Some q) → q = p)
       ∧ (to m ≠ from m → to m ∉ captured_squares m →
          cell b' (row (to m)) (col (to m)) = Ok (Some p))).
Proof.
  intros Hwf Hto Hcs Hp. apply cell_Ok in Hp as [Hfrom Hp].
  pose proof (wf_board_has_rows _ Hwf) as Hb.
  apply on_board_range in Hto.
  destruct (makeMove_piece_on b m p Hp) as (b' & Hmk & Hlen & Hread).
  { apply has_rows_range; [done | lia]. }
  { lia. }
  { eapply Forall_impl; [exact Hcs|]. intros pos Hpos. apply on_board_range in Hpos.
    apply has_rows_range; [done | lia]. }
  exists b'. split; [done|].
  assert (Hcell : cell b' (row (to m)) (col (to m))
                  = Ok (if decide (far_rank p (row (to m)))
                        then Some (promote p (row (to m)))
                        else if decide (to m ∈ captured_squares m ∨ to m = from m)
                             then None else Some p)).
  { rewrite cell_in_range by (rewrite Hlen; apply has_rows_range; [done | lia]).
    rewrite Hread. rewrite decide_True by (by destruct (to m)). done. }
  rewrite Hcell. unfold promote. split.
  - intros [_ Hfar]. by rewrite !decide_True.
  - intros Hkeep. destruct (decide (far_rank p (row (to m)))) as [Hfar|Hfar].
    + destruct Hkeep as [Hk|]; [|done].
      assert (mkPiece (type p) true = p) as -> by (destruct p; simpl in *; congruence).
      split; [congruence | done].
    + split.
      * intros q. case_decide; congruence.
      * intros ? ?. rewrite decide_False by tauto. done.
Qed.

Lemma makeMove_promotion_witness :
  ∃ b', makeMove crowning_board crowning_move = Ok b'
    ∧ (isKing (mkPiece white false) = false
       ∧ far_rank (mkPiece white false) (row (to crowning_move)) →
       cell b' (row (to crowning_move)) (col (to crowning_move))
       = Ok (Some (mkPiece (type (mkPiece white false)) true)))
    ∧ (isKing (mkPiece white false) = true
       ∨ ¬ far_rank (mkPiece white false) (row (to crowning_move)) →
       (∀ q, cell b' (row (to crowning_move)) (col (to crowning_move)) = Ok (Some q)
             → q = mkPiece white false)
       ∧ (to crowning_move ≠ from crowning_move →
          to crowning_move ∉ captured_squares crowning_move →
          cell b' (row (to crowning_move)) (col (to crowning_move))
          = Ok (Some (mkPiece white false)))).
Proof.
  apply (makeMove_promotion crowning_board crowning_move (mkPiece white false)).
  - split; [reflexivity | repeat constructor].
  - reflexivity.
  - constructor.
  - reflexivity.
Defined.

(** The white piece of [crowning_board] is a king after its move. *)
Example makeMove_crowning :
  makeMove crowning_board crowning_move
  = Ok (<[0%nat := [e_; Some (mkPiece white true); e_; e_; e_; e_; e_; e_]]> empty_board).
Proof. vm_compute. reflexivity. Qed.

(** ** Dark squares *)

(** On a board of the data model the pieces are on dark squares as soon as
    those of the 64 squares are, which is decided by looking at them. *)
Lemma dark_only_squares (b : Board) :
  wf_board b →
  Forall (λ pos, piece_on b (row pos) (col pos) = None ∨ dark (row pos) (col pos)) squares →
  dark_only b.
Proof.
  intros Hwf Hall r c p Hp. apply cell_Ok in Hp as [_ Hp].
  pose proof (wf_board_piece_on _ _ _ _ Hwf Hp) as Hon.
  apply elem_of_squares in Hon. rewrite Forall_forall in Hall.
  destruct (Hall _ Hon) as [E|E]; simpl in E; [congruence | done].
Qed.

Lemma dark_only_initial_board : dark_only initial_board.
Proof.
  apply dark_only_squares; [apply wf_initial_board|].
  apply (bool_decide_unpack _). vm_compute. exact I.
Qed.

Lemma createInitialBoard_value : createInitialBoard = Ok initial_board.
Proof. vm_compute. reflexivity. Qed.

(** A move of either generator function, on a board with the rows of the
    grid, is the move of a piece of the board. *)
Lemma generator_moved_by (b : Board) (m : Move) :
  has_rows b →
  (∃ pos ms, getValidMoves b pos = Ok ms ∧ m ∈ ms)
  ∨ (∃ side ms, getAllValidMoves b side = Ok ms ∧ m ∈ ms) →
  ∃ side, moved_by b side m.
Proof.
  intros Hb [(pos & ms & Hms & Hm)|(side & ms & Hms & Hm)].
  - by eapply getValidMoves_moved_by.
  - destruct (getAllValidMoves_total b side Hb) as (ms' & Hms' & Hall).
    rewrite Hms in Hms'. injection Hms' as <-.
    rewrite Forall_forall in Hall. eauto.
Qed.

(** C8.  On every 8x8 board whose pieces all stand on dark squares
    (row + column odd), [makeMove] applied to a move of [getValidMoves] or
    of [getAllValidMoves] for that board returns an 8x8 board whose pieces
    all stand on dark squares; and the starting position is such a board,
    so that the light squares are empty there and stay empty. *)
Theorem dark_squares_invariant (b : Board) (m : Move) :
  wf_board b → dark_only b →
  (∃ pos ms, getValidMoves b pos = Ok ms ∧ m ∈ ms)
  ∨ (∃ side ms, getAllValidMoves b side = Ok ms ∧ m ∈ ms) →
  (∃ b', makeMove b m = Ok b' ∧ wf_board b' ∧ dark_only b')
  ∧ (createInitialBoard = Ok initial_board
     ∧ wf_board initial_board ∧ dark_only initial_board).
Proof.
  intros Hwf Hdark Hgen. split.
  2:{ split; [apply createInitialBoard_value|].
      split; [apply wf_initial_board | apply dark_only_initial_board]. }
  pose proof (wf_board_has_rows _ Hwf) as Hb.
  destruct (generator_moved_by b m Hb Hgen) as (side & Hm).
  destruct (makeMove_moved_by b side m Hb Hm)
    as (p & b' & Hp & _ & Hmk & Hlen & Hread).
  destruct Hm as [_ Hshape].
  destruct (move_from_squares _ _ Hshape) as (Hto & Hcs & _ & _ & Hparity).
  exists b'. split; [done|]. split; [by eapply makeMove_wf|].
  intros r c q Hq. apply cell_Ok in Hq as [Hr Hq]. rewrite Hread in Hq.
  destruct (decide (mkPosition r c = to m)) as [E|E].
  - assert (dark (row (from m)) (col (from m))) as Hd.
    { apply (Hdark _ _ p). apply cell_Ok. split; [|done].
      by apply piece_on_Some_range in Hp as [? _]. }
    unfold dark in *. rewrite <- E in Hparity. simpl in Hparity. congruence.
  - case_decide; [done|]. apply (Hdark r c q). apply cell_Ok.
    split; [by rewrite <- Hlen | done].
Qed.

Lemma dark_squares_invariant_witness :
  (∃ b', makeMove initial_board opening_move = Ok b' ∧ wf_board b' ∧ dark_only b')
  ∧ (createInitialBoard = Ok initial_board
     ∧ wf_board initial_board ∧ dark_only initial_board).
Proof.
  apply (dark_squares_invariant initial_board opening_move).
  - split; [reflexivity | repeat constructor].
  - apply dark_only_initial_board.
  - right. exists black. eexists. split; [vm_compute; reflexivity|]. left.
Defined.


(** ** createInitialBoard *)

Lemma elem_of_occupied (b : Board) (r c : Z) (p : Piece) :
  wf_board b → cell b r c = Ok (Some p) → (mkPosition r c, p) ∈ occupied b.
Proof.
  intros Hwf Hp. apply cell_Ok in Hp as [_ Hp].
  pose proof (wf_board_piece_on _ _ _ _ Hwf Hp) as Hon.
  apply elem_of_squares in Hon. unfold occupied.
  apply list_elem_of_omap. exists (mkPosition r c). split; [done|].
  simpl. by rewrite Hp.
Qed.

(** C6.  [createInitialBoard] returns an 8x8 board with exactly 12 black
    and exactly 12 white pieces; every piece is not a king, stands on a
    square where row + column is odd, and is black on rows 0 to 2 or white
    on rows 5 to 7; rows 3 and 4 are empty. *)
Theorem createInitialBoard_layout :
  ∃ b, createInitialBoard = Ok b ∧ wf_board b
    ∧ length (pieces_of b black) = 12%nat
    ∧ length (pieces_of b white) = 12%nat
    ∧ length (occupied b) = 24%nat
    ∧ (∀ r c p, cell b r c = Ok (Some p) →
         isKing p = false ∧ dark r c
         ∧ ((type p = black ∧ 0 ≤ r ≤ 2) ∨ (type p = white ∧ 5 ≤ r ≤ 7)))
    ∧ (∀ c, cell b 3 c = Ok None ∧ cell b 4 c = Ok None).
Proof.
  exists initial_board. split; [apply createInitialBoard_value|].
  split; [apply wf_initial_board|].
  split; [vm_compute; reflexivity|]. split; [vm_compute; reflexivity|].
  split; [vm_compute; reflexivity|].
  assert (Hall : ∀ r c p, cell initial_board r c = Ok (Some p) →
            isKing p = false ∧ dark r c
            ∧ ((type p = black ∧ 0 ≤ r ≤ 2) ∨ (type p = white ∧ 5 ≤ r ≤ 7))).
  { intros r c p Hp. apply (elem_of_occupied _ _ _ _ wf_initial_board) in Hp.
    assert (Forall (λ x : Position * Piece,
              isKing x.2 = false ∧ dark (row x.1) (col x.1)
              ∧ ((type x.2 = black ∧ 0 ≤ row x.1 ≤ 2)
                 ∨ (type x.2 = white ∧ 5 ≤ row x.1 ≤ 7)))
             (occupied initial_board)) as Hocc.
    { apply (bool_decide_unpack _). vm_compute. exact I. }
    rewrite Forall_forall in Hocc. apply (Hocc _ Hp). }
  split; [exact Hall|].
  intros c. split.
  - destruct (cell initial_board 3 c) as [[p|]|] eqn:E; [|done|].
    + apply Hall in E. lia.
    + rewrite cell_in_range in E by (simpl; lia). done.
  - destruct (cell initial_board 4 c) as [[p|]|] eqn:E; [|done|].
    + apply Hall in E. lia.
    + rewrite cell_in_range in E by (simpl; lia). done.
Qed.

(** ** checkWinner *)

Lemma count_loop (b : Board) (sqs : list Position) (w k : Z) :
  has_rows b → Forall on_board sqs →
  for_each sqs (λ '(whiteCount, blackCount) p,
      piece ← cell b (row p) (col p);
      let whiteCount :=
        if decide (type_of piece = Some white) then whiteCount + 1 else whiteCount in
      let blackCount :=
        if decide (type_of piece = Some black) then blackCount + 1 else blackCount in
      Ok (whiteCount, blackCount)) (w, k)
  = Ok (w + Z.of_nat (length (filter
               (λ p, type_of (piece_on b (row p) (col p)) = Some white) sqs)),
        k + Z.of_nat (length (filter
               (λ p, type_of (piece_on b (row p) (col p)) = Some black) sqs))).
Proof.
  intros Hb Hsqs. revert w k. induction Hsqs as [|p sqs Hp _ IH]; intros w k.
  - simpl. f_equal. f_equal; lia.
  - rewrite for_each_cons. apply on_board_range in Hp.
    rewrite cell_in_range by (apply has_rows_range; [done | lia]). simpl.
    rewrite IH.
    destruct (decide (type_of (piece_on b (row p) (col p)) = Some white)) as [Ew|Ew];
      [rewrite (filter_cons_True
                  (λ p, type_of (piece_on b (row p) (col p)) = Some white)) by done
      |rewrite (filter_cons_False
                  (λ p, type_of (piece_on b (row p) (col p)) = Some white)) by done];
      (destruct (decide (type_of (piece_on b (row p) (col p)) = Some black)) as [Ek|Ek];
       [rewrite (filter_cons_True
                   (λ p, type_of (piece_on b (row p) (col p)) = Some black)) by done
       |rewrite (filter_cons_False
                   (λ p, type_of (piece_on b (row p) (col p)) = Some black)) by done]);
      simpl length; f_equal; f_equal; lia.
Qed.

(** The counting loops of [checkWinner] count the pieces of each side. *)
Lemma count_pieces_total (b : Board) :
  has_rows b →
  count_pieces b = Ok (Z.of_nat (length (pieces_of b white)),
                       Z.of_nat (length (pieces_of b black))).
Proof.
  intros Hb. unfold count_pieces.
  rewrite (for_each_squares (λ r '(whiteCount, blackCount) c,
      piece ← cell b r c;
      let whiteCount :=
        if decide (type_of piece = Some white) then whiteCount + 1 else whiteCount in
      let blackCount :=
        if decide (type_of piece = Some black) then blackCount + 1 else blackCount in
      Ok (whiteCount, blackCount))).
  etrans; [|exact (count_loop b squares 0 0 Hb squares_on_board)].
  apply for_each_ext. by intros [w k] p.
Qed.

(** Without the rows of the grid the counting loops throw, and
    [checkWinner] with them. *)
Lemma checkWinner_throws (b : Board) : ¬ has_rows b → checkWinner b = TypeError.
Proof.
  intros Hb. unfold checkWinner, count_pieces.
  rewrite (for_each_squares (λ r '(whiteCount, blackCount) c,
      piece ← cell b r c;
      let whiteCount :=
        if decide (type_of piece = Some white) then whiteCount + 1 else whiteCount in
      let blackCount :=
        if decide (type_of piece = Some black) then blackCount + 1 else blackCount in
      Ok (whiteCount, blackCount))).
  rewrite (for_each_throws squares _ _ (mkPosition (Z.of_nat (length b)) 0)); [done| |].
  - apply elem_of_squares, on_board_range. simpl.
    unfold has_rows, BOARD_SIZE in Hb. lia.
  - intros [w k]. simpl. rewrite cell_out_of_range by lia. done.
Qed.

(** [checkWinner] as a function of the two counts and of the two sets of
    moves. *)
Lemma checkWinner_total (b : Board) :
  has_rows b →
  ∃ wm bm,
    getAllValidMoves b white = Ok wm ∧ getAllValidMoves b black = Ok bm
    ∧ checkWinner b = Ok (
        if decide (length (pieces_of b white) = 0%nat) then black
        else if decide (length (pieces_of b black) = 0%nat) then white
        else if decide (wm = [] ∧ bm ≠ []) then black
        else if decide (bm = [] ∧ wm ≠ []) then white
        else null).
Proof.
  intros Hb.
  destruct (getAllValidMoves_total b white Hb) as (wm & Hwm & _).
  destruct (getAllValidMoves_total b black Hb) as (bm & Hbm & _).
  exists wm, bm. split; [done|]. split; [done|].
  unfold checkWinner. rewrite count_pieces_total by done. simpl.
  destruct (decide (length (pieces_of b white) = 0%nat)) as [Ew|Ew].
  { rewrite decide_True by lia. done. }
  rewrite decide_False by lia.
  destruct (decide (length (pieces_of b black) = 0%nat)) as [Ek|Ek].
  { rewrite decide_True by lia. done. }
  rewrite decide_False by lia.
  rewrite Hwm, Hbm. simpl.
  destruct wm as [|m1 wm], bm as [|m2 bm]; simpl; done.
Qed.

(** C5.  On a board of the data model [checkWinner] returns: when a side
    has no piece, the other side of a side without pieces; otherwise, when
    one side has no move of [getAllValidMoves] and the other has one, the
    side with moves; otherwise [null].  The board is its only argument. *)
Theorem checkWinner_spec (b : Board) :
  wf_board b →
  ∃ whiteMoves blackMoves winner,
    getAllValidMoves b white = Ok whiteMoves
    ∧ getAllValidMoves b black = Ok blackMoves
    ∧ checkWinner b = Ok winner
    ∧ (length (pieces_of b white) = 0%nat ∨ length (pieces_of b black) = 0%nat →
       (length (pieces_of b white) = 0%nat ∧ winner = black)
       ∨ (length (pieces_of b black) = 0%nat ∧ winner = white))
    ∧ (length (pieces_of b white) ≠ 0%nat ∧ length (pieces_of b black) ≠ 0%nat →
       (whiteMoves = [] ∧ blackMoves ≠ [] → winner = black)
       ∧ (blackMoves = [] ∧ whiteMoves ≠ [] → winner = white)
       ∧ (¬ (whiteMoves = [] ∧ blackMoves ≠ []) →
          ¬ (blackMoves = [] ∧ whiteMoves ≠ []) → winner = null)).
Proof.
  intros Hwf. apply wf_board_has_rows in Hwf.
  destruct (checkWinner_total b Hwf) as (wm & bm & Hwm & Hbm & Hw).
  eexists wm, bm, _. split; [done|]. split; [done|]. split; [exact Hw|].
  split.
  - intros Hzero. destruct (decide (length (pieces_of b white) = 0%nat)); [by left|].
    destruct Hzero as [?|Hk]; [done|]. rewrite decide_True by done. by right.
  - intros [Hw0 Hk0]. rewrite !decide_False by done.
    split; [|split].
    + intros H. by rewrite decide_True.
    + intros H. rewrite decide_False by (intros [-> _]; tauto).
      by rewrite decide_True.
    + intros H1 H2. by rewrite !decide_False.
Qed.

Lemma checkWinner_spec_witness :
  ∃ whiteMoves blackMoves winner,
    getAllValidMoves capture_board white = Ok whiteMoves
    ∧ getAllValidMoves capture_board black = Ok blackMoves
    ∧ checkWinner capture_board = Ok winner
    ∧ (length (pieces_of capture_board white) = 0%nat
       ∨ length (pieces_of capture_board black) = 0%nat →
       (length (pieces_of capture_board white) = 0%nat ∧ winner = black)
       ∨ (length (pieces_of capture_board black) = 0%nat ∧ winner = white))
    ∧ (length (pieces_of capture_board white) ≠ 0%nat
       ∧ length (pieces_of capture_board black) ≠ 0%nat →
       (whiteMoves = [] ∧ blackMoves ≠ [] → winner = black)
       ∧ (blackMoves = [] ∧ whiteMoves ≠ [] → winner = white)
       ∧ (¬ (whiteMoves = [] ∧ blackMoves ≠ []) →
          ¬ (blackMoves = [] ∧ whiteMoves ≠ []) → winner = null)).
Proof.
  apply (checkWinner_spec capture_board).
  split; [reflexivity | repeat constructor].
Defined.

(** No winner at the start; black wins when white has no piece left;
    black wins when white has pieces and no move. *)
Example checkWinner_examples :
  checkWinner initial_board = Ok null
  ∧ checkWinner crowning_board = Ok white
  ∧ checkWinner (<[0%nat := [e_; wp; e_; e_; e_; e_; e_; e_]]>
                   (<[3%nat := [e_; e_; bp; e_; e_; e_; e_; e_]]> empty_board))
    = Ok black.
Proof. repeat split; vm_compute; reflexivity. Qed.

(** C10.  On a board of the data model on which neither side has a piece,
    [checkWinner] returns black: the test of the white count comes
    first. *)
Theorem checkWinner_no_pieces (b : Board) :
  wf_board b →
  length (pieces_of b white) = 0%nat → length (pieces_of b black) = 0%nat →
  checkWinner b = Ok black.
Proof.
  intros Hwf Hw _. apply wf_board_has_rows in Hwf.
  destruct (checkWinner_total b Hwf) as (wm & bm & _ & _ & ->).
  by rewrite decide_True.
Qed.

Lemma checkWinner_no_pieces_witness : checkWinner empty_board = Ok black.
Proof.
  apply (checkWinner_no_pieces empty_board).
  - split; [reflexivity | repeat constructor].
  - reflexivity.
  - reflexivity.
Defined.

(** ** evaluateBoard *)

Lemma evaluateBoard_total (b : Board) :
  has_rows b → ∃ score, evaluateBoard b = Ok score.
Proof.
  intros Hb. unfold evaluateBoard.
  rewrite (for_each_squares (λ r score c,
      piece ← cell b r c;
      match piece with
      | Some piece =>
          let pieceValue := if isKing piece then 15 else 10 in
          let positionBonus :=
            if isKing piece then 0
            else if decide (type piece = black) then r
            else BOARD_SIZE - 1 - r in
          if decide (type piece = black) then Ok (score + (pieceValue + positionBonus))
          else Ok (score - (pieceValue + positionBonus))
      | None => Ok score
      end)).
  destruct (for_each_invariant (λ _ : Z, True) squares
              (λ acc p, piece ← cell b (row p) (col p);
                 match piece with
                 | Some piece =>
                     let pieceValue := if isKing piece then 15 else 10 in
                     let positionBonus :=
                       if isKing piece then 0
                       else if decide (type piece = black) then row p
                       else BOARD_SIZE - 1 - row p in
                     if decide (type piece = black)
                     then Ok (acc + (pieceValue + positionBonus))
                     else Ok (acc - (pieceValue + positionBonus))
                 | None => Ok acc
                 end) 0) as (score & Hscore & _).
  - done.
  - intros s p Hp _. apply elem_of_squares, on_board_range in Hp.
    rewrite cell_in_range by (apply has_rows_range; [done | lia]). simpl.
    destruct (piece_on b (row p) (col p)) as [piece|]; [|eauto].
    simpl. case_decide; eauto.
  - exists score. exact Hscore.
Qed.


(** ** The order of the scores *)

(** Case analysis on every score in sight, then linear arithmetic. *)
Ltac num_order :=
  intros;
  repeat match goal with x : number |- _ => destruct x end;
  unfold bounded_by, num_lt, num_max, num_min, num_le in *; simpl in *;
  repeat case_bool_decide; simpl in *;
  try done;
  try (intuition (simplify_eq/=; try done; try lia; try (f_equal; lia))).

Lemma num_le_refl (a : number) : num_le a a = true.
Proof. num_order. Qed.

Lemma num_le_trans (a b c : number) :
  num_le a b = true → num_le b c = true → num_le a c = true.
Proof. num_order. Qed.

Lemma num_lt_le_trans (a b c : number) :
  num_lt a b = true → num_le b c = true → num_lt a c = true.
Proof. num_order. Qed.

Lemma num_le_lt_trans (a b c : number) :
  num_le a b = true → num_lt b c = true → num_lt a c = true.
Proof. num_order. Qed.

Lemma num_lt_le (a b : number) : num_lt a b = true → num_le a b = true.
Proof. num_order. Qed.

Lemma num_le_max_l (a b : number) : num_le a (num_max a b) = true.
Proof. num_order. Qed.

Lemma num_le_max_r (a b : number) : num_le b (num_max a b) = true.
Proof. num_order. Qed.

Lemma num_max_lub (a b c : number) :
  num_le a c = true → num_le b c = true → num_le (num_max a b) c = true.
Proof. num_order. Qed.

Lemma num_max_assoc (a b c : number) :
  num_max a (num_max b c) = num_max (num_max a b) c.
Proof. num_order. Qed.

Lemma num_max_mono (a b c d : number) :
  num_le a b = true → num_le c d = true → num_le (num_max a c) (num_max b d) = true.
Proof. num_order. Qed.

Lemma num_le_min_l (a b : number) : num_le (num_min a b) a = true.
Proof. num_order. Qed.

Lemma num_le_min_r (a b : number) : num_le (num_min a b) b = true.
Proof. num_order. Qed.

Lemma num_min_glb (a b c : number) :
  num_le c a = true → num_le c b = true → num_le c (num_min a b) = true.
Proof. num_order. Qed.

Lemma num_min_assoc (a b c : number) :
  num_min a (num_min b c) = num_min (num_min a b) c.
Proof. num_order. Qed.

Lemma num_min_mono (a b c d : number) :
  num_le a b = true → num_le c d = true → num_le (num_min a c) (num_min b d) = true.
Proof. num_order. Qed.

(** ** Windows *)

(** A result beyond the upper bound that is a lower bound of the value,
    and a result beyond the lower bound that is an upper bound. *)
Lemma bounded_by_high (α β r v : number) :
  num_lt α β = true → num_le β r = true → num_le r v = true → bounded_by α β r v.
Proof. num_order. Qed.

Lemma bounded_by_low (α β r v : number) :
  num_lt α β = true → num_le r α = true → num_le v r = true → bounded_by α β r v.
Proof. num_order. Qed.

(** With the full window the result is the value. *)
Lemma bounded_by_full (r v : number) : bounded_by NegInfinity Infinity r v → r = v.
Proof. num_order. Qed.

(** A child of a maximizing node that cuts the loop. *)
Lemma child_cuts_max (a β rx vx : number) :
  num_lt a β = true → bounded_by a β rx vx → num_le β (num_max a rx) = true →
  num_le β rx = true ∧ num_le rx vx = true.
Proof. num_order. Qed.

(** A child of a maximizing node that does not. *)
Lemma child_passes_max (a β rx vx : number) :
  num_lt a β = true → bounded_by a β rx vx → num_le β (num_max a rx) = false →
  num_le vx rx = true ∧ num_max a vx = num_max a rx.
Proof. num_order. Qed.

Lemma child_cuts_min (α k rx vx : number) :
  num_lt α k = true → bounded_by α k rx vx → num_le (num_min k rx) α = true →
  num_le rx α = true ∧ num_le vx rx = true.
Proof. num_order. Qed.

Lemma child_passes_min (α k rx vx : number) :
  num_lt α k = true → bounded_by α k rx vx → num_le (num_min k rx) α = false →
  num_le rx vx = true ∧ num_min k vx = num_min k rx.
Proof. num_order. Qed.

(** The end of the loop of a maximizing node: [R] is the maximum of the
    results, [M] that of the values, [num_max α R] the current [alpha]. *)
Lemma max_loop_end (α β R M : number) :
  num_max α M = num_max α R → num_le M R = true → num_lt (num_max α R) β = true →
  bounded_by α β R M.
Proof. num_order. Qed.

Lemma min_loop_end (α β R M : number) :
  num_min β M = num_min β R → num_le R M = true → num_lt α (num_min β R) = true →
  bounded_by α β R M.
Proof. num_order. Qed.

Lemma bounded_by_refl (α β v : number) : num_lt α β = true → bounded_by α β v v.
Proof. num_order. Qed.

Lemma num_max_NegInfinity_r (a : number) : num_max a NegInfinity = a.
Proof. num_order. Qed.

Lemma num_max_NegInfinity_l (a : number) : num_max NegInfinity a = a.
Proof. num_order. Qed.

Lemma num_min_Infinity_r (a : number) : num_min a Infinity = a.
Proof. num_order. Qed.

Lemma num_min_Infinity_l (a : number) : num_min Infinity a = a.
Proof. num_order. Qed.

(** ** minimax *)

Lemma minimax_unfold (b : Board) (d : nat) (α β : number) (mx : bool) :
  minimax b d α β mx =
  (winner ← checkWinner b;
   if decide (winner = black) then Ok (Int 1000)
   else if decide (winner = white) then Ok (Int (-1000))
   else
     match d with
     | O => Int <$> evaluateBoard b
     | S d' =>
         moves ← getAllValidMoves b (if mx then black else white);
         if decide (length moves = 0%nat) then
           Ok (if mx then Int (-1000) else Int 1000)
         else if mx then
           fst <$> for_each_break moves
             (max_step (λ nb a k, minimax nb d' a k false) b β) (NegInfinity, α)
         else
           fst <$> for_each_break moves
             (min_step (λ nb a k, minimax nb d' a k true) b α) (Infinity, β)
     end).
Proof. destruct d; reflexivity. Qed.

Lemma minimax_exhaustive_unfold (b : Board) (d : nat) (mx : bool) :
  minimax_exhaustive b d mx =
  (winner ← checkWinner b;
   if decide (winner = black) then Ok (Int 1000)
   else if decide (winner = white) then Ok (Int (-1000))
   else
     match d with
     | O => Int <$> evaluateBoard b
     | S d' =>
         moves ← getAllValidMoves b (if mx then black else white);
         if decide (length moves = 0%nat) then
           Ok (if mx then Int (-1000) else Int 1000)
         else
           scores ← mapM (λ move,
             nb ← makeMove b move; minimax_exhaustive nb d' (negb mx)) moves;
           Ok (if mx then foldr num_max NegInfinity scores
               else foldr num_min Infinity scores)
     end).
Proof. destruct d; reflexivity. Qed.

Section Loops.
Variable search : list (list (option Piece)) → number → number → result number.
Variable value : list (list (option Piece)) → result number.
Variable b : list (list (option Piece)).

Lemma children_values (ms : list Move) :
  children_ok search value b ms → ∃ vs, mapM (λ m, nb ← makeMove b m; value nb) ms = Ok vs.
Proof.
  induction ms as [|m ms IH]; intros Hms; [by exists []|].
  destruct (Hms m) as (nb & v & Hmk & Hv & _); [left|].
  destruct IH as (vs & Hvs); [intros m' Hm'; apply Hms; by right|].
  exists (v :: vs). simpl. rewrite Hmk. simpl. rewrite Hv. simpl. rewrite Hvs. done.
Qed.

(** The loop of a maximizing node, from a state [(R, num_max α R)] reached
    without a cut: [R] is the maximum of the results so far and [M] that
    of the values. *)
Lemma max_loop (α β : number) (ms : list Move) (R M : number) :
  children_ok search value b ms →
  num_max α M = num_max α R → num_le M R = true → num_lt (num_max α R) β = true →
  ∃ r a vs,
    for_each_break ms (max_step search b β) (R, num_max α R) = Ok (r, a)
    ∧ mapM (λ m, nb ← makeMove b m; value nb) ms = Ok vs
    ∧ bounded_by α β r (num_max M (foldr num_max NegInfinity vs)).
Proof.
  revert R M. induction ms as [|m ms IH]; intros R M Hms Heq Hle Hlt.
  - exists R, (num_max α R), []. split; [done|]. split; [done|]. simpl.
    rewrite num_max_NegInfinity_r. by apply max_loop_end.
  - destruct (Hms m) as (nb & vx & Hmk & Hv & Hsearch); [left|].
    destruct (Hsearch (num_max α R) β Hlt) as (rx & Hrx & Hbound).
    assert (children_ok search value b ms) as Hms' by (intros m' Hm'; apply Hms; by right).
    destruct (children_values ms Hms') as (vs & Hvs).
    assert (for_each_break (m :: ms) (max_step search b β) (R, num_max α R)
            = if num_le β (num_max (num_max α R) rx)
              then Ok (num_max R rx, num_max (num_max α R) rx)
              else for_each_break ms (max_step search b β)
                     (num_max R rx, num_max (num_max α R) rx)) as ->.
    { simpl. unfold max_step at 1. rewrite Hmk. simpl. rewrite Hrx. done. }
    assert (mapM (λ m, nb ← makeMove b m; value nb) (m :: ms)
            = (vs ← mapM (λ m, nb ← makeMove b m; value nb) ms; Ok (vx :: vs))) as ->.
    { simpl. rewrite Hmk. simpl. rewrite Hv. done. }
    destruct (num_le β (num_max (num_max α R) rx)) eqn:Hcut.
    + destruct (child_cuts_max _ _ _ _ Hlt Hbound Hcut) as [Hβ Hrv].
      exists (num_max R rx), (num_max (num_max α R) rx), (vx :: vs).
      split; [done|]. rewrite Hvs. split; [done|]. simpl.
      apply bounded_by_high.
      * eapply num_le_lt_trans; [apply num_le_max_l | exact Hlt].
      * eapply num_le_trans; [exact Hβ | apply num_le_max_r].
      * assert (num_le vx (num_max M (num_max vx (foldr num_max NegInfinity vs))) = true)
          as Hvx.
        { eapply num_le_trans; [apply num_le_max_l | apply num_le_max_r]. }
        apply num_max_lub.
        -- eapply num_le_trans; [|exact Hvx].
           eapply num_le_trans; [|exact Hrv].
           eapply num_le_trans; [|exact Hβ].
           apply num_lt_le. eapply num_le_lt_trans; [apply num_le_max_r | exact Hlt].
        -- eapply num_le_trans; [exact Hrv | exact Hvx].
    + destruct (child_passes_max _ _ _ _ Hlt Hbound Hcut) as [Hvr Hsame].
      rewrite <- num_max_assoc.
      destruct (IH (num_max R rx) (num_max M vx) Hms') as (r & a & vs' & Hloop & Hvs' & Hb).
      * rewrite !num_max_assoc, Heq. exact Hsame.
      * by apply num_max_mono.
      * rewrite num_max_assoc. unfold num_lt. by rewrite Hcut.
      * rewrite Hvs in Hvs'. injection Hvs' as <-.
        exists r, a, (vx :: vs). split; [done|]. rewrite Hvs. split; [done|].
        simpl. by rewrite num_max_assoc.
Qed.

(** The loop of a minimizing node, from a state [(R, num_min β R)]. *)
Lemma min_loop (α β : number) (ms : list Move) (R M : number) :
  children_ok search value b ms →
  num_min β M = num_min β R → num_le R M = true → num_lt α (num_min β R) = true →
  ∃ r k vs,
    for_each_break ms (min_step search b α) (R, num_min β R) = Ok (r, k)
    ∧ mapM (λ m, nb ← makeMove b m; value nb) ms = Ok vs
    ∧ bounded_by α β r (num_min M (foldr num_min Infinity vs)).
Proof.
  revert R M. induction ms as [|m ms IH]; intros R M Hms Heq Hle Hlt.
  - exists R, (num_min β R), []. split; [done|]. split; [done|]. simpl.
    rewrite num_min_Infinity_r. by apply min_loop_end.
  - destruct (Hms m) as (nb & vx & Hmk & Hv & Hsearch); [left|].
    destruct (Hsearch α (num_min β R) Hlt) as (rx & Hrx & Hbound).
    assert (children_ok search value b ms) as Hms' by (intros m' Hm'; apply Hms; by right).
    destruct (children_values ms Hms') as (vs & Hvs).
    assert (for_each_break (m :: ms) (min_step search b α) (R, num_min β R)
            = if num_le (num_min (num_min β R) rx) α
              then Ok (num_min R rx, num_min (num_min β R) rx)
              else for_each_break ms (min_step search b α)
                     (num_min R rx, num_min (num_min β R) rx)) as ->.
    { simpl. unfold min_step at 1. rewrite Hmk. simpl. rewrite Hrx. done. }
    assert (mapM (λ m, nb ← makeMove b m; value nb) (m :: ms)
            = (vs ← mapM (λ m, nb ← makeMove b m; value nb) ms; Ok (vx :: vs))) as ->.
    { simpl. rewrite Hmk. simpl. rewrite Hv. done. }
    destruct (num_le (num_min (num_min β R) rx) α) eqn:Hcut.
    + destruct (child_cuts_min _ _ _ _ Hlt Hbound Hcut) as [Hα Hvr].
      exists (num_min R rx), (num_min (num_min β R) rx), (vx :: vs).
      split; [done|]. rewrite Hvs. split; [done|]. simpl.
      apply bounded_by_low.
      * eapply num_lt_le_trans; [exact Hlt | apply num_le_min_l].
      * eapply num_le_trans; [apply num_le_min_r | exact Hα].
      * assert (num_le (num_min M (num_min vx (foldr num_min Infinity vs))) vx = true)
          as Hvx.
        { eapply num_le_trans; [apply num_le_min_r | apply num_le_min_l]. }
        apply num_min_glb.
        -- eapply num_le_trans; [exact Hvx|].
           eapply num_le_trans; [exact Hvr|].
           eapply num_le_trans; [exact Hα|].
           apply num_lt_le. eapply num_lt_le_trans; [exact Hlt | apply num_le_min_r].
        -- eapply num_le_trans; [exact Hvx | exact Hvr].
    + destruct (child_passes_min _ _ _ _ Hlt Hbound Hcut) as [Hrv Hsame].
      rewrite <- num_min_assoc.
      destruct (IH (num_min R rx) (num_min M vx) Hms') as (r & k & vs' & Hloop & Hvs' & Hb).
      * rewrite !num_min_assoc, Heq. exact Hsame.
      * by apply num_min_mono.
      * rewrite num_min_assoc. unfold num_lt. by rewrite Hcut.
      * rewrite Hvs in Hvs'. injection Hvs' as <-.
        exists r, k, (vx :: vs). split; [done|]. rewrite Hvs. split; [done|].
        simpl. by rewrite num_min_assoc.
Qed.

End Loops.

(** [minimax] returns on every board with the rows of the grid, for every
    window that is not empty, and so does the exhaustive search; the result
    is bounded by the exhaustive value. *)
Lemma minimax_bounded (d : nat) :
  ∀ (b : Board) (α β : number) (mx : bool),
    has_rows b → num_lt α β = true →
    ∃ r v, minimax b d α β mx = Ok r ∧ minimax_exhaustive b d mx = Ok v
           ∧ bounded_by α β r v.
Proof.
  induction d as [|d IH]; intros b α β mx Hb Hlt;
    rewrite minimax_unfold, minimax_exhaustive_unfold;
    destruct (checkWinner_total b Hb) as (wm & bm & _ & _ & ->); simpl;
    set (w := if decide (length (pieces_of b white) = 0%nat) then black else _);
    (destruct (decide (w = black));
     [exists (Int 1000), (Int 1000); by auto using bounded_by_refl|]);
    (destruct (decide (w = white));
     [exists (Int (-1000)), (Int (-1000)); by auto using bounded_by_refl|]).
  - destruct (evaluateBoard_total b Hb) as (score & ->). simpl.
    exists (Int score), (Int score). auto using bounded_by_refl.
  - destruct (getAllValidMoves_total b (if mx then black else white) Hb)
      as (ms & -> & Hms). simpl.
    destruct (decide (length ms = 0%nat)).
    { eexists _, _. split; [done|]. split; [done|]. by apply bounded_by_refl. }
    assert (∀ mx', children_ok (λ nb a k, minimax nb d a k mx')
                     (λ nb, minimax_exhaustive nb d mx') b ms) as Hch.
    { intros mx' m Hm. rewrite Forall_forall in Hms.
      destruct (makeMove_has_rows b _ m Hb (Hms m Hm)) as (nb & Hmk & Hnb).
      destruct (IH nb NegInfinity Infinity mx' Hnb eq_refl) as (_ & v & _ & Hv & _).
      exists nb, v. split; [done|]. split; [done|]. intros a k Hak.
      destruct (IH nb a k mx' Hnb Hak) as (r & v' & Hr & Hv' & Hbound).
      exists r. split; [done|]. congruence. }
    destruct mx.
    + destruct (max_loop _ _ b α β ms NegInfinity NegInfinity (Hch false))
        as (r & a & vs & Hloop & Hvs & Hbound).
      * done.
      * done.
      * by rewrite num_max_NegInfinity_r.
      * rewrite num_max_NegInfinity_r in Hloop. rewrite Hloop. simpl.
        rewrite Hvs. simpl. exists r, (foldr num_max NegInfinity vs).
        split; [done|]. split; [done|].
        by rewrite num_max_NegInfinity_l in Hbound.
    + destruct (min_loop _ _ b α β ms Infinity Infinity (Hch true))
        as (r & k & vs & Hloop & Hvs & Hbound).
      * done.
      * done.
      * by rewrite num_min_Infinity_r.
      * rewrite num_min_Infinity_r in Hloop. rewrite Hloop. simpl.
        rewrite Hvs. simpl. exists r, (foldr num_min Infinity vs).
        split; [done|]. split; [done|].
        by rewrite num_min_Infinity_l in Hbound.
Qed.

(** On any board at all the two searches agree: without the rows of the
    grid both throw at the test of the winner. *)
Lemma minimax_exhaustive_any_board (b : Board) (d : nat) (isMaximizing : bool) :
  minimax b d NegInfinity Infinity isMaximizing = minimax_exhaustive b d isMaximizing.
Proof.
  destruct (decide (has_rows b)) as [Hb|Hb].
  - destruct (minimax_bounded d b NegInfinity Infinity isMaximizing Hb eq_refl)
      as (r & v & -> & -> & Hbound).
    by apply bounded_by_full in Hbound as ->.
  - rewrite minimax_unfold, minimax_exhaustive_unfold.
    by rewrite checkWinner_throws.
Qed.

(** C2.  On every board of the data model, for every depth and either
    value of the flag, [minimax] called with the window
    [(-Infinity, Infinity)] returns a score, the exhaustive search without
    pruning returns a score, and the two scores are equal. *)
Theorem minimax_equals_exhaustive (b : Board) (d : nat) (isMaximizing : bool) :
  wf_board b →
  ∃ score, minimax b d NegInfinity Infinity isMaximizing = Ok score
           ∧ minimax_exhaustive b d isMaximizing = Ok score.
Proof.
  intros Hwf. apply wf_board_has_rows in Hwf.
  destruct (minimax_bounded d b NegInfinity Infinity isMaximizing Hwf eq_refl)
    as (r & v & Hr & Hv & Hbound).
  apply bounded_by_full in Hbound as ->. eauto.
Qed.

Lemma minimax_equals_exhaustive_witness :
  ∃ score, minimax initial_board 3 NegInfinity Infinity true = Ok score
           ∧ minimax_exhaustive initial_board 3 true = Ok score.
Proof.
  apply (minimax_equals_exhaustive initial_board 3 true).
  split; [reflexivity | repeat constructor].
Defined.

(** Three plies from the starting position, black to play. *)
Example minimax_initial_board :
  minimax initial_board 3 NegInfinity Infinity true = Ok (Int 1)
  ∧ minimax_exhaustive initial_board 3 true = Ok (Int 1).
Proof. split; vm_compute; reflexivity. Qed.


(** ** evaluateMove *)

(** The score of a move is that of the specification for a black piece,
    whatever piece moves. *)
Lemma evaluateMove_black (b : Board) (m : Move) :
  (evaluateMove b m == score_move_spec black m)%Q.
Proof.
  unfold evaluateMove, score_move_spec, BOARD_SIZE.
  destruct (captured m) as [cs|]; simpl;
    destruct (decide (row (to m) = 8 - 1)) as [Hr|Hr];
    [rewrite (decide_True (P := _ ∨ (black = black ∧ _))) by (right; split; [done | lia])
    |rewrite (decide_False (P := _ ∨ (black = black ∧ _)))
       by (intros [[? _]|[_ ?]]; [done | lia])
    |rewrite (decide_True (P := _ ∨ (black = black ∧ _))) by (right; split; [done | lia])
    |rewrite (decide_False (P := _ ∨ (black = black ∧ _)))
       by (intros [[? _]|[_ ?]]; [done | lia])];
    destruct (decide (col (to m) = 0 ∨ col (to m) = 7)); ring.
Qed.

(** C7, as amended.  For every move and every board, [evaluateMove] returns
    100 times the number of captured squares, plus 50 if the destination
    row is 7 (the far rank of black, the side of the bot; nothing is added
    for a white piece reaching row 0), plus 5 times (7 minus the Manhattan
    distance of the destination from (3.5, 3.5)), minus 10 if the
    destination column is 0 or 7, which is the score of the specification
    for a move of a black piece; and the result does not depend on the
    board. *)
Theorem evaluateMove_formula (b : Board) (m : Move) :
  (evaluateMove b m ==
   100 * inject_Z (Z.of_nat (length (captured_squares m)))
   + (if decide (row (to m) = 7%Z) then 50 else 0)
   + 5 * (7 - (Qabs (inject_Z (col (to m)) - 3.5) + Qabs (inject_Z (row (to m)) - 3.5)))
   - (if decide (col (to m) = 0%Z ∨ col (to m) = 7%Z) then 10 else 0))%Q
  ∧ (evaluateMove b m == score_move_spec black m)%Q
  ∧ ∀ b', evaluateMove b' m = evaluateMove b m.
Proof.
  split; [|split].
  - rewrite evaluateMove_black. unfold score_move_spec, captured_squares.
    destruct (decide (row (to m) = 7)) as [Hr|Hr].
    + rewrite (decide_True (P := _ ∨ (black = black ∧ _))) by tauto. reflexivity.
    + rewrite (decide_False (P := _ ∨ (black = black ∧ _)))
        by (intros [[? _]|[_ ?]]; done). reflexivity.
  - apply evaluateMove_black.
  - reflexivity.
Qed.

(** C7, as stated, fails for a white piece that reaches row 0: the step of
    the white piece of [crowning_board] from (1,2) to (0,1) scores 5, not
    the 55 of the specification. *)
Lemma evaluateMove_white_far_rank :
  piece_on crowning_board (row (from crowning_move)) (col (from crowning_move))
  = Some (mkPiece white false)
  ∧ (evaluateMove crowning_board crowning_move == 5)%Q
  ∧ (score_move_spec white crowning_move == 55)%Q
  ∧ ¬ (evaluateMove crowning_board crowning_move
       == score_move_spec white crowning_move)%Q.
Proof.
  split; [reflexivity|]. split; [reflexivity|]. split; [reflexivity|].
  intros H. vm_compute in H. discriminate H.
Qed.

(** ** The bot *)

Lemma sort_insert_perm {A : Type} (cmp : A → A → Q) (x : A) (l : list A) :
  sort_insert cmp x l ≡ₚ x :: l.
Proof.
  induction l as [|y l IH]; simpl; [done|].
  destruct (Qle_bool (cmp x y) 0); [done|].
  rewrite IH. apply Permutation_swap.
Qed.

(** Sorting reorders the array. *)
Lemma array_sort_perm {A : Type} (cmp : A → A → Q) (a : list A) :
  array_sort cmp a ≡ₚ a.
Proof.
  unfold array_sort. induction a as [|x a IH]; simpl; [done|].
  by rewrite sort_insert_perm, IH.
Qed.

Lemma index_in_range {A : Type} (a : list A) (i : Z) :
  0 ≤ i < Z.of_nat (length a) → ∃ x, index a i = Some x ∧ x ∈ a.
Proof.
  intros Hi. destruct (index a i) as [x|] eqn:E.
  - exists x. split; [done|]. apply index_Some in E as [_ E].
    by eapply list_elem_of_lookup_2.
  - apply index_None in E. lia.
Qed.


(** ** makeMove on the store *)

Lemma run_bind {A B : Type} (m : Store.M A) (f : A → Store.M B) (σ : list Store.object) :
  (m ≫= f) σ = match m σ with
               | Store.Return a σ' => f a σ'
               | Store.Throw σ' => Store.Throw σ'
               end.
Proof. done. Qed.

(** *** What a store denotes, and larger stores *)

Lemma piece_at_prefix (σ σ' : list Store.object) (c : option nat) (v : option Piece) :
  σ `prefix_of` σ' → Store.piece_at σ c = Some v → Store.piece_at σ' c = Some v.
Proof.
  intros Hpre. destruct c as [l|]; simpl; [|done].
  destruct (σ !! l) as [o|] eqn:E; [|done].
  by rewrite (prefix_lookup_Some _ _ _ _ E Hpre).
Qed.

Lemma row_at_Some (σ : list Store.object) (rl : nat) (cells : list (option Piece)) :
  Store.row_at σ rl = Some cells
  ↔ ∃ cs, σ !! rl = Some (Store.RowObj cs)
          ∧ Forall2 (λ c v, Store.piece_at σ c = Some v) cs cells.
Proof.
  unfold Store.row_at. split.
  - destruct (σ !! rl) as [[| cs |]|]; try done. intros H.
    exists cs. split; [done|]. by apply mapM_Some.
  - intros (cs & -> & H). by apply mapM_Some.
Qed.

Lemma board_at_Some (σ : list Store.object) (bl : nat) (b : Board) :
  Store.board_at σ bl = Some b
  ↔ ∃ rows, σ !! bl = Some (Store.BoardObj rows)
            ∧ Forall2 (λ rl cells, Store.row_at σ rl = Some cells) rows b.
Proof.
  unfold Store.board_at. split.
  - destruct (σ !! bl) as [[| | rows]|]; try done. intros H.
    exists rows. split; [done|]. by apply mapM_Some.
  - intros (rows & -> & H). by apply mapM_Some.
Qed.

Lemma row_at_prefix (σ σ' : list Store.object) (rl : nat) (cells : list (option Piece)) :
  σ `prefix_of` σ' → Store.row_at σ rl = Some cells → Store.row_at σ' rl = Some cells.
Proof.
  intros Hpre. rewrite !row_at_Some. intros (cs & Hrl & Hcs).
  exists cs. split; [by eapply prefix_lookup_Some|].
  eapply Forall2_impl; [exact Hcs|]. intros c v. by apply piece_at_prefix.
Qed.

(** The board a reference denotes is the same in every larger store. *)
Lemma board_at_prefix (σ σ' : list Store.object) (bl : nat) (b : Board) :
  σ `prefix_of` σ' → Store.board_at σ bl = Some b → Store.board_at σ' bl = Some b.
Proof.
  intros Hpre. rewrite !board_at_Some. intros (rows & Hbl & Hrows).
  exists rows. split; [by eapply prefix_lookup_Some|].
  eapply Forall2_impl; [exact Hrows|]. intros rl cells. by apply row_at_prefix.
Qed.

Lemma fresh_row_mono (σ0 σ0' σ σ' : list Store.object) (rl : nat)
    (cells : list (option Piece)) :
  (length σ0' ≤ length σ0)%nat → σ `prefix_of` σ' →
  Store.fresh_row σ0 σ rl cells → Store.fresh_row σ0' σ' rl cells.
Proof.
  intros Hlen Hpre (Hrl & cs & Hcs & Hcells & Hfresh).
  split; [lia|]. exists cs. split; [by eapply prefix_lookup_Some|].
  split.
  - eapply Forall2_impl; [exact Hcells|]. intros c v. by apply piece_at_prefix.
  - eapply Forall_impl; [exact Hfresh|]. intros c Hc l Hl. specialize (Hc l Hl). lia.
Qed.

Lemma fresh_board_board_at (σ0 σ : list Store.object) (nb : nat) (b : Board) :
  Store.fresh_board σ0 σ nb b → Store.board_at σ nb = Some b.
Proof.
  intros (_ & _ & rows & Hnb & _ & Hrows). apply board_at_Some.
  exists rows. split; [done|]. eapply Forall2_impl; [exact Hrows|].
  intros rl cells (_ & cs & Hcs & Hcells & _). apply row_at_Some. eauto.
Qed.

(** *** The copy *)

Lemma copy_cells_spec (cs : list (option nat)) (cells : list (option Piece))
    (σ : list Store.object) :
  Forall2 (λ c v, Store.piece_at σ c = Some v) cs cells →
  ∃ cs' ext,
    Store.array_map Store.copy_cell cs σ = Store.Return cs' (σ ++ ext)
    ∧ Forall2 (λ c v, Store.piece_at (σ ++ ext) c = Some v) cs' cells
    ∧ Forall (λ c, ∀ l, c = Some l → (length σ ≤ l)%nat) cs'.
Proof.
  intros H. revert σ H. revert cells.
  induction cs as [|c cs IH]; intros cells σ H.
  - apply Forall2_nil_inv_l in H as ->. exists [], []. rewrite app_nil_r. done.
  - apply Forall2_cons_inv_l in H as (v & cells' & Hc & Hcs & ->).
    assert (∃ c' ext1,
              Store.copy_cell c σ = Store.Return c' (σ ++ ext1)
              ∧ Store.piece_at (σ ++ ext1) c' = Some v
              ∧ ∀ l, c' = Some l → (length σ ≤ l)%nat)
      as (c' & ext1 & Hcopy & Hc' & Hfresh).
    { destruct c as [l|]; simpl in Hc.
      - destruct (σ !! l) as [[p| |]|] eqn:E; try done. injection Hc as <-.
        exists (Some (length σ)), [Store.PieceObj p]. simpl.
        unfold Store.copy_cell. rewrite run_bind. unfold Store.get_piece. rewrite E.
        rewrite run_bind. unfold Store.alloc, mret, Store.M_ret, Store.ret.
        replace (mkPiece (type p) (isKing p)) with p by (by destruct p).
        split; [done|]. split.
        + rewrite lookup_app_r by lia. by rewrite Nat.sub_diag.
        + intros l' [= <-]. lia.
      - injection Hc as <-. exists None, []. rewrite app_nil_r. done. }
    destruct (IH cells' (σ ++ ext1)) as (cs' & ext2 & Hmap & Hcells & Hfresh').
    { eapply Forall2_impl; [exact Hcs|]. intros c0 v0.
      apply piece_at_prefix. by apply prefix_app_r. }
    exists (c' :: cs'), (ext1 ++ ext2). rewrite app_assoc.
    split; [|split].
    + simpl. rewrite run_bind, Hcopy, run_bind, Hmap. done.
    + constructor; [|done]. eapply piece_at_prefix; [|exact Hc'].
      by apply prefix_app_r.
    + constructor; [done|]. eapply Forall_impl; [exact Hfresh'|].
      intros c0 Hc0 l Hl. specialize (Hc0 l Hl). rewrite length_app in Hc0. lia.
Qed.

Lemma copy_row_spec (rl : nat) (cells : list (option Piece)) (σ : list Store.object) :
  Store.row_at σ rl = Some cells →
  ∃ rl' ext,
    Store.copy_row rl σ = Store.Return rl' (σ ++ ext)
    ∧ (length σ ≤ rl' < length (σ ++ ext))%nat
    ∧ Store.fresh_row σ (σ ++ ext) rl' cells.
Proof.
  intros (cs & Hrl & Hcs)%row_at_Some.
  destruct (copy_cells_spec cs cells σ Hcs) as (cs' & ext & Hmap & Hcells & Hfresh).
  exists (length (σ ++ ext)), (ext ++ [Store.RowObj cs']). rewrite app_assoc.
  split; [|split].
  - unfold Store.copy_row. rewrite run_bind. unfold Store.get_row. rewrite Hrl.
    rewrite run_bind, Hmap. done.
  - rewrite !length_app. simpl. lia.
  - split; [rewrite length_app; lia|]. exists cs'. split.
    + rewrite lookup_app_r by lia. by rewrite Nat.sub_diag.
    + split; [|done]. eapply Forall2_impl; [exact Hcells|]. intros c v.
      apply piece_at_prefix. by apply prefix_app_r.
Qed.

Lemma copy_rows_spec (rows : list nat) (b : Board) (σ : list Store.object) :
  Forall2 (λ rl cells, Store.row_at σ rl = Some cells) rows b →
  ∃ rows' ext,
    Store.array_map Store.copy_row rows σ = Store.Return rows' (σ ++ ext)
    ∧ Forall (λ l, length σ ≤ l < length (σ ++ ext))%nat rows'
    ∧ NoDup rows'
    ∧ Forall2 (Store.fresh_row σ (σ ++ ext)) rows' b.
Proof.
  intros H. revert b σ H. induction rows as [|rl rows IH]; intros b σ H.
  - apply Forall2_nil_inv_l in H as ->. exists [], []. rewrite app_nil_r.
    split; [done|]. split; [done|]. split; [constructor | done].
  - apply Forall2_cons_inv_l in H as (cells & b' & Hrl & Hrows & ->).
    destruct (copy_row_spec rl cells σ Hrl) as (rl' & ext1 & Hcopy & Hrange & Hrow).
    destruct (IH b' (σ ++ ext1)) as (rows' & ext2 & Hmap & Hranges & Hnodup & Hfresh).
    { eapply Forall2_impl; [exact Hrows|]. intros rl0 cells0.
      apply row_at_prefix. by apply prefix_app_r. }
    exists (rl' :: rows'), (ext1 ++ ext2). rewrite app_assoc.
    split; [|split; [|split]].
    + simpl. rewrite run_bind, Hcopy, run_bind, Hmap. done.
    + constructor.
      * rewrite !length_app in *. lia.
      * eapply Forall_impl; [exact Hranges|]. intros l Hl. cbv beta in Hl.
        rewrite !length_app in *. lia.
    + constructor; [|done]. intros Hin. rewrite Forall_forall in Hranges.
      specialize (Hranges _ Hin). cbv beta in Hranges. lia.
    + constructor.
      * eapply fresh_row_mono; [| |exact Hrow]; [lia | by apply prefix_app_r].
      * eapply Forall2_impl; [exact Hfresh|]. intros l cells0.
        apply fresh_row_mono; [rewrite length_app; lia | done].
Qed.

(** The copy returns a board with the content of the input, made of new
    objects only; the store is extended. *)
Lemma copy_board_spec (bl : nat) (b : Board) (σ : list Store.object) :
  Store.board_at σ bl = Some b →
  ∃ nb ext, Store.copy_board bl σ = Store.Return nb (σ ++ ext)
            ∧ Store.fresh_board σ (σ ++ ext) nb b.
Proof.
  intros (rows & Hbl & Hrows)%board_at_Some.
  destruct (copy_rows_spec rows b σ Hrows) as (rows' & ext & Hmap & Hranges & Hnodup & Hfresh).
  exists (length (σ ++ ext)), (ext ++ [Store.BoardObj rows']). rewrite app_assoc.
  split.
  - unfold Store.copy_board. rewrite run_bind. unfold Store.get_board. rewrite Hbl.
    rewrite run_bind, Hmap. done.
  - split; [rewrite <- app_assoc; by apply prefix_app_r|].
    split; [rewrite length_app; lia|].
    exists rows'. split.
    + rewrite lookup_app_r by lia. by rewrite Nat.sub_diag.
    + split; [done|]. eapply Forall2_impl; [exact Hfresh|]. intros l cells.
      apply fresh_row_mono; [lia | by apply prefix_app_r].
Qed.


(** *** Reads and assignments on the copy *)

Lemma index_Forall2 {A B : Type} (P : A → B → Prop) (l : list A) (k : list B) (i : Z) :
  Forall2 P l k → option_Forall2 P (index l i) (index k i).
Proof.
  intros H. unfold index. destruct (i <? 0); [constructor|].
  by apply Forall2_lookup.
Qed.

Lemma Forall2_set_index {A B : Type} (P : option A → option B → Prop)
    (cs : list (option A)) (cells : list (option B)) (c : Z) (v : option A)
    (pv : option B) :
  Forall2 P cs cells → P v pv → P None None →
  Forall2 P (set_index cs c v) (set_index cells c pv).
Proof.
  intros H Hv Hnone. unfold set_index. rewrite <- (Forall2_length _ _ _ H).
  destruct (c <? 0); [done|].
  destruct (c <? Z.of_nat (length cs)).
  - by apply Forall2_insert.
  - apply Forall2_app; [done|]. apply Forall2_app.
    + by apply Forall2_replicate.
    + by constructor.
Qed.

Lemma Forall_set_index {A : Type} (P : option A → Prop) (cs : list (option A))
    (c : Z) (v : option A) :
  Forall P cs → P v → P None → Forall P (set_index cs c v).
Proof.
  intros H Hv Hnone. unfold set_index.
  destruct (c <? 0); [done|].
  destruct (c <? Z.of_nat (length cs)).
  - by apply Forall_insert.
  - apply Forall_app. split; [done|]. apply Forall_app. split.
    + by apply Forall_replicate.
    + by constructor.
Qed.

Lemma prefix_insert_fresh (σ0 σ : list Store.object) (l : nat) (o : Store.object) :
  σ0 `prefix_of` σ → (length σ0 ≤ l)%nat → σ0 `prefix_of` <[l := o]> σ.
Proof.
  intros [k ->] Hl. rewrite insert_app_r_alt by lia. by apply prefix_app_r.
Qed.

(** Replacing a row object leaves the piece objects as they are. *)
Lemma piece_at_insert_row (σ : list Store.object) (rl : nat) (cs cs' : list (option nat))
    (c : option nat) (v : option Piece) :
  σ !! rl = Some (Store.RowObj cs) →
  Store.piece_at σ c = Some v → Store.piece_at (<[rl := Store.RowObj cs']> σ) c = Some v.
Proof.
  intros Hrl. destruct c as [l|]; simpl; [|done].
  destruct (decide (l = rl)) as [->|Hne]; [by rewrite Hrl|].
  by rewrite list_lookup_insert_ne.
Qed.

Lemma fresh_board_rows (σ0 σ : list Store.object) (nb : nat) (b : Board) (r : Z) :
  Store.fresh_board σ0 σ nb b →
  ∃ rows, Store.get_board nb σ = Store.Return rows σ
    ∧ NoDup rows
    ∧ Forall2 (Store.fresh_row σ0 σ) rows b
    ∧ option_Forall2 (Store.fresh_row σ0 σ) (index rows r) (index b r).
Proof.
  intros (_ & _ & rows & Hnb & Hnodup & Hrows). exists rows.
  unfold Store.get_board. rewrite Hnb. split; [done|]. split; [done|]. split; [done|].
  by apply index_Forall2.
Qed.

(** A read on the copy returns what the board holds there, or throws where
    the read of the board throws. *)
Lemma cell_spec (σ0 σ : list Store.object) (nb : nat) (b : Board) (r c : Z) :
  Store.fresh_board σ0 σ nb b →
  match cell b r c with
  | Ok v => ∃ x, Store.cell nb r c σ = Store.Return x σ ∧ Store.piece_at σ x = Some v
                 ∧ ∀ l, x = Some l → (length σ0 ≤ l)%nat
  | TypeError => Store.cell nb r c σ = Store.Throw σ
  end.
Proof.
  intros Hfresh.
  destruct (fresh_board_rows σ0 σ nb b r Hfresh) as (rows & Hget & _ & _ & Hrow).
  unfold Store.cell, cell, row_of. rewrite run_bind, Hget.
  destruct Hrow as [rl cells (_ & cs & Hrl & Hcells & Hfr)|]; [|done].
  simpl. rewrite run_bind. unfold Store.get_row. rewrite Hrl.
  pose proof (index_Forall2 _ _ _ c Hcells) as Hc.
  unfold mret, Store.M_ret, Store.ret.
  destruct (index cs c) as [x|] eqn:E; destruct (index cells c) as [v|] eqn:E';
    inversion Hc as [? ? Hx|]; subst.
  - exists x. split; [done|]. split; [exact Hx|]. intros l ->.
    apply index_Some in E as [_ E]. apply list_elem_of_lookup_2 in E.
    rewrite Forall_forall in Hfr. by apply (Hfr _ E).
  - exists None. done.
Qed.

(** An assignment on the copy is the assignment on the board, or throws
    where that throws; the store stays an extension of the input store, and
    its piece objects stay as they are. *)
Lemma set_cell_spec (σ0 σ : list Store.object) (nb : nat) (b : Board) (r c : Z)
    (v : option nat) (pv : option Piece) :
  Store.fresh_board σ0 σ nb b → Store.piece_at σ v = Some pv →
  (∀ l, v = Some l → (length σ0 ≤ l)%nat) →
  match set_cell b r c pv with
  | Ok b' =>
      ∃ σ', Store.set_cell nb r c v σ = Store.Return () σ' ∧ Store.fresh_board σ0 σ' nb b'
            ∧ ∀ x y, Store.piece_at σ x = Some y → Store.piece_at σ' x = Some y
  | TypeError => Store.set_cell nb r c v σ = Store.Throw σ
  end.
Proof.
  intros Hfresh Hv Hvfresh.
  destruct (fresh_board_rows σ0 σ nb b r Hfresh) as (rows & Hget & Hnodup & Hrows & Hrow).
  destruct Hfresh as (Hpre & Hnbge & rows' & Hnb & _ & _).
  assert (rows' = rows) as ->.
  { unfold Store.get_board in Hget. rewrite Hnb in Hget. by injection Hget. }
  unfold Store.set_cell, set_cell, row_of. rewrite run_bind, Hget.
  destruct (index rows r) as [rl|] eqn:Erl; destruct (index b r) as [cells|] eqn:Eb;
    inversion Hrow as [? ? (Hrlge & cs & Hrl & Hcells & Hfr)|]; subst; [|done].
  simpl. rewrite run_bind. unfold Store.get_row. rewrite Hrl. unfold Store.put_row.
  apply index_Some in Erl as [Hr Erl]. apply index_Some in Eb as [_ Eb].
  eexists. split; [done|].
  assert (Hpieces : ∀ x y, Store.piece_at σ x = Some y →
            Store.piece_at (<[rl := Store.RowObj (set_index cs c v)]> σ) x = Some y)
    by (intros x y; by apply piece_at_insert_row with cs).
  split; [|exact Hpieces].
  split; [by apply prefix_insert_fresh|]. split; [done|].
  exists rows. split.
  { rewrite list_lookup_insert_ne; [done|]. intros ->. congruence. }
  split; [done|].
  apply Forall2_same_length_lookup. split.
  { rewrite length_insert. by eapply Forall2_length. }
  intros i rl_i cells_i Hi Hci.
  destruct (decide (i = Z.to_nat r)) as [->|Hne].
  - rewrite Erl in Hi. injection Hi as <-.
    rewrite list_lookup_insert_eq in Hci by (by eapply lookup_lt_Some).
    injection Hci as <-.
    split; [done|]. exists (set_index cs c v). split.
    { apply list_lookup_insert_eq. by eapply lookup_lt_Some. }
    split.
    + apply Forall2_set_index; [|by apply Hpieces|done].
      eapply Forall2_impl; [exact Hcells|]. intros x y. apply Hpieces.
    + by apply Forall_set_index.
  - rewrite list_lookup_insert_ne in Hci by done.
    pose proof (Forall2_lookup_lr _ _ _ _ _ _ Hrows Hi Hci)
      as (Hge & cs_i & Hrl_i & Hcells_i & Hfr_i).
    split; [done|]. exists cs_i. split.
    { rewrite list_lookup_insert_ne; [done|]. intros ->.
      apply Hne. by eapply NoDup_lookup. }
    split; [|done].
    eapply Forall2_impl; [exact Hcells_i|]. intros x y. apply Hpieces.
Qed.

Lemma fresh_board_app (σ0 σ ext : list Store.object) (nb : nat) (b : Board) :
  Store.fresh_board σ0 σ nb b → Store.fresh_board σ0 (σ ++ ext) nb b.
Proof.
  intros (Hpre & Hge & rows & Hnb & Hnodup & Hrows).
  split; [by apply prefix_app_r|]. split; [done|]. exists rows.
  split; [by apply lookup_app_l_Some|]. split; [done|].
  eapply Forall2_impl; [exact Hrows|]. intros rl cells.
  apply fresh_row_mono; [done | by apply prefix_app_r].
Qed.

Lemma fresh_board_prefix (σ0 σ : list Store.object) (nb : nat) (b : Board) :
  Store.fresh_board σ0 σ nb b → σ0 `prefix_of` σ.
Proof. by intros (? & _). Qed.

(** The loop over the captured squares. *)
Lemma clear_loop_spec (σ0 : list Store.object) (nb : nat) (cs : list Position) :
  ∀ (σ : list Store.object) (b : Board),
    Store.fresh_board σ0 σ nb b →
    match for_each cs (λ nb pos, set_cell nb (row pos) (col pos) None) b with
    | Ok b' =>
        ∃ σ', Store.for_each cs (λ pos, Store.set_cell nb (row pos) (col pos) None) σ
              = Store.Return () σ'
              ∧ Store.fresh_board σ0 σ' nb b'
              ∧ ∀ x y, Store.piece_at σ x = Some y → Store.piece_at σ' x = Some y
    | TypeError =>
        ∃ σ', Store.for_each cs (λ pos, Store.set_cell nb (row pos) (col pos) None) σ
              = Store.Throw σ'
              ∧ σ0 `prefix_of` σ'
    end.
Proof.
  induction cs as [|pos cs IH]; intros σ b Hfresh.
  - simpl. exists σ. done.
  - rewrite for_each_cons.
    change (Store.for_each (pos :: cs) (λ pos, Store.set_cell nb (row pos) (col pos) None))
      with (Store.set_cell nb (row pos) (col pos) None
            ≫= λ _, Store.for_each cs (λ pos, Store.set_cell nb (row pos) (col pos) None)).
    rewrite run_bind.
    pose proof (set_cell_spec σ0 σ nb b (row pos) (col pos) None None Hfresh eq_refl)
      as Hset.
    destruct (set_cell b (row pos) (col pos) None) as [b1|]; simpl.
    + destruct Hset as (σ1 & -> & Hfresh1 & Hp1); [done|].
      specialize (IH σ1 b1 Hfresh1).
      destruct (for_each cs _ b1) as [b'|].
      * destruct IH as (σ' & -> & Hfresh' & Hp'). exists σ'. eauto.
      * done.
    + rewrite Hset by done. exists σ. split; [done|]. by eapply fresh_board_prefix.
Qed.


(** The last two steps of [makeMove]: the promoted piece is a new object,
    assigned to the destination. *)
Lemma promotion_spec (σ0 σ : list Store.object) (nb : nat) (b : Board) (r c : Z) (q : Piece) :
  Store.fresh_board σ0 σ nb b →
  match set_cell b r c (Some q) with
  | Ok b' =>
      ∃ σ', (promoted ← Store.alloc (Store.PieceObj q);
             Store.set_cell nb r c (Some promoted);; mret nb) σ = Store.Return nb σ'
            ∧ Store.fresh_board σ0 σ' nb b'
  | TypeError =>
      ∃ σ', (promoted ← Store.alloc (Store.PieceObj q);
             Store.set_cell nb r c (Some promoted);; mret nb) σ = Store.Throw σ'
            ∧ σ0 `prefix_of` σ'
  end.
Proof.
  intros Hfresh. rewrite run_bind. unfold Store.alloc. rewrite run_bind.
  pose proof (fresh_board_app σ0 σ [Store.PieceObj q] nb b Hfresh) as Hfresh1.
  pose proof (set_cell_spec σ0 (σ ++ [Store.PieceObj q]) nb b r c
                (Some (length σ)) (Some q) Hfresh1) as Hset.
  destruct (set_cell b r c (Some q)) as [b'|].
  - destruct Hset as (σ' & -> & Hfresh' & _).
    + simpl. rewrite lookup_app_r by lia. by rewrite Nat.sub_diag.
    + intros l [= <-]. apply prefix_length. by eapply fresh_board_prefix.
    + exists σ'. done.
  - rewrite Hset.
    + eexists. split; [done|]. by eapply fresh_board_prefix.
    + simpl. rewrite lookup_app_r by lia. by rewrite Nat.sub_diag.
    + intros l [= <-]. apply prefix_length. by eapply fresh_board_prefix.
Qed.

(** [makeMove] on the store computes [makeMove] on the board the input
    denotes: it returns a new board that denotes the result, or throws
    where the computation on values throws.  Either way the store it
    leaves extends the store it was given. *)
Lemma makeMove_refines (σ : list Store.object) (bl : nat) (b : Board) (m : Move) :
  Store.board_at σ bl = Some b →
  match makeMove b m with
  | Ok b' =>
      ∃ nb σ', Store.makeMove bl m σ = Store.Return nb σ' ∧ Store.fresh_board σ σ' nb b'
  | TypeError => ∃ σ', Store.makeMove bl m σ = Store.Throw σ' ∧ σ `prefix_of` σ'
  end.
Proof.
  intros Hb.
  destruct (copy_board_spec bl b σ Hb) as (nb & ext & Hcopy & Hfresh).
  unfold Store.makeMove, makeMove. rewrite copy_board_id, run_bind, Hcopy.
  pose proof (fresh_board_prefix _ _ _ _ Hfresh) as Hpre.
  set (σ1 := σ ++ ext) in *.
  (* the piece on the origin *)
  pose proof (cell_spec σ σ1 nb b (row (from m)) (col (from m)) Hfresh) as Hcell.
  rewrite run_bind.
  destruct (cell b (row (from m)) (col (from m))) as [[p|]|]; simpl.
  2:{ destruct Hcell as (x & -> & Hx & _). destruct x as [l|]; simpl in Hx.
      - destruct (σ1 !! l) as [[]|]; done.
      - exists nb, σ1. done. }
  2:{ rewrite Hcell. exists σ1. done. }
  destruct Hcell as (x & -> & Hx & Hxfresh).
  destruct x as [pl|]; [|done].
  (* the destination *)
  pose proof (set_cell_spec σ σ1 nb b (row (to m)) (col (to m)) (Some pl) (Some p)
                Hfresh Hx Hxfresh) as H1.
  rewrite run_bind.
  destruct (set_cell b (row (to m)) (col (to m)) (Some p)) as [b1|]; simpl.
  2:{ rewrite H1. exists σ1. done. }
  destruct H1 as (σ2 & -> & Hfresh2 & Hp2).
  (* the origin *)
  pose proof (set_cell_spec σ σ2 nb b1 (row (from m)) (col (from m)) None None
                Hfresh2 eq_refl) as H2.
  rewrite run_bind.
  destruct (set_cell b1 (row (from m)) (col (from m)) None) as [b2|]; simpl.
  2:{ rewrite H2 by done. exists σ2. split; [done|]. by eapply fresh_board_prefix. }
  destruct H2 as (σ3 & -> & Hfresh3 & Hp3); [done|].
  (* the captured squares *)
  rewrite run_bind.
  assert (match match captured m with
                | Some cs =>
                    for_each cs
                      (λ nb pos, set_cell nb (row pos) (col pos) None) b2
                | None => Ok b2
                end with
          | Ok b3 =>
              ∃ σ4, match captured m with
                    | Some cs =>
                        Store.for_each cs
                          (λ pos, Store.set_cell nb (row pos) (col pos) None)
                    | None => Store.ret ()
                    end σ3 = Store.Return () σ4
                    ∧ Store.fresh_board σ σ4 nb b3
                    ∧ ∀ x y, Store.piece_at σ3 x = Some y → Store.piece_at σ4 x = Some y
          | TypeError =>
              ∃ σ4, match captured m with
                    | Some cs =>
                        Store.for_each cs
                          (λ pos, Store.set_cell nb (row pos) (col pos) None)
                    | None => Store.ret ()
                    end σ3 = Store.Throw σ4
                    ∧ σ `prefix_of` σ4
          end) as H3.
  { destruct (captured m) as [cs|].
    - by apply clear_loop_spec.
    - exists σ3. done. }
  destruct (match captured m with
            | Some cs => for_each cs _ b2
            | None => Ok b2
            end) as [b3|]; simpl.
  2:{ destruct H3 as (σ4 & -> & Hpre4). exists σ4. done. }
  destruct H3 as (σ4 & -> & Hfresh4 & Hp4).
  (* the promotion *)
  rewrite run_bind. unfold Store.get_piece.
  assert (σ4 !! pl = Some (Store.PieceObj p)) as ->.
  { pose proof (Hp4 _ _ (Hp3 _ _ (Hp2 _ _ Hx))) as Hpl. simpl in Hpl.
    destruct (σ4 !! pl) as [[]|]; by simplify_eq/=. }
  pose proof (promotion_spec σ σ4 nb b3 (row (to m)) (col (to m))
                (mkPiece (type p) true) Hfresh4) as H5.
  destruct (decide (type p = white ∧ row (to m) = 0)).
  { destruct (set_cell b3 _ _ _) as [b4|].
    - destruct H5 as (σ5 & H5 & Hfresh5). exists nb, σ5. done.
    - exact H5. }
  destruct (decide (type p = black ∧ row (to m) = BOARD_SIZE - 1)).
  { destruct (set_cell b3 _ _ _) as [b4|].
    - destruct H5 as (σ5 & H5 & Hfresh5). exists nb, σ5. done.
    - exact H5. }
  exists nb, σ4. done.
Qed.


(** Whatever the move, the objects of the input store are as they were
    when [makeMove] returns or throws, and the input still denotes the same
    board. *)
Lemma makeMove_input_unchanged (σ : list Store.object) (bl : nat) (b : Board) (m : Move) :
  Store.board_at σ bl = Some b → input_unchanged σ bl b m.
Proof.
  intros Hb. pose proof (makeMove_refines σ bl b m Hb) as H.
  assert (σ `prefix_of` Store.final_store (Store.makeMove bl m σ)) as Hpre.
  { destruct (makeMove b m).
    - destruct H as (nb & σ' & -> & Hfresh). by eapply fresh_board_prefix.
    - by destruct H as (σ' & -> & Hpre). }
  split; [done|]. by eapply board_at_prefix.
Qed.


Lemma position_eta (p : Position) : mkPosition (row p) (col p) = p.
Proof. by destruct p. Qed.

(** For a move whose destination is a square of the grid other than the
    origin and the captured squares, themselves squares of the grid, the
    board after [makeMove] is as the specification says. *)
Lemma makeMove_relocated (b : Board) (m : Move) (p : Piece) :
  wf_board b → on_board (to m) → Forall on_board (captured_squares m) →
  to m ≠ from m → to m ∉ captured_squares m →
  cell b (row (from m)) (col (from m)) = Ok (Some p) →
  ∃ b', makeMove b m = Ok b' ∧ relocated b b' m p.
Proof.
  intros Hwf Hto Hcs Hne Hnin Hp. apply cell_Ok in Hp as [Hfrom Hp].
  pose proof (wf_board_has_rows _ Hwf) as Hb.
  assert (Hcs' : Forall (λ pos, 0 ≤ row pos < Z.of_nat (length b)) (captured_squares m)).
  { eapply Forall_impl; [exact Hcs|]. intros pos Hpos. apply on_board_range in Hpos.
    apply has_rows_range; [done | lia]. }
  apply on_board_range in Hto.
  destruct (makeMove_piece_on b m p Hp) as (b' & Hmk & Hlen & Hread); [|lia|done|].
  { apply has_rows_range; [done | lia]. }
  exists b'. split; [done|]. split; [|split; [|split]].
  - rewrite cell_in_range by (rewrite Hlen; apply has_rows_range; [done | lia]).
    rewrite Hread, position_eta. rewrite decide_True by done.
    rewrite (decide_False (P := _ ∨ _)) by tauto.
    unfold promote. by destruct (decide (far_rank p (row (to m)))).
  - rewrite cell_in_range by (by rewrite Hlen).
    rewrite Hread, position_eta. rewrite decide_False by congruence.
    rewrite decide_True; [done|]. by right.
  - intros pos Hpos. rewrite Forall_forall in Hcs'.
    rewrite cell_in_range by (rewrite Hlen; by apply Hcs').
    rewrite Hread, position_eta. rewrite decide_False by congruence.
    rewrite decide_True; [done|]. by left.
  - intros r c H1 H2 H3.
    destruct (decide (0 ≤ r < Z.of_nat (length b))) as [Hr|Hr].
    + rewrite !cell_in_range by (by rewrite ?Hlen). rewrite Hread.
      rewrite decide_False by done. by rewrite decide_False by tauto.
    + rewrite !cell_out_of_range by (by rewrite ?Hlen). done.
Qed.

(** On a board of the data model the specification of [makeMove] holds
    for every move of the generator. *)
Lemma makeMove_claim_generated (σ : list Store.object) (board : nat) (b : Board)
    (m : Move) :
  Store.board_at σ board = Some b → wf_board b →
  (∃ pos ms, getValidMoves b pos = Ok ms ∧ m ∈ ms)
  ∨ (∃ side ms, getAllValidMoves b side = Ok ms ∧ m ∈ ms) →
  makeMove_claim σ board b m.
Proof.
  intros Hb Hwf Hgen. split; [by apply makeMove_input_unchanged|]. intros p Hp.
  destruct (generator_moved_by b m (wf_board_has_rows _ Hwf) Hgen) as (side & _ & Hshape).
  destruct (move_from_squares _ _ Hshape) as (Hto & Hcs & Hne & Hnin & _).
  destruct (makeMove_relocated b m p Hwf Hto Hcs Hne Hnin Hp) as (b' & Hmk & Hrel).
  pose proof (makeMove_refines σ board b m Hb) as H. rewrite Hmk in H.
  destruct H as (nb & σ' & Hrun & Hfresh).
  exists nb, σ', b'. split; [done|]. split; [done|].
  split; [by eapply fresh_board_board_at | done].
Qed.




(** The destination must be in a row of the board: with the destination
    (8,2) the assignment [newBoard[8][2] = piece] reads a row the board
    does not have, and [makeMove] throws. *)
Example makeMove_off_board :
  makeMove initial_board (mkMove (mkPosition 2 1) (mkPosition 8 2) None) = TypeError.
Proof. reflexivity. Qed.


(** * Further properties of the move generator *)

(** The directions pushed by [getValidMoves] are those of the rules. *)
Lemma directions_of_legal (piece : Piece) (d : Z * Z) :
  d ∈ directions_of piece ↔ legal_direction piece d.
Proof.
  unfold directions_of, legal_direction. rewrite elem_of_app.
  destruct piece as [[] []], d as [dRow dCol]; simpl;
    rewrite ?elem_of_cons, ?elem_of_nil; split; intros H;
    destruct_or?; destruct_and?; destruct_or?; simplify_eq/=; try lia; try done;
    intuition (try done; try lia; simplify_eq/=; auto).
Qed.

(** One iteration of the loop of [getValidMoves], by what the direction
    allows. *)
Lemma scan_direction_spec (b : Board) (pos : Position) (piece : Piece)
    (moves captures : list Move) (d : Z * Z) :
  has_rows b →
  scan_direction b pos piece (moves, captures) d
  = Ok (moves ++ (if decide (can_step b pos d) then [step_move pos d] else []),
        captures ++ (if decide (can_jump b pos piece d) then [jump_move pos d] else [])).
Proof.
  intros Hb. destruct d as [dRow dCol].
  unfold scan_direction.
  destruct (isValidPosition (row pos + dRow) (col pos + dCol)) eqn:Hnew.
  - pose proof Hnew as Hnew'. apply isValidPosition_range in Hnew'.
    rewrite (cell_in_range b (row pos + dRow) (col pos + dCol))
      by (apply has_rows_range; [done | lia]). simpl.
    destruct (piece_on b (row pos + dRow) (col pos + dCol)) as [other|] eqn:Hother.
    + rewrite (decide_False (P := can_step _ _ _))
        by (unfold can_step; simpl; rewrite Hother; intros [_ [=]]).
      rewrite app_nil_r.
      destruct (decide (type other ≠ type piece)) as [Hty|Hty].
      * destruct (isValidPosition (row pos + dRow + dRow) (col pos + dCol + dCol))
          eqn:Hjump.
        -- pose proof Hjump as Hjump'. apply isValidPosition_range in Hjump'.
           rewrite (cell_in_range b (row pos + dRow + dRow) (col pos + dCol + dCol))
             by (apply has_rows_range; [done | lia]). simpl.
           destruct (piece_on b (row pos + dRow + dRow) (col pos + dCol + dCol))
             as [blocker|] eqn:Hland.
           ++ rewrite (decide_False (P := can_jump _ _ _ _)); [by rewrite app_nil_r|].
              unfold can_jump. simpl. rewrite Hland. intros (_ & _ & _ & [=]).
           ++ rewrite (decide_True (P := can_jump _ _ _ _)); [done|].
              unfold can_jump, on_board. simpl. rewrite Hother, Hland. eauto 10.
        -- rewrite (decide_False (P := can_jump _ _ _ _)); [by rewrite app_nil_r|].
           unfold can_jump, on_board. simpl. rewrite Hjump. intros (_ & _ & [=] & _).
      * rewrite (decide_False (P := can_jump _ _ _ _)); [by rewrite app_nil_r|].
        unfold can_jump. simpl. rewrite Hother.
        intros (_ & (other' & [= <-] & ?) & _). done.
    + rewrite (decide_True (P := can_step _ _ _))
        by (unfold can_step, on_board; simpl; by rewrite Hother).
      rewrite (decide_False (P := can_jump _ _ _ _)); [by rewrite app_nil_r|].
      unfold can_jump. simpl. rewrite Hother. intros (_ & (other & [=] & _) & _).
  - rewrite (decide_False (P := can_step _ _ _))
      by (unfold can_step, on_board; simpl; rewrite Hnew; intros [[=] _]).
    rewrite (decide_False (P := can_jump _ _ _ _)); [by rewrite !app_nil_r|].
    unfold can_jump, on_board. simpl. rewrite Hnew. intros ([=] & _).
Qed.

(** The loop over the directions. *)
Lemma scan_loop (b : Board) (pos : Position) (piece : Piece) (ds : list (Z * Z))
    (moves captures : list Move) :
  has_rows b →
  for_each ds (scan_direction b pos piece) (moves, captures)
  = Ok (moves ++ (step_move pos <$> filter (can_step b pos) ds),
        captures ++ (jump_move pos <$> filter (can_jump b pos piece) ds)).
Proof.
  intros Hb. revert moves captures.
  induction ds as [|d ds IH]; intros moves captures; cbn [for_each].
  - simpl. by rewrite !app_nil_r.
  - rewrite scan_direction_spec by done. cbn [mbind result_bind]. rewrite IH.
    rewrite !filter_cons. do 2 case_decide; simpl; by rewrite <- ?app_assoc.
Qed.

(** The value of [getValidMoves] for an occupied square. *)
Lemma getValidMoves_value (b : Board) (pos : Position) (piece : Piece) :
  has_rows b → piece_on b (row pos) (col pos) = Some piece →
  getValidMoves b pos
  = Ok (let jumps := jump_move pos <$> filter (can_jump b pos piece) (directions_of piece) in
        if bool_decide (0 < length jumps)%nat then jumps
        else step_move pos <$> filter (can_step b pos) (directions_of piece)).
Proof.
  intros Hb Hp. unfold getValidMoves.
  rewrite cell_in_range by (by eapply piece_on_Some_range).
  rewrite Hp. simpl. rewrite scan_loop by done. done.
Qed.

Lemma jump_move_isCapture (pos : Position) (d : Z * Z) : isCapture (jump_move pos d) = true.
Proof. done. Qed.

Lemma step_move_isCapture (pos : Position) (d : Z * Z) : isCapture (step_move pos d) = false.
Proof. done. Qed.

(** The moves of one piece are all jumps or all steps. *)
Lemma getValidMoves_uniform (b : Board) (pos : Position) (ms : list Move) :
  has_rows b → getValidMoves b pos = Ok ms →
  Forall (λ m, isCapture m = true) ms ∨ Forall (λ m, isCapture m = false) ms.
Proof.
  intros Hb Hms.
  destruct (piece_on b (row pos) (col pos)) as [piece|] eqn:Hp.
  - rewrite (getValidMoves_value b pos piece) in Hms by done.
    injection Hms as <-. cbv zeta. case_bool_decide.
    + left. apply Forall_fmap, Forall_forall. done.
    + right. apply Forall_fmap, Forall_forall. done.
  - assert (Hrow : 0 ≤ row pos < Z.of_nat (length b)).
    { unfold getValidMoves in Hms. apply bind_Ok in Hms as (v & Hv & _).
      by apply cell_Ok in Hv as [? _]. }
    destruct (getValidMoves_total b pos Hb Hrow) as (ms' & Hms' & _ & Hnone).
    rewrite Hms in Hms'. injection Hms' as <-. rewrite Hnone by done. by left.
Qed.

(** The moves of one piece, by the directions. *)
Lemma elem_of_getValidMoves (b : Board) (pos : Position) (piece : Piece) :
  has_rows b → piece_on b (row pos) (col pos) = Some piece →
  ∃ ms, getValidMoves b pos = Ok ms ∧
    ∀ m, m ∈ ms ↔
      ∃ d, legal_direction piece d ∧
        ((can_jump b pos piece d ∧ m = jump_move pos d)
         ∨ (can_step b pos d ∧ m = step_move pos d
            ∧ ∀ d', legal_direction piece d' → ¬ can_jump b pos piece d')).
Proof.
  intros Hb Hp.
  rewrite (getValidMoves_value b pos piece) by done.
  eexists. split; [done|]. intros m. cbv zeta.
  case_bool_decide as Hjumps.
  - rewrite list_elem_of_fmap. setoid_rewrite list_elem_of_filter.
    setoid_rewrite directions_of_legal. split.
    + intros (d & -> & ? & ?). exists d. eauto.
    + intros (d & Hd & [[? ->]|(_ & _ & Hno)]); [by eauto|].
      destruct (filter (can_jump b pos piece) (directions_of piece)) as [|d0 ds] eqn:E;
        [simpl in Hjumps; lia|].
      assert (d0 ∈ filter (can_jump b pos piece) (directions_of piece)) as Hd0
        by (rewrite E; left).
      apply list_elem_of_filter in Hd0 as [? Hd0%directions_of_legal].
      by destruct (Hno d0).
  - assert (filter (can_jump b pos piece) (directions_of piece) = []) as Hnone.
    { destruct (filter _ _); [done|]. simpl in Hjumps. lia. }
    rewrite list_elem_of_fmap. setoid_rewrite list_elem_of_filter.
    setoid_rewrite directions_of_legal. split.
    + intros (d & -> & ? & ?). exists d. split; [done|]. right.
      split; [done|]. split; [done|]. intros d' Hd' Hjump.
      assert (d' ∈ filter (can_jump b pos piece) (directions_of piece)) as Hin
        by (apply list_elem_of_filter; split; [done | by apply directions_of_legal]).
      rewrite Hnone in Hin. by apply elem_of_nil in Hin.
    + intros (d & Hd & [[Hjump ->]|(? & -> & _)]); [|by eauto].
      assert (d ∈ filter (can_jump b pos piece) (directions_of piece)) as Hin
        by (apply list_elem_of_filter; split; [done | by apply directions_of_legal]).
      rewrite Hnone in Hin. by apply elem_of_nil in Hin.
Qed.

(** X1. On an 8x8 board, [getValidMoves] for an occupied square returns
    exactly the moves of the rules for that piece alone: the jumps over an
    adjacent piece of another type into the empty square behind it, in
    the directions legal for the piece (towards row 0 for white, towards
    row 7 for black, both for a king), and, only when the piece has no
    such jump, the steps to an adjacent empty square in those
    directions. *)
Theorem getValidMoves_rules (b : Board) (pos : Position) (piece : Piece) :
  wf_board b → piece_on b (row pos) (col pos) = Some piece →
  ∃ ms, getValidMoves b pos = Ok ms ∧
    ∀ m, m ∈ ms ↔
      ∃ d, legal_direction piece d ∧
        ((can_jump b pos piece d ∧ m = jump_move pos d)
         ∨ (can_step b pos d ∧ m = step_move pos d
            ∧ ∀ d', legal_direction piece d' → ¬ can_jump b pos piece d')).
Proof. intros Hb%wf_board_has_rows. by apply elem_of_getValidMoves. Qed.

Lemma getValidMoves_rules_witness :
  wf_board capture_board
  ∧ piece_on capture_board 3 2 = Some (mkPiece black false)
  ∧ ∃ ms, getValidMoves capture_board (mkPosition 3 2) = Ok ms ∧
    ∀ m, m ∈ ms ↔
      ∃ d, legal_direction (mkPiece black false) d ∧
        ((can_jump capture_board (mkPosition 3 2) (mkPiece black false) d
          ∧ m = jump_move (mkPosition 3 2) d)
         ∨ (can_step capture_board (mkPosition 3 2) d
            ∧ m = step_move (mkPosition 3 2) d
            ∧ ∀ d', legal_direction (mkPiece black false) d' →
                    ¬ can_jump capture_board (mkPosition 3 2) (mkPiece black false) d')).
Proof.
  split; [exact wf_capture_board|]. split; [reflexivity|].
  apply (getValidMoves_rules capture_board (mkPosition 3 2) (mkPiece black false)).
  - exact wf_capture_board.
  - reflexivity.
Defined.

(** X2. On an 8x8 board, [getValidMoves] for a position that holds no
    piece of the board (an empty square, or a column or a row off the
    board) returns the empty list when the row is a row of the board, and
    throws a TypeError when it is not. *)
Theorem getValidMoves_no_piece (b : Board) (pos : Position) :
  wf_board b → piece_on b (row pos) (col pos) = None →
  getValidMoves b pos = if decide (0 ≤ row pos < 8) then Ok [] else TypeError.
Proof.
  intros Hwf Hempty. pose proof (wf_board_has_rows b Hwf) as Hb.
  assert (length b = 8%nat) as Hlen by apply Hwf.
  case_decide as Hrow.
  - destruct (getValidMoves_total b pos Hb) as (ms & Hms & _ & Hnone); [lia|].
    by rewrite Hms, Hnone.
  - unfold getValidMoves. rewrite cell_out_of_range by lia. done.
Qed.

Lemma getValidMoves_no_piece_witness :
  wf_board initial_board
  ∧ piece_on initial_board 8 1 = None
  ∧ getValidMoves initial_board (mkPosition 8 1)
    = if decide (0 ≤ 8 < 8) then Ok [] else TypeError.
Proof.
  split; [exact wf_initial_board|]. split; [reflexivity|].
  apply (getValidMoves_no_piece initial_board (mkPosition 8 1)).
  - exact wf_initial_board.
  - reflexivity.
Defined.

(** ** The moves of one piece among the moves of its side *)

Lemma mapM_Ok_Forall2 {A B : Type} (f : A → result B) (l : list A) (k : list B) :
  mapM f l = Ok k → Forall2 (λ x y, f x = Ok y) l k.
Proof.
  revert k. induction l as [|x l IH]; intros k; simpl.
  - intros [= <-]. constructor.
  - intros H. apply bind_Ok in H as (y & Hy & H).
    apply bind_Ok in H as (k' & Hk' & [= <-]). constructor; auto.
Qed.

Lemma existsb_Exists {A : Type} (f : A → bool) (l : list A) :
  existsb f l = true ↔ Exists (λ x, f x = true) l.
Proof.
  induction l as [|x l IH]; simpl.
  - split; [done | by intros ?%Exists_nil].
  - rewrite orb_true_iff, Exists_cons, IH. done.
Qed.

Lemma existsb_false_Forall {A : Type} (f : A → bool) (l : list A) :
  existsb f l = false ↔ Forall (λ x, f x = false) l.
Proof.
  induction l as [|x l IH]; simpl.
  - done.
  - rewrite orb_false_iff, Forall_cons, IH. done.
Qed.

Lemma filter_swap {A : Type} (P Q : A → Prop) `{∀ x, Decision (P x)}
    `{∀ x, Decision (Q x)} (l : list A) :
  filter P (filter Q l) = filter Q (filter P l).
Proof.
  rewrite !list_filter_filter. apply list_filter_iff. intros x. tauto.
Qed.

Lemma NoDup_squares : NoDup squares.
Proof. apply (bool_decide_unpack _). vm_compute. done. Qed.

Lemma NoDup_pieces_of (b : Board) (side : PieceType) : NoDup (pieces_of b side).
Proof. apply NoDup_filter, NoDup_squares. Qed.

(** In the concatenation of the per-piece move lists, the moves leaving
    from a square are the list of that square. *)
Lemma filter_concat_block (ps : list Position) (raw : list (list Move))
    (i : nat) (pos : Position) (ms : list Move) :
  NoDup ps →
  Forall2 (λ p ms, Forall (move_from p) ms) ps raw →
  ps !! i = Some pos → raw !! i = Some ms →
  filter (λ m, from m = pos) (concat raw) = ms.
Proof.
  intros Hnd Hshape. revert i. induction Hshape as [|p ms' ps raw Hp Hshape IH]; intros i.
  - done.
  - apply NoDup_cons in Hnd as [Hnotin Hnd]. simpl. rewrite filter_app.
    destruct i as [|i]; simpl.
    + intros [= ->] [= ->]. rewrite filter_all.
      * rewrite filter_none; [by rewrite app_nil_r|].
        apply Forall_forall. intros m Hm Hfrom.
        apply list_elem_of_In, in_concat in Hm as (l & Hl & Hm).
        apply list_elem_of_In, list_elem_of_lookup in Hl as (j & Hj).
        destruct (Forall2_lookup_r _ _ _ _ _ Hshape Hj) as (q & Hq & Hall).
        rewrite Forall_forall in Hall.
        apply list_elem_of_In in Hm. destruct (Hall m Hm) as [Hfrom' _].
        apply Hnotin. apply list_elem_of_lookup. exists j. congruence.
      * eapply Forall_impl; [done|]. by intros m [? _].
    + intros Hpos Hms. rewrite filter_none.
      * simpl. by apply (IH Hnd i).
      * eapply Forall_impl; [done|]. intros m [Hfrom _] Hfrom'.
        apply Hnotin. apply list_elem_of_lookup. exists i. congruence.
Qed.

(** The moves of a piece among the moves of its side. *)
Lemma side_moves_of_piece (b : Board) (side : PieceType) (pos : Position) :
  wf_board b → type_of (piece_on b (row pos) (col pos)) = Some side →
  ∃ all ms,
    getAllValidMoves b side = Ok all ∧ getValidMoves b pos = Ok ms
    ∧ filter (λ m, from m = pos) all
      = if existsb isCapture all && negb (existsb isCapture ms) then [] else ms.
Proof.
  intros Hwf Hside. pose proof (wf_board_has_rows b Hwf) as Hb.
  destruct (getAllValidMoves_candidates b side Hb) as (raw & Hraw & Hshape & Hall).
  assert (pos ∈ pieces_of b side) as Hin.
  { apply elem_of_pieces_of. split; [|done].
    destruct (piece_on b (row pos) (col pos)) as [p|] eqn:Hp; [|done].
    apply wf_board_piece_on in Hp; [|done]. by destruct pos. }
  apply list_elem_of_lookup in Hin as (i & Hi).
  apply mapM_Ok_Forall2 in Hraw.
  destruct (Forall2_lookup_l _ _ _ _ _ Hraw Hi) as (ms & Hms & Hget).
  exists (forced_capture (concat raw)), ms. split; [done|]. split; [done|].
  pose proof (filter_concat_block _ _ i pos ms (NoDup_pieces_of b side) Hshape Hi Hms)
    as Hblock.
  unfold forced_capture. case_decide as Hcap.
  - assert (existsb isCapture (filter (λ m, isCapture m = true) (concat raw)) = true)
      as ->.
    { apply existsb_Exists. apply Exists_exists in Hcap as (m & Hm & Hc).
      apply Exists_exists. exists m. split; [|done].
      by apply list_elem_of_filter. }
    rewrite filter_swap, Hblock. simpl.
    destruct (getValidMoves_uniform b pos ms Hb Hget) as [Hyes|Hno].
    + rewrite filter_all by done. destruct ms as [|m ms]; [by destruct (negb _)|].
      apply Forall_cons in Hyes as [Hm _]. simpl. by rewrite Hm.
    + rewrite filter_none by (eapply Forall_impl; [done|]; by intros m ->).
      by apply existsb_false_Forall in Hno as ->.
  - assert (existsb isCapture (concat raw) = false) as ->.
    { destruct (existsb isCapture (concat raw)) eqn:E; [|done].
      by apply existsb_Exists in E. }
    done.
Qed.

(** X3. On an 8x8 board, the moves that [getAllValidMoves] returns for a
    side and that leave from the square of one of its pieces are the
    moves of [getValidMoves] for that square, unless the side has a
    capture and that piece has none, in which case there are none. *)
Theorem getAllValidMoves_of_piece (b : Board) (side : PieceType) (pos : Position) :
  wf_board b → type_of (piece_on b (row pos) (col pos)) = Some side →
  ∃ all ms,
    getAllValidMoves b side = Ok all ∧ getValidMoves b pos = Ok ms
    ∧ filter (λ m, from m = pos) all
      = if existsb isCapture all && negb (existsb isCapture ms) then [] else ms.
Proof. apply side_moves_of_piece. Qed.

Lemma getAllValidMoves_of_piece_witness :
  wf_board capture_board
  ∧ type_of (piece_on capture_board 0 1) = Some black
  ∧ ∃ all ms,
      getAllValidMoves capture_board black = Ok all
      ∧ getValidMoves capture_board (mkPosition 0 1) = Ok ms
      ∧ filter (λ m, from m = mkPosition 0 1) all
        = if existsb isCapture all && negb (existsb isCapture ms) then [] else ms.
Proof.
  split; [exact wf_capture_board|]. split; [reflexivity|].
  apply (getAllValidMoves_of_piece capture_board black (mkPosition 0 1)).
  - exact wf_capture_board.
  - reflexivity.
Defined.


(** * The moves of a side *)

(** The candidate moves of a side: the moves of [getValidMoves] for its
    pieces. *)
Lemma elem_of_candidates (b : Board) (side : PieceType) (raw : list (list Move))
    (m : Move) :
  has_rows b → mapM (getValidMoves b) (pieces_of b side) = Ok raw →
  m ∈ concat raw
  ↔ ∃ pos piece ms,
      on_board pos ∧ piece_on b (row pos) (col pos) = Some piece ∧ type piece = side
      ∧ getValidMoves b pos = Ok ms ∧ m ∈ ms.
Proof.
  intros Hb Hraw. apply mapM_Ok_Forall2 in Hraw. split.
  - intros Hm. apply list_elem_of_In, in_concat in Hm as (ms & Hms & Hm).
    apply list_elem_of_In in Hm.
    apply list_elem_of_In, list_elem_of_lookup in Hms as (i & Hi).
    destruct (Forall2_lookup_r _ _ _ _ _ Hraw Hi) as (pos & Hpos & Hget).
    apply list_elem_of_lookup_2, elem_of_pieces_of in Hpos as [Hon Hside].
    destruct (piece_on b (row pos) (col pos)) as [piece|] eqn:Hp; [|done].
    injection Hside as Hside. exists pos, piece, ms. done.
  - intros (pos & piece & ms & Hon & Hp & Hside & Hget & Hm).
    assert (pos ∈ pieces_of b side) as Hpos.
    { apply elem_of_pieces_of. split; [done|]. rewrite Hp. simpl. by rewrite Hside. }
    apply list_elem_of_lookup in Hpos as (i & Hi).
    destruct (Forall2_lookup_l _ _ _ _ _ Hraw Hi) as (ms' & Hms' & Hget').
    rewrite Hget in Hget'. injection Hget' as <-.
    apply list_elem_of_In, in_concat. exists ms.
    split; apply list_elem_of_In; [by eapply list_elem_of_lookup_2 | done].
Qed.

(** X4. On an 8x8 board, [getAllValidMoves] returns for a side exactly
    the moves of the rules: the jumps of the pieces of the side, over an
    adjacent piece of another type into the empty square behind it, in a
    direction legal for the piece; and, only when no piece of the side
    has such a jump, their steps to an adjacent empty square in a legal
    direction. *)
Theorem getAllValidMoves_rules (b : Board) (side : PieceType) :
  wf_board b →
  ∃ ms, getAllValidMoves b side = Ok ms ∧
    ∀ m, m ∈ ms ↔
      ∃ pos piece d,
        on_board pos ∧ piece_on b (row pos) (col pos) = Some piece ∧ type piece = side
        ∧ legal_direction piece d
        ∧ ((can_jump b pos piece d ∧ m = jump_move pos d)
           ∨ (can_step b pos d ∧ m = step_move pos d
              ∧ ∀ pos' piece' d',
                  on_board pos' → piece_on b (row pos') (col pos') = Some piece' →
                  type piece' = side → legal_direction piece' d' →
                  ¬ can_jump b pos' piece' d')).
Proof.
  intros Hb%wf_board_has_rows.
  destruct (getAllValidMoves_candidates b side Hb) as (raw & Hraw & _ & ->).
  eexists. split; [done|]. intros m.
  pose proof (elem_of_candidates b side raw) as Hcand.
  assert (Exists (λ m, isCapture m = true) (concat raw)
          ↔ ∃ pos piece d,
              on_board pos ∧ piece_on b (row pos) (col pos) = Some piece
              ∧ type piece = side ∧ legal_direction piece d ∧ can_jump b pos piece d)
    as Hcap.
  { rewrite Exists_exists. split.
    - intros (m' & Hm' & Hc). apply (Hcand m' Hb Hraw) in Hm'
        as (pos & piece & ms & Hon & Hp & Hside & Hget & Hm').
      destruct (elem_of_getValidMoves b pos piece Hb Hp) as (ms' & Hget' & Hiff).
      rewrite Hget in Hget'. injection Hget' as <-.
      apply Hiff in Hm' as (d & Hd & [[Hjump _]|(_ & -> & _)]); [|done].
      exists pos, piece, d. done.
    - intros (pos & piece & d & Hon & Hp & Hside & Hd & Hjump).
      exists (jump_move pos d). split; [|done].
      apply (Hcand _ Hb Hraw).
      destruct (elem_of_getValidMoves b pos piece Hb Hp)
        as (ms & Hget & Hiff).
      exists pos, piece, ms. repeat (split; [done|]). apply Hiff. eauto. }
  unfold forced_capture. case_decide as Hex.
  - rewrite list_elem_of_filter, (Hcand m Hb Hraw). split.
    + intros (Hc & pos & piece & ms & Hon & Hp & Hside & Hget & Hm).
      destruct (elem_of_getValidMoves b pos piece Hb Hp) as (ms' & Hget' & Hiff).
      rewrite Hget in Hget'. injection Hget' as <-.
      apply Hiff in Hm as (d & Hd & [[Hjump ->]|(_ & -> & _)]); [|done].
      exists pos, piece, d. eauto 10.
    + intros (pos & piece & d & Hon & Hp & Hside & Hd & [[Hjump ->]|(_ & _ & Hno)]).
      * split; [done|].
        destruct (elem_of_getValidMoves b pos piece Hb Hp)
          as (ms & Hget & Hiff).
        exists pos, piece, ms. repeat (split; [done|]). apply Hiff. eauto.
      * apply Hcap in Hex as (pos' & piece' & d' & ? & ? & ? & ? & ?).
        destruct (Hno pos' piece' d'); done.
  - rewrite (Hcand m Hb Hraw). split.
    + intros (pos & piece & ms & Hon & Hp & Hside & Hget & Hm).
      destruct (elem_of_getValidMoves b pos piece Hb Hp) as (ms' & Hget' & Hiff).
      rewrite Hget in Hget'. injection Hget' as <-.
      apply Hiff in Hm as (d & Hd & [[Hjump ->]|(Hstep & -> & _)]).
      * destruct Hex. apply Hcap. exists pos, piece, d. done.
      * exists pos, piece, d. repeat (split; [done|]). right.
        split; [done|]. split; [done|].
        intros pos' piece' d' ? ? ? ? Hjump. apply Hex, Hcap.
        exists pos', piece', d'. done.
    + intros (pos & piece & d & Hon & Hp & Hside & Hd & Hshape).
      destruct (elem_of_getValidMoves b pos piece Hb Hp) as (ms & Hget & Hiff).
      exists pos, piece, ms. repeat (split; [done|]). apply Hiff.
      exists d. split; [done|].
      destruct Hshape as [[Hjump ->]|(Hstep & -> & Hno)]; [by left|].
      right. split; [done|]. split; [done|]. intros d' Hd'. by apply (Hno pos piece d').
Qed.

Lemma getAllValidMoves_rules_witness :
  wf_board capture_board
  ∧ ∃ ms, getAllValidMoves capture_board black = Ok ms ∧
    ∀ m, m ∈ ms ↔
      ∃ pos piece d,
        on_board pos ∧ piece_on capture_board (row pos) (col pos) = Some piece
        ∧ type piece = black
        ∧ legal_direction piece d
        ∧ ((can_jump capture_board pos piece d ∧ m = jump_move pos d)
           ∨ (can_step capture_board pos d ∧ m = step_move pos d
              ∧ ∀ pos' piece' d',
                  on_board pos' →
                  piece_on capture_board (row pos') (col pos') = Some piece' →
                  type piece' = black → legal_direction piece' d' →
                  ¬ can_jump capture_board pos' piece' d')).
Proof.
  split; [exact wf_capture_board|].
  exact (getAllValidMoves_rules capture_board black wf_capture_board).
Defined.


(** * makeMove on any move *)

(** The loop over the captured squares returns when their rows are rows
    of the board, and throws when one is not. *)
Lemma clear_loop_throws (cs : list Position) (nb : Board) :
  Exists (λ pos, ¬ 0 ≤ row pos < Z.of_nat (length nb)) cs →
  for_each cs (λ nb pos, set_cell nb (row pos) (col pos) None) nb = TypeError.
Proof.
  revert nb. induction cs as [|pos cs IH]; intros nb Hcs.
  - by apply Exists_nil in Hcs.
  - cbn [for_each].
    destruct (decide (0 ≤ row pos < Z.of_nat (length nb))) as [Hpos|Hpos].
    + destruct (set_cell_in_range nb (row pos) (col pos) None Hpos)
        as (nb1 & -> & Hlen & _).
      cbn [mbind result_bind]. apply IH. rewrite Hlen.
      apply Exists_cons in Hcs as [?|?]; done.
    + by rewrite set_cell_out_of_range.
Qed.

(** X5. For every board and every move, [makeMove] throws a TypeError
    exactly when the row of the origin is not a row of the board, or the
    origin holds a piece and the row of the destination or of a captured
    square is not a row of the board; a column off the board never makes
    it throw.  When the origin is in a row of the board and holds no
    piece, it returns a copy of the board as it is, whatever the
    destination and the captured squares. *)
Theorem makeMove_throws (b : Board) (m : Move) :
  (makeMove b m = TypeError
   ↔ ¬ 0 ≤ row (from m) < Z.of_nat (length b)
     ∨ (is_Some (piece_on b (row (from m)) (col (from m)))
        ∧ (¬ 0 ≤ row (to m) < Z.of_nat (length b)
           ∨ Exists (λ pos, ¬ 0 ≤ row pos < Z.of_nat (length b)) (captured_squares m))))
  ∧ (0 ≤ row (from m) < Z.of_nat (length b) →
     piece_on b (row (from m)) (col (from m)) = None → makeMove b m = Ok b).
Proof.
  destruct (decide (0 ≤ row (from m) < Z.of_nat (length b))) as [Hfrom|Hfrom].
  2: { split; [|done]. split; [by left|]. intros _. unfold makeMove.
       rewrite copy_board_id, cell_out_of_range by done. done. }
  unfold makeMove. rewrite copy_board_id, cell_in_range by done.
  cbn [mbind result_bind].
  destruct (piece_on b (row (from m)) (col (from m))) as [p|] eqn:Hp.
  2: { split; [|done]. split; [done|]. intros [?|[[? [=]] _]]. done. }
  split; [|done].
  destruct (decide (0 ≤ row (to m) < Z.of_nat (length b))) as [Hto|Hto].
  2: { rewrite set_cell_out_of_range by done. split; [|done]. intros _. right.
       split; [by eexists | by left]. }
  destruct (set_cell_in_range b (row (to m)) (col (to m)) (Some p) Hto)
    as (b1 & -> & Hlen1 & _). cbn [mbind result_bind].
  destruct (set_cell_in_range b1 (row (from m)) (col (from m)) None)
    as (b2 & -> & Hlen2 & _); [by rewrite Hlen1|]. cbn [mbind result_bind].
  destruct (decide (Exists (λ pos, ¬ 0 ≤ row pos < Z.of_nat (length b))
                      (captured_squares m))) as [Hcs|Hcs].
  - unfold captured_squares in Hcs.
    destruct (captured m) as [cs|] eqn:Hcap;
      [|simpl in Hcs; by apply Exists_nil in Hcs]. simpl in Hcs.
    rewrite clear_loop_throws by (by rewrite Hlen2, Hlen1).
    split; [|done]. intros _. right. split; [by eexists|]. right.
    unfold captured_squares. by rewrite Hcap.
  - assert (∃ b3, match captured m with
                  | Some cs =>
                      for_each cs (λ nb pos, set_cell nb (row pos) (col pos) None) b2
                  | None => Ok b2
                  end = Ok b3 ∧ length b3 = length b) as (b3 & -> & Hlen3).
    { unfold captured_squares in Hcs. destruct (captured m) as [cs|]; simpl in Hcs.
      - destruct (clear_loop cs b2) as (b3 & -> & Hlen3 & _).
        + apply Forall_forall. intros pos Hpos. rewrite Hlen2, Hlen1.
          destruct (decide (0 ≤ row pos < Z.of_nat (length b))); [done|].
          destruct Hcs. apply Exists_exists. eauto.
        + exists b3. split; [done|]. congruence.
      - exists b2. split; [done|]. congruence. }
    cbn [mbind result_bind].
    destruct (set_cell_in_range b3 (row (to m)) (col (to m))
                (Some (mkPiece (type p) true))) as (b4 & Hset & _);
      [by rewrite Hlen3|].
    split.
    + intros Hthrow. exfalso. rewrite Hset in Hthrow. by repeat case_decide.
    + intros [?|[_ [?|?]]]; done.
Qed.

(** X6. For every move, legal or not, [makeMove] called on a board of
    the store leaves every object of the store as it was, whether it
    returns or throws, and the input still denotes the same board; it
    throws exactly when the computation on values throws; and when it
    returns, the result is another reference than the input, to a board
    made of objects the call allocated, with distinct rows, none of
    which, and none of whose pieces, belongs to the store of the call: it
    denotes the board the computation on values gives. *)
Theorem makeMove_fresh (σ : list Store.object) (board : nat) (b : Board) (m : Move) :
  Store.board_at σ board = Some b →
  σ `prefix_of` Store.final_store (Store.makeMove board m σ)
  ∧ Store.board_at (Store.final_store (Store.makeMove board m σ)) board = Some b
  ∧ match makeMove b m with
    | Ok b' =>
        ∃ board' σ',
          Store.makeMove board m σ = Store.Return board' σ'
          ∧ board' ≠ board
          ∧ Store.fresh_board σ σ' board' b'
          ∧ Store.board_at σ' board' = Some b'
    | TypeError => ∃ σ', Store.makeMove board m σ = Store.Throw σ'
    end.
Proof.
  intros Hb. destruct (makeMove_input_unchanged σ board b m Hb) as [Hpre Hsame].
  split; [done|]. split; [done|].
  pose proof (makeMove_refines σ board b m Hb) as H.
  destruct (makeMove b m) as [b'|].
  - destruct H as (nb & σ' & Hrun & Hfresh). exists nb, σ'.
    split; [done|]. split; [|split; [done | by eapply fresh_board_board_at]].
    destruct Hfresh as (_ & Hnew & _).
    apply board_at_Some in Hb as (rows & Hrows & _).
    apply lookup_lt_Some in Hrows. lia.
  - destruct H as (σ' & Hrun & _). eauto.
Qed.

Lemma makeMove_fresh_witness :
  Store.board_at initial_store initial_ref = Some initial_board
  ∧ initial_store
      `prefix_of` Store.final_store (Store.makeMove initial_ref standing_move initial_store)
  ∧ Store.board_at
      (Store.final_store (Store.makeMove initial_ref standing_move initial_store))
      initial_ref = Some initial_board
  ∧ match makeMove initial_board standing_move with
    | Ok b' =>
        ∃ board' σ',
          Store.makeMove initial_ref standing_move initial_store = Store.Return board' σ'
          ∧ board' ≠ initial_ref
          ∧ Store.fresh_board initial_store σ' board' b'
          ∧ Store.board_at σ' board' = Some b'
    | TypeError =>
        ∃ σ', Store.makeMove initial_ref standing_move initial_store = Store.Throw σ'
    end.
Proof.
  assert (Store.board_at initial_store initial_ref = Some initial_board) as Hb
    by (vm_compute; reflexivity).
  split; [exact Hb|].
  exact (makeMove_fresh initial_store initial_ref initial_board standing_move Hb).
Defined.


(** * The piece counts *)

(** The cells of an 8x8 board, row by row, are what the 64 squares
    hold. *)
Lemma squares_cells (b : Board) :
  wf_board b → (λ pos, piece_on b (row pos) (col pos)) <$> squares = concat b.
Proof.
  intros [Hlen Hrows].
  do 9 (destruct b as [|? b]; [try (simpl in Hlen; discriminate Hlen)|]);
    [|simpl in Hlen; discriminate Hlen].
  repeat match goal with
  | H : Forall _ (_ :: _) |- _ => apply Forall_cons in H as [? H]
  end.
  repeat match goal with
  | H : length ?l = Z.to_nat BOARD_SIZE |- _ =>
      do 9 (destruct l as [|? l]; [try (simpl in H; discriminate H)|]);
        [|simpl in H; discriminate H]; clear H
  end.
  reflexivity.
Qed.

(** The loops of [countPieces] over a list of cells. *)
Lemma countPieces_cells (t : PieceType) (cells : list (option Piece)) (count kings : Z) :
  foldl (λ '(count, kings) (cell : option Piece),
      match cell with
      | Some piece =>
          if decide (type piece = t) then
            (count + 1, if isKing piece then kings + 1 else kings)
          else (count, kings)
      | None => (count, kings)
      end) (count, kings) cells
  = (count + Z.of_nat (length (filter (λ c, type_of c = Some t) cells)),
     kings + Z.of_nat (length (filter (λ c, type_of c = Some t
                                            ∧ (isKing <$> c) = Some true) cells))).
Proof.
  revert count kings. induction cells as [|c cells IH]; intros count kings; simpl.
  - f_equal; lia.
  - rewrite !filter_cons. destruct c as [p|]; simpl.
    + destruct (decide (type p = t)) as [Ht|Ht]; rewrite IH;
        destruct (isKing p) eqn:Hk; repeat case_decide;
        destruct_and?; simplify_eq/=; try (f_equal; lia);
        try (exfalso; auto; fail).
    + rewrite IH. repeat case_decide; destruct_and?; simplify_eq/=. done.
Qed.

Lemma countPieces_rows (t : PieceType) (b : list (list (option Piece))) (acc : Z * Z) :
  foldl (λ acc (cells : list (option Piece)),
      foldl (λ '(count, kings) (cell : option Piece),
        match cell with
        | Some piece =>
            if decide (type piece = t) then
              (count + 1, if isKing piece then kings + 1 else kings)
            else (count, kings)
        | None => (count, kings)
        end) acc cells) acc b
  = foldl (λ '(count, kings) (cell : option Piece),
        match cell with
        | Some piece =>
            if decide (type piece = t) then
              (count + 1, if isKing piece then kings + 1 else kings)
            else (count, kings)
        | None => (count, kings)
        end) acc (concat b).
Proof.
  revert acc. induction b as [|cells b IH]; intros acc; simpl; [done|].
  by rewrite foldl_app, IH.
Qed.

(** [countPieces] on any board: the cells of the type, and the kings among
    them. *)
Lemma countPieces_value (b : Board) (t : PieceType) :
  countPieces b t
  = mkPieceCount
      (Z.of_nat (length (filter (λ c, type_of c = Some t) (concat b))))
      (Z.of_nat (length (filter (λ c, type_of c = Some t ∧ (isKing <$> c) = Some true)
                           (concat b)))).
Proof.
  unfold countPieces. rewrite countPieces_rows, countPieces_cells. done.
Qed.

Lemma length_filter_fmap {A B : Type} (f : A → B) (P : B → Prop)
    `{∀ x, Decision (P x)} (l : list A) :
  length (filter P (f <$> l)) = length (filter (λ x, P (f x)) l).
Proof.
  induction l as [|x l IH]; [done|].
  rewrite fmap_cons, !filter_cons. case_decide; cbn [length]; by rewrite IH.
Qed.

(** On an 8x8 board the total is the number of squares of the type. *)
Lemma countPieces_total (b : Board) (t : PieceType) :
  wf_board b → total (countPieces b t) = Z.of_nat (length (pieces_of b t)).
Proof.
  intros Hwf. rewrite countPieces_value. simpl.
  rewrite <- (squares_cells b Hwf).
  rewrite (length_filter_fmap (λ pos, piece_on b (row pos) (col pos))
             (λ c, type_of c = Some t)).
  done.
Qed.

Lemma length_filter_le {A : Type} (P Q : A → Prop) `{∀ x, Decision (P x)}
    `{∀ x, Decision (Q x)} (l : list A) :
  (∀ x, P x → Q x) → (length (filter P l) ≤ length (filter Q l))%nat.
Proof.
  intros HPQ. induction l as [|x l IH]; [done|].
  rewrite !filter_cons. destruct (decide (P x)) as [HP|HP].
  - rewrite decide_True by auto. simpl. lia.
  - case_decide; simpl; lia.
Qed.

(** X7. On an 8x8 board the counting loops of [checkWinner] find, for
    white and for black, the totals that [countPieces] of the status panel
    reports; and on any board the kings [countPieces] reports for a type
    are at most its total. *)
Theorem countPieces_checkWinner_counts (b : Board) :
  (wf_board b →
   count_pieces b = Ok (total (countPieces b white), total (countPieces b black)))
  ∧ ∀ t, 0 ≤ kings (countPieces b t) ≤ total (countPieces b t).
Proof.
  split.
  - intros Hwf. rewrite count_pieces_total by by apply wf_board_has_rows.
    by rewrite !countPieces_total.
  - intros t. rewrite countPieces_value. simpl. split; [lia|].
    apply inj_le, length_filter_le. tauto.
Qed.

Lemma countPieces_checkWinner_counts_witness :
  wf_board initial_board
  ∧ count_pieces initial_board
    = Ok (total (countPieces initial_board white), total (countPieces initial_board black))
  ∧ ∀ t, 0 ≤ kings (countPieces initial_board t) ≤ total (countPieces initial_board t).
Proof.
  split; [exact wf_initial_board|].
  destruct (countPieces_checkWinner_counts initial_board) as [Hcount Hkings].
  split; [exact (Hcount wf_initial_board) | exact Hkings].
Defined.

(** A board of one row of two cells, with a black king and a black man:
    [countPieces] reports two black pieces, one of them a king. *)
Example countPieces_ragged :
  countPieces [[Some (mkPiece black true); Some (mkPiece black false)]] black
  = mkPieceCount 2 1.
Proof. reflexivity. Qed.

(** ** The counts across a move *)

Lemma filter_ext_in {A : Type} (P Q : A → Prop) `{∀ x, Decision (P x)}
    `{∀ x, Decision (Q x)} (l : list A) :
  Forall (λ x, P x ↔ Q x) l → filter P l = filter Q l.
Proof.
  induction 1 as [|x l Hx _ IH]; [done|].
  rewrite !filter_cons, IH. destruct (decide (P x)).
  - by rewrite decide_True by tauto.
  - by rewrite decide_False by tauto.
Qed.

(** Changing what one square holds changes the count of a type by what
    the square held and holds. *)
Lemma count_update (t : PieceType) (f g : Position → option Piece)
    (l : list Position) (x : Position) :
  NoDup l → x ∈ l → (∀ y, y ≠ x → g y = f y) →
  Z.of_nat (length (filter (λ y, type_of (g y) = Some t) l))
  = Z.of_nat (length (filter (λ y, type_of (f y) = Some t) l))
    - (if decide (type_of (f x) = Some t) then 1 else 0)
    + (if decide (type_of (g x) = Some t) then 1 else 0).
Proof.
  intros Hnd Hx Hfg. induction l as [|y l IH]; [by apply elem_of_nil in Hx|].
  apply NoDup_cons in Hnd as [Hy Hnd]. rewrite !filter_cons.
  destruct (decide (y = x)) as [->|Hne].
  - assert (filter (λ y, type_of (g y) = Some t) l
            = filter (λ y, type_of (f y) = Some t) l) as ->.
    { apply filter_ext_in, Forall_forall. intros z Hz.
      rewrite Hfg; [done|]. intros ->. done. }
    cbv beta. repeat case_decide; cbn [length]; try lia; done.
  - apply elem_of_cons in Hx as [->|Hx]; [done|].
    specialize (IH Hnd Hx). rewrite (Hfg y Hne).
    destruct (decide (type_of (f x) = Some t)), (decide (type_of (g x) = Some t));
      cbv beta; case_decide; cbn [length]; lia.
Qed.

Lemma type_promote (p : Piece) (r : Z) : type (promote p r) = type p.
Proof. unfold promote. by case_decide. Qed.

(** A move of [getAllValidMoves] is a jump or a step of a piece of the
    side, allowed by the board. *)
Lemma getAllValidMoves_generated (b : Board) (side : PieceType) (ms : list Move) (m : Move) :
  has_rows b → getAllValidMoves b side = Ok ms → m ∈ ms →
  ∃ pos piece d,
    on_board pos ∧ piece_on b (row pos) (col pos) = Some piece ∧ type piece = side
    ∧ legal_direction piece d
    ∧ ((can_jump b pos piece d ∧ m = jump_move pos d)
       ∨ (can_step b pos d ∧ m = step_move pos d)).
Proof.
  intros Hb Hms Hm.
  destruct (getAllValidMoves_candidates b side Hb) as (raw & Hraw & _ & Hall).
  rewrite Hms in Hall. injection Hall as ->.
  apply forced_capture_subseteq in Hm.
  apply list_elem_of_In, in_concat in Hm as (l & Hl & Hm).
  apply list_elem_of_In in Hm.
  apply list_elem_of_In, list_elem_of_lookup in Hl as (i & Hi).
  apply mapM_Ok_Forall2 in Hraw.
  destruct (Forall2_lookup_r _ _ _ _ _ Hraw Hi) as (pos & Hpos & Hget).
  apply list_elem_of_lookup_2, elem_of_pieces_of in Hpos as [Hon Hside].
  destruct (piece_on b (row pos) (col pos)) as [piece|] eqn:Hp; [|done].
  injection Hside as Hside.
  rewrite (getValidMoves_value b pos piece) in Hget by done.
  injection Hget as <-. cbv zeta in Hm.
  case_bool_decide; apply list_elem_of_fmap in Hm as (d & -> & Hd);
    apply list_elem_of_filter in Hd as [Hcan Hd%directions_of_legal];
    exists pos, piece, d; eauto 10.
Qed.

Lemma neighbour_ne (pos : Position) (d : Z * Z) :
  (d.1 = -1 ∨ d.1 = 1) → neighbour pos d ≠ pos
  ∧ neighbour (neighbour pos d) d ≠ pos
  ∧ neighbour (neighbour pos d) d ≠ neighbour pos d.
Proof.
  intros Hd. destruct pos as [r c], d as [dRow dCol]. unfold neighbour. simpl in *.
  repeat split; intros [= ? ?]; lia.
Qed.

Lemma legal_direction_step (piece : Piece) (d : Z * Z) :
  legal_direction piece d → d.1 = -1 ∨ d.1 = 1.
Proof. intros [_ [[? _]|[? _]]]; auto. Qed.

(** The count of a type after a step: what the board holds changes on the
    destination and on the origin. *)
Lemma count_after_step (b b' : Board) (t : PieceType) (pos n : Position) (p p' : Piece) :
  on_board pos → on_board n → n ≠ pos →
  piece_on b (row pos) (col pos) = Some p → type p' = type p →
  piece_on b (row n) (col n) = None →
  (∀ y, piece_on b' (row y) (col y)
        = if decide (y = n) then Some p'
          else if decide (y = pos) then None else piece_on b (row y) (col y)) →
  Z.of_nat (length (pieces_of b' t)) = Z.of_nat (length (pieces_of b t)).
Proof.
  intros Hpos Hn Hne Hp Hty Hempty Hread. unfold pieces_of.
  pose (f1 := λ y, if decide (y = n) then Some p' else piece_on b (row y) (col y)).
  rewrite (count_update t f1 (λ y, piece_on b' (row y) (col y)) squares pos
             NoDup_squares); [|by apply elem_of_squares|].
  2: { intros y Hy. rewrite Hread. unfold f1. by rewrite (decide_False (P := y = pos)). }
  rewrite (count_update t (λ y, piece_on b (row y) (col y)) f1 squares n
             NoDup_squares); [|by apply elem_of_squares|].
  2: { intros y Hy. unfold f1. by rewrite decide_False. }
  rewrite Hread, Hempty. unfold f1.
  rewrite !(decide_True (P := n = n)) by done.
  rewrite !(decide_False (P := pos = n)) by done.
  rewrite !(decide_True (P := pos = pos)) by done.
  rewrite Hp. simpl. rewrite Hty.
  destruct (decide (Some (type p) = Some t)); lia.
Qed.

(** The count of a type after a jump: the square jumped over is emptied
    as well. *)
Lemma count_after_jump (b b' : Board) (t : PieceType) (pos n l : Position)
    (p p' other : Piece) :
  on_board pos → on_board n → on_board l → n ≠ pos → l ≠ pos → l ≠ n →
  piece_on b (row pos) (col pos) = Some p → type p' = type p →
  piece_on b (row n) (col n) = Some other →
  piece_on b (row l) (col l) = None →
  (∀ y, piece_on b' (row y) (col y)
        = if decide (y = l) then Some p'
          else if decide (y = n ∨ y = pos) then None else piece_on b (row y) (col y)) →
  Z.of_nat (length (pieces_of b' t))
  = Z.of_nat (length (pieces_of b t)) - (if decide (type other = t) then 1 else 0).
Proof.
  intros Hpos Hn Hl Hne1 Hne2 Hne3 Hp Hty Hother Hempty Hread. unfold pieces_of.
  pose (f1 := λ y, if decide (y = l) then Some p' else piece_on b (row y) (col y)).
  pose (f2 := λ y, if decide (y = l) then Some p'
                   else if decide (y = pos) then None else piece_on b (row y) (col y)).
  rewrite (count_update t f2 (λ y, piece_on b' (row y) (col y)) squares n
             NoDup_squares); [|by apply elem_of_squares|].
  2: { intros y Hy. rewrite Hread. unfold f2. destruct (decide (y = l)); [done|].
       destruct (decide (y = pos)).
       - by rewrite decide_True by auto.
       - by rewrite decide_False by tauto. }
  rewrite (count_update t f1 f2 squares pos NoDup_squares); [|by apply elem_of_squares|].
  2: { intros y Hy. unfold f1, f2. by rewrite (decide_False (P := y = pos)). }
  rewrite (count_update t (λ y, piece_on b (row y) (col y)) f1 squares l
             NoDup_squares); [|by apply elem_of_squares|].
  2: { intros y Hy. unfold f1. by rewrite decide_False. }
  rewrite Hread, Hempty. unfold f1, f2.
  rewrite !(decide_True (P := l = l)) by done.
  rewrite !(decide_False (P := n = l)) by done.
  rewrite !(decide_False (P := pos = l)) by done.
  rewrite !(decide_True (P := pos = pos)) by done.
  rewrite (decide_False (P := n = pos)) by done.
  rewrite (decide_True (P := n = n ∨ n = pos)) by auto.
  rewrite Hp, Hother. simpl. rewrite Hty.
  destruct (decide (Some (type p) = Some t)),
           (decide (Some (type other) = Some t)), (decide (type other = t));
    simplify_eq/=; try lia; done.
Qed.

(** X8. On an 8x8 board, [makeMove] applied to a move that
    [getAllValidMoves] returns for a side gives a board on which
    [countPieces] reports, for every type, the former total less the
    captured squares that held a piece of that type; the total of the
    side that moves is unchanged, and every captured square held a piece
    of another type. *)
Theorem makeMove_piece_counts (b : Board) (side : PieceType) (ms : list Move) (m : Move) :
  wf_board b → getAllValidMoves b side = Ok ms → m ∈ ms →
  ∃ b', makeMove b m = Ok b'
    ∧ (∀ t, total (countPieces b' t)
            = total (countPieces b t)
              - Z.of_nat (length (holding b t (captured_squares m))))
    ∧ total (countPieces b' side) = total (countPieces b side)
    ∧ Forall (λ pos, ∃ other, piece_on b (row pos) (col pos) = Some other
                              ∧ type other ≠ side) (captured_squares m).
Proof.
  intros Hwf Hms Hm. pose proof (wf_board_has_rows b Hwf) as Hb.
  destruct (getAllValidMoves_generated b side ms m Hb Hms Hm)
    as (pos & piece & d & Hpos & Hpiece & Hside & Hd & Hshape).
  destruct (getAllValidMoves_total b side Hb) as (ms' & Hms' & Hall).
  rewrite Hms in Hms'. injection Hms' as <-.
  rewrite Forall_forall in Hall. specialize (Hall m Hm).
  destruct (makeMove_moved_by b side m Hb Hall)
    as (p & b' & Hp & Hty & Hmk & Hlen & Hread).
  destruct Hall as [_ Hfrom].
  destruct (move_from_squares _ _ Hfrom) as (Hto & Hcs & _).
  assert (wf_board b') as Hwf' by (by eapply makeMove_wf).
  pose proof (neighbour_ne pos d (legal_direction_step _ _ Hd)) as (Hne1 & Hne2 & Hne3).
  assert (∀ t, Z.of_nat (length (pieces_of b' t))
               = Z.of_nat (length (pieces_of b t))
                 - Z.of_nat (length (holding b t (captured_squares m)))
          ∧ Forall (λ pos, ∃ other, piece_on b (row pos) (col pos) = Some other
                                    ∧ type other ≠ side) (captured_squares m))
    as Hcount.
  { intros t. destruct Hshape as [[Hjump ->]|[Hstep ->]].
    - destruct Hjump as (Hn & (other & Hother & Hdiff) & Hl & Hempty).
      simpl in Hp. rewrite Hpiece in Hp. injection Hp as <-.
      unfold captured_squares, holding. simpl.
      rewrite (count_after_jump b b' t pos (neighbour pos d)
                 (neighbour (neighbour pos d) d) piece
                 (promote piece (row (neighbour (neighbour pos d) d))) other);
        try done.
      + split.
        * rewrite filter_cons, filter_nil. rewrite Hother. simpl.
          destruct (decide (type other = t)).
          -- by rewrite decide_True by congruence.
          -- by rewrite decide_False by congruence.
        * apply Forall_singleton. exists other. split; [done | congruence].
      + apply type_promote.
      + intros y. rewrite Hread. simpl. unfold captured_squares. simpl.
        rewrite position_eta. destruct (decide (y = neighbour (neighbour pos d) d)); [done|].
        destruct (decide (y = neighbour pos d ∨ y = pos)) as [Hy|Hy].
        * rewrite decide_True; [done|]. rewrite list_elem_of_singleton. done.
        * rewrite decide_False; [done|]. rewrite list_elem_of_singleton. done.
    - destruct Hstep as (Hn & Hempty).
      simpl in Hp. rewrite Hpiece in Hp. injection Hp as <-.
      unfold captured_squares, holding. simpl.
      rewrite (count_after_step b b' t pos (neighbour pos d) piece
                 (promote piece (row (neighbour pos d)))); try done.
      + split; [lia | constructor].
      + apply type_promote.
      + intros y. rewrite Hread. simpl. unfold captured_squares. simpl.
        rewrite position_eta. destruct (decide (y = neighbour pos d)); [done|].
        destruct (decide (y = pos)) as [Hy|Hy].
        * rewrite decide_True; [done|]. by right.
        * rewrite decide_False; [done|]. intros [[]%elem_of_nil|]; done. }
  exists b'. split; [done|].
  assert (Forall (λ pos, ∃ other, piece_on b (row pos) (col pos) = Some other
                                  ∧ type other ≠ side) (captured_squares m)) as Hcap
    by apply (Hcount side).
  split; [|split; [|done]].
  - intros t. rewrite !countPieces_total by done. apply Hcount.
  - rewrite !countPieces_total by done.
    destruct (Hcount side) as [-> _].
    assert (holding b side (captured_squares m) = []) as ->; [|simpl; lia].
    apply filter_none. eapply Forall_impl; [exact Hcap|].
    intros y (other & -> & Hne). simpl. congruence.
Qed.

Lemma makeMove_piece_counts_witness :
  wf_board capture_board
  ∧ getAllValidMoves capture_board black
    = Ok [mkMove (mkPosition 3 2) (mkPosition 5 4) (Some [mkPosition 4 3])]
  ∧ ∃ b', makeMove capture_board
            (mkMove (mkPosition 3 2) (mkPosition 5 4) (Some [mkPosition 4 3])) = Ok b'
    ∧ (∀ t, total (countPieces b' t)
            = total (countPieces capture_board t)
              - Z.of_nat (length (holding capture_board t
                    (captured_squares
                       (mkMove (mkPosition 3 2) (mkPosition 5 4) (Some [mkPosition 4 3]))))))
    ∧ total (countPieces b' black) = total (countPieces capture_board black)
    ∧ Forall (λ pos, ∃ other, piece_on capture_board (row pos) (col pos) = Some other
                              ∧ type other ≠ black)
        (captured_squares
           (mkMove (mkPosition 3 2) (mkPosition 5 4) (Some [mkPosition 4 3]))).
Proof.
  split; [exact wf_capture_board|]. split; [reflexivity|].
  apply (makeMove_piece_counts capture_board black
           [mkMove (mkPosition 3 2) (mkPosition 5 4) (Some [mkPosition 4 3])]).
  - exact wf_capture_board.
  - reflexivity.
  - apply list_elem_of_singleton. reflexivity.
Defined.


(** * The range of the scores *)

(** The loop of [evaluateBoard] over a list of squares: a black piece adds
    between 10 and 17, any other piece takes between 10 and 17 away. *)
Lemma evaluate_loop (b : Board) (sqs : list Position) (s : Z) :
  has_rows b → Forall on_board sqs →
  ∃ s',
    for_each sqs (λ acc p, piece ← cell b (row p) (col p);
       match piece with
       | Some piece =>
           let pieceValue := if isKing piece then 15 else 10 in
           let positionBonus :=
             if isKing piece then 0
             else if decide (type piece = black) then row p
             else BOARD_SIZE - 1 - row p in
           if decide (type piece = black)
           then Ok (acc + (pieceValue + positionBonus))
           else Ok (acc - (pieceValue + positionBonus))
       | None => Ok acc
       end) s = Ok s'
    ∧ s + 10 * Z.of_nat (length (filter
            (λ p, type_of (piece_on b (row p) (col p)) = Some black) sqs))
        - 17 * Z.of_nat (length (filter
            (λ p, is_Some (piece_on b (row p) (col p))
                  ∧ type_of (piece_on b (row p) (col p)) ≠ Some black) sqs))
      ≤ s'
    ∧ s' ≤ s + 17 * Z.of_nat (length (filter
            (λ p, type_of (piece_on b (row p) (col p)) = Some black) sqs))
        - 10 * Z.of_nat (length (filter
            (λ p, is_Some (piece_on b (row p) (col p))
                  ∧ type_of (piece_on b (row p) (col p)) ≠ Some black) sqs)).
Proof.
  intros Hb Hsqs. revert s. induction Hsqs as [|p sqs Hp _ IH]; intros s.
  - exists s. simpl. split; [done|]. lia.
  - cbn [for_each]. apply on_board_range in Hp.
    rewrite (cell_in_range b (row p) (col p)) by (apply has_rows_range; [done | lia]).
    cbn [mbind result_bind]. rewrite !filter_cons.
    destruct (piece_on b (row p) (col p)) as [piece|] eqn:Hpiece; simpl.
    + destruct (decide (type piece = black)) as [Hty|Hty].
      * rewrite decide_True by congruence.
        rewrite (decide_False (P := _ ∧ _)) by (intros [_ ?]; congruence).
        cbn [mbind result_bind].
        match goal with |- ∃ _, for_each _ _ ?e = _ ∧ _ =>
          destruct (IH e) as (s' & Hs' & Hlo & Hhi) end.
        exists s'. split; [exact Hs'|]. cbn [length].
        destruct (isKing piece); lia.
      * rewrite decide_False by congruence.
        rewrite (decide_True (P := _ ∧ _)) by (split; [by eexists | congruence]).
        cbn [mbind result_bind].
        match goal with |- ∃ _, for_each _ _ ?e = _ ∧ _ =>
          destruct (IH e) as (s' & Hs' & Hlo & Hhi) end.
        exists s'. split; [exact Hs'|]. cbn [length]. unfold BOARD_SIZE in *.
        destruct (isKing piece); lia.
    + destruct (IH s) as (s' & Hs' & Hlo & Hhi). exists s'. split; [exact Hs'|]. lia.
Qed.

(** [evaluateBoard] by the numbers of pieces. *)
Lemma evaluateBoard_bounds (b : Board) :
  has_rows b →
  ∃ score, evaluateBoard b = Ok score
    ∧ 10 * Z.of_nat (length (pieces_of b black))
      - 17 * Z.of_nat (length (rivals_of b black)) ≤ score
    ∧ score ≤ 17 * Z.of_nat (length (pieces_of b black))
              - 10 * Z.of_nat (length (rivals_of b black)).
Proof.
  intros Hb. unfold evaluateBoard.
  rewrite (for_each_squares (λ r score c,
      piece ← cell b r c;
      match piece with
      | Some piece =>
          let pieceValue := if isKing piece then 15 else 10 in
          let positionBonus :=
            if isKing piece then 0
            else if decide (type piece = black) then r
            else BOARD_SIZE - 1 - r in
          if decide (type piece = black) then Ok (score + (pieceValue + positionBonus))
          else Ok (score - (pieceValue + positionBonus))
      | None => Ok score
      end)).
  destruct (evaluate_loop b squares 0 Hb squares_on_board) as (s' & Hs' & Hlo & Hhi).
  exists s'. split; [exact Hs'|]. unfold pieces_of, rivals_of. lia.
Qed.

(** X9. On an 8x8 board [evaluateBoard] returns a score between
    10 B - 17 W and 17 B - 10 W, where B is the number of black pieces
    and W the number of pieces of another type: every piece weighs
    between 10 and 17 points for its side. *)
Theorem evaluateBoard_material (b : Board) :
  wf_board b →
  ∃ score, evaluateBoard b = Ok score
    ∧ 10 * Z.of_nat (length (pieces_of b black))
      - 17 * Z.of_nat (length (rivals_of b black)) ≤ score
    ∧ score ≤ 17 * Z.of_nat (length (pieces_of b black))
              - 10 * Z.of_nat (length (rivals_of b black)).
Proof. intros Hb%wf_board_has_rows. by apply evaluateBoard_bounds. Qed.

Lemma evaluateBoard_material_witness :
  wf_board initial_board
  ∧ ∃ score, evaluateBoard initial_board = Ok score
    ∧ 10 * Z.of_nat (length (pieces_of initial_board black))
      - 17 * Z.of_nat (length (rivals_of initial_board black)) ≤ score
    ∧ score ≤ 17 * Z.of_nat (length (pieces_of initial_board black))
              - 10 * Z.of_nat (length (rivals_of initial_board black)).
Proof.
  split; [exact wf_initial_board|].
  apply (evaluateBoard_material initial_board). exact wf_initial_board.
Defined.

(** ** On boards whose pieces stand on dark squares *)

Lemma length_filter_disjoint {A : Type} (P Q R : A → Prop) `{∀ x, Decision (P x)}
    `{∀ x, Decision (Q x)} `{∀ x, Decision (R x)} (l : list A) :
  Forall (λ x, (P x → R x) ∧ (Q x → R x) ∧ ¬ (P x ∧ Q x)) l →
  (length (filter P l) + length (filter Q l) ≤ length (filter R l))%nat.
Proof.
  induction 1 as [|x l (HP & HQ & HPQ) _ IH]; [done|].
  rewrite !filter_cons.
  destruct (decide (P x)), (decide (Q x)), (decide (R x)); cbn [length];
    try lia; tauto.
Qed.

(** At most 32 pieces stand on such a board. *)
Lemma dark_only_pieces (b : Board) :
  wf_board b → dark_only b →
  (length (pieces_of b black) + length (rivals_of b black) ≤ 32)%nat.
Proof.
  intros Hwf Hdark.
  assert (length (filter (λ p, dark (row p) (col p)) squares) = 32%nat) as <-
    by (vm_compute; reflexivity).
  apply length_filter_disjoint, Forall_forall. intros p Hp.
  apply elem_of_squares, on_board_range in Hp.
  assert (∀ q, piece_on b (row p) (col p) = Some q → dark (row p) (col p)) as Hq.
  { intros q Hq. apply (Hdark _ _ q). apply cell_Ok. split; [|done].
    apply has_rows_range; [by apply wf_board_has_rows | lia]. }
  destruct (piece_on b (row p) (col p)) as [q|]; simpl.
  - split; [eauto|]. split; [eauto|]. intros [? [_ ?]]. done.
  - split; [done|]. split; [by intros [[? [=]] _]|]. by intros [[=] _].
Qed.

Lemma evaluateBoard_range (b : Board) :
  wf_board b → dark_only b →
  ∃ score, evaluateBoard b = Ok score ∧ -1000 < score < 1000.
Proof.
  intros Hwf Hdark.
  destruct (evaluateBoard_bounds b (wf_board_has_rows b Hwf)) as (s & Hs & Hlo & Hhi).
  pose proof (dark_only_pieces b Hwf Hdark). exists s. split; [done|]. lia.
Qed.

(** A move of a piece of the board keeps the board an 8x8 grid with its
    pieces on dark squares. *)
Lemma makeMove_dark_only (b : Board) (side : PieceType) (m : Move) :
  wf_board b → dark_only b → moved_by b side m →
  ∃ b', makeMove b m = Ok b' ∧ wf_board b' ∧ dark_only b'.
Proof.
  intros Hwf Hdark Hm. pose proof (wf_board_has_rows _ Hwf) as Hb.
  destruct (makeMove_moved_by b side m Hb Hm)
    as (p & b' & Hp & _ & Hmk & Hlen & Hread).
  destruct Hm as [_ Hshape].
  destruct (move_from_squares _ _ Hshape) as (Hto & Hcs & _ & _ & Hparity).
  exists b'. split; [done|]. split; [by eapply makeMove_wf|].
  intros r c q Hq. apply cell_Ok in Hq as [Hr Hq]. rewrite Hread in Hq.
  destruct (decide (mkPosition r c = to m)) as [E|E].
  - assert (dark (row (from m)) (col (from m))) as Hd.
    { apply (Hdark _ _ p). apply cell_Ok. split; [|done].
      by apply piece_on_Some_range in Hp as [? _]. }
    unfold dark in *. rewrite <- E in Hparity. simpl in Hparity. congruence.
  - case_decide; [done|]. apply (Hdark r c q). apply cell_Ok.
    split; [by rewrite <- Hlen | done].
Qed.

(** The loops of [minimax] keep the scores between the terminal scores
    when the searches of the children return such scores. *)
Lemma max_loop_range (search : list (list (option Piece)) → number → number → result number)
    (b : Board) (β : number) (ms : list Move) (R a : number) :
  (∀ m, m ∈ ms → ∃ nb, makeMove b m = Ok nb ∧
     ∀ a k, ∃ r, search nb a k = Ok r
                 ∧ num_le (Int (-1000)) r = true ∧ num_le r (Int 1000) = true) →
  R = NegInfinity ∨ (num_le (Int (-1000)) R = true ∧ num_le R (Int 1000) = true) →
  ∃ R' a', for_each_break ms (max_step search b β) (R, a) = Ok (R', a')
    ∧ ((ms = [] ∧ R' = R)
       ∨ (num_le (Int (-1000)) R' = true ∧ num_le R' (Int 1000) = true)).
Proof.
  revert R a. induction ms as [|m ms IH]; intros R a Hch HR.
  - exists R, a. split; [done|]. by left.
  - destruct (Hch m) as (nb & Hmk & Hsearch); [left|].
    destruct (Hsearch a β) as (r & Hr & Hlo & Hhi).
    assert (num_le (Int (-1000)) (num_max R r) = true
            ∧ num_le (num_max R r) (Int 1000) = true) as Hnew.
    { destruct HR as [->|[HRlo HRhi]].
      - by rewrite num_max_NegInfinity_l.
      - unfold num_max. by destruct (num_le R r). }
    assert (for_each_break (m :: ms) (max_step search b β) (R, a)
            = if num_le β (num_max a r)
              then Ok (num_max R r, num_max a r)
              else for_each_break ms (max_step search b β)
                     (num_max R r, num_max a r)) as ->.
    { simpl. unfold max_step at 1. rewrite Hmk. simpl. rewrite Hr. done. }
    destruct (num_le β (num_max a r)).
    + exists (num_max R r), (num_max a r). split; [done|]. by right.
    + destruct (IH (num_max R r) (num_max a r)) as (R' & a' & -> & HR').
      * intros m' Hm'. apply Hch. by right.
      * by right.
      * exists R', a'. split; [done|]. right.
        destruct HR' as [[_ ->]|HR']; done.
Qed.

Lemma min_loop_range (search : list (list (option Piece)) → number → number → result number)
    (b : Board) (α : number) (ms : list Move) (R k : number) :
  (∀ m, m ∈ ms → ∃ nb, makeMove b m = Ok nb ∧
     ∀ a k, ∃ r, search nb a k = Ok r
                 ∧ num_le (Int (-1000)) r = true ∧ num_le r (Int 1000) = true) →
  R = Infinity ∨ (num_le (Int (-1000)) R = true ∧ num_le R (Int 1000) = true) →
  ∃ R' k', for_each_break ms (min_step search b α) (R, k) = Ok (R', k')
    ∧ ((ms = [] ∧ R' = R)
       ∨ (num_le (Int (-1000)) R' = true ∧ num_le R' (Int 1000) = true)).
Proof.
  revert R k. induction ms as [|m ms IH]; intros R k Hch HR.
  - exists R, k. split; [done|]. by left.
  - destruct (Hch m) as (nb & Hmk & Hsearch); [left|].
    destruct (Hsearch α k) as (r & Hr & Hlo & Hhi).
    assert (num_le (Int (-1000)) (num_min R r) = true
            ∧ num_le (num_min R r) (Int 1000) = true) as Hnew.
    { destruct HR as [->|[HRlo HRhi]].
      - by rewrite num_min_Infinity_l.
      - unfold num_min. by destruct (num_le R r). }
    assert (for_each_break (m :: ms) (min_step search b α) (R, k)
            = if num_le (num_min k r) α
              then Ok (num_min R r, num_min k r)
              else for_each_break ms (min_step search b α)
                     (num_min R r, num_min k r)) as ->.
    { simpl. unfold min_step at 1. rewrite Hmk. simpl. rewrite Hr. done. }
    destruct (num_le (num_min k r) α).
    + exists (num_min R r), (num_min k r). split; [done|]. by right.
    + destruct (IH (num_min R r) (num_min k r)) as (R' & k' & -> & HR').
      * intros m' Hm'. apply Hch. by right.
      * by right.
      * exists R', k'. split; [done|]. right.
        destruct HR' as [[_ ->]|HR']; done.
Qed.

(** [minimax] on a board of the game. *)
Lemma minimax_range_aux (d : nat) :
  ∀ (b : Board) (α β : number) (mx : bool),
    wf_board b → dark_only b →
    ∃ r, minimax b d α β mx = Ok r
         ∧ num_le (Int (-1000)) r = true ∧ num_le r (Int 1000) = true.
Proof.
  induction d as [|d IH]; intros b α β mx Hwf Hdark;
    pose proof (wf_board_has_rows b Hwf) as Hb;
    rewrite minimax_unfold;
    destruct (checkWinner_total b Hb) as (wm & bm & _ & _ & ->); simpl;
    set (w := if decide (length (pieces_of b white) = 0%nat) then black else _);
    (destruct (decide (w = black)); [by exists (Int 1000)|]);
    (destruct (decide (w = white)); [by exists (Int (-1000))|]).
  - destruct (evaluateBoard_range b Hwf Hdark) as (score & -> & Hlo & Hhi). simpl.
    exists (Int score). split; [done|]. simpl.
    split; apply bool_decide_eq_true; lia.
  - destruct (getAllValidMoves_total b (if mx then black else white) Hb)
      as (ms & -> & Hms). simpl.
    destruct (decide (length ms = 0%nat)).
    { eexists. split; [done|]. by destruct mx. }
    assert (∀ mx' m, m ∈ ms → ∃ nb, makeMove b m = Ok nb ∧
              ∀ a k, ∃ r, minimax nb d a k mx' = Ok r
                ∧ num_le (Int (-1000)) r = true ∧ num_le r (Int 1000) = true) as Hch.
    { intros mx' m Hm. rewrite Forall_forall in Hms.
      destruct (makeMove_dark_only b _ m Hwf Hdark (Hms m Hm)) as (nb & Hmk & Hwf' & Hdark').
      exists nb. split; [done|]. intros a k. by apply IH. }
    assert (ms ≠ []) as Hne by (by destruct ms).
    destruct mx.
    + destruct (max_loop_range (λ nb a k, minimax nb d a k false) b β ms NegInfinity α)
        as (R' & a' & -> & HR'); [by apply Hch | by left |].
      simpl. exists R'. split; [done|]. by destruct HR' as [[? _]|?].
    + destruct (min_loop_range (λ nb a k, minimax nb d a k true) b α ms Infinity β)
        as (R' & k' & -> & HR'); [by apply Hch | by left |].
      simpl. exists R'. split; [done|]. by destruct HR' as [[? _]|?].
Qed.

(** X10. On an 8x8 board whose pieces all stand on dark squares, [minimax]
    returns, for every depth, window and side to play, a finite score
    between -1000 and 1000, the two terminal scores. *)
Theorem minimax_range (b : Board) (depth : nat) (alpha beta : number)
    (isMaximizing : bool) :
  wf_board b → dark_only b →
  ∃ z, minimax b depth alpha beta isMaximizing = Ok (Int z) ∧ -1000 ≤ z ≤ 1000.
Proof.
  intros Hwf Hdark.
  destruct (minimax_range_aux depth b alpha beta isMaximizing Hwf Hdark)
    as (r & Hr & Hlo & Hhi).
  destruct r as [|z|]; try done. exists z. split; [done|].
  simpl in Hlo, Hhi. apply bool_decide_eq_true in Hlo, Hhi. lia.
Qed.

Lemma minimax_range_witness :
  wf_board initial_board ∧ dark_only initial_board
  ∧ ∃ z, minimax initial_board 2 (Int 0) (Int 5) true = Ok (Int z) ∧ -1000 ≤ z ≤ 1000.
Proof.
  split; [exact wf_initial_board|]. split; [exact dark_only_initial_board|].
  apply (minimax_range initial_board 2 (Int 0) (Int 5) true).
  - exact wf_initial_board.
  - exact dark_only_initial_board.
Defined.

(** X11. On an 8x8 board, [minimax] called with any window alpha < beta
    returns a score bounded by the value of the exhaustive search: the
    value itself when it lies strictly inside the window, and otherwise a
    score on the same side of the window as the value, between the value
    and the bound it passed. *)
Theorem minimax_window (b : Board) (depth : nat) (alpha beta : number)
    (isMaximizing : bool) :
  wf_board b → num_lt alpha beta = true →
  ∃ r v, minimax b depth alpha beta isMaximizing = Ok r
    ∧ minimax_exhaustive b depth isMaximizing = Ok v
    ∧ (num_le v alpha = true → num_le v r = true ∧ num_le r alpha = true)
    ∧ (num_le beta v = true → num_le beta r = true ∧ num_le r v = true)
    ∧ (num_lt alpha v = true → num_lt v beta = true → r = v).
Proof.
  intros Hwf Hlt.
  destruct (minimax_bounded depth b alpha beta isMaximizing
              (wf_board_has_rows b Hwf) Hlt) as (r & v & Hr & Hv & Hbound).
  exists r, v. split; [done|]. split; [done|]. exact Hbound.
Qed.

Lemma minimax_window_witness :
  wf_board initial_board ∧ num_lt (Int 0) (Int 5) = true
  ∧ ∃ r v, minimax initial_board 2 (Int 0) (Int 5) true = Ok r
    ∧ minimax_exhaustive initial_board 2 true = Ok v
    ∧ (num_le v (Int 0) = true → num_le v r = true ∧ num_le r (Int 0) = true)
    ∧ (num_le (Int 5) v = true → num_le (Int 5) r = true ∧ num_le r v = true)
    ∧ (num_lt (Int 0) v = true → num_lt v (Int 5) = true → r = v).
Proof.
  split; [exact wf_initial_board|]. split; [reflexivity|].
  apply (minimax_window initial_board 2 (Int 0) (Int 5) true).
  - exact wf_initial_board.
  - reflexivity.
Defined.


(** * The bot *)

(** ** The random index *)

(** The significand that [double_round] gives to [a × 2^e] when it has
    [k > 0] bits to drop is at most half a unit above the exact one. *)
Lemma rounded_significand (a k : Z) :
  0 ≤ a → 0 < k →
  let q := a / 2 ^ k in
  let rest := a mod 2 ^ k in
  let half := 2 ^ (k - 1) in
  let r := if rest <? half then q
           else if half <? rest then q + 1
           else if Z.even q then q else q + 1 in
  0 ≤ r ∧ r * 2 ^ k ≤ a + 2 ^ (k - 1).
Proof.
  intros Ha Hk q rest half r.
  assert (0 < half) as Hhalf by (apply Z.pow_pos_nonneg; lia).
  assert (2 ^ k = 2 * half) as Hpow.
  { unfold half. rewrite <- Z.pow_succ_r by lia. f_equal; lia. }
  assert (a = 2 ^ k * q + rest) as Hdiv by (apply Z.div_mod; lia).
  assert (0 ≤ rest < 2 ^ k) as Hrest by (apply Z.mod_pos_bound; lia).
  assert (0 ≤ q) as Hq by (apply Z.div_pos; lia).
  fold half. rewrite Hpow in *. unfold r.
  destruct (Z.ltb_spec rest half); [nia|].
  destruct (Z.ltb_spec half rest); [nia|].
  destruct (Z.even q); nia.
Qed.

(** [Math.floor(Math.random() * n)] is an index of an array of length
    [n > 0]: the product of a double below 1 and of [n] is below [n] by
    more than half a unit in its last place, so that its rounding is
    below [n] too. *)
Lemma random_index_range (random : double) (n : nat) :
  unit_double random → (0 < n)%nat → array_length n →
  ∃ i, random_index random n = Some i ∧ 0 ≤ i < Z.of_nat n.
Proof.
  destruct random as [s e]. unfold unit_double, array_length, random_index.
  cbn [significand exponent]. intros (Hs & He & Hlt) Hn Hlen.
  set (N := Z.of_nat n) in *. assert (1 ≤ N) as HN by lia.
  set (K := - e) in *. assert (0 ≤ K) as HK by lia.
  assert (0 < 2 ^ K) as HpK by (apply Z.pow_pos_nonneg; lia).
  set (a := s * N). assert (0 ≤ a) as Ha by nia.
  assert (a + N ≤ 2 ^ K * N) as HaK by nia.
  assert (a < 2 ^ 53 * N) as Ha53 by nia.
  assert (N < 2 ^ 1024) as Hbig.
  { eapply Z.lt_trans; [exact Hlen|]. apply Z.pow_lt_mono_r; lia. }
  unfold double_round. rewrite (Z.abs_eq a) by done.
  set (L := Z.log2 a).
  set (u := Z.max (L + e - 52) (-1074)).
  set (k := u - e).
  cbv zeta.
  destruct (Z.leb_spec k 0) as [Hk|Hk].
  - (* nothing is dropped *)
    assert (u ≤ 0) as Hu by lia.
    assert (a * 2 ^ (- k) * 2 ^ u = 0) as Hval.
    { destruct (decide (u = 0)) as [Hu0|Hu0].
      - assert (K = 0) as HK0 by lia. rewrite HK0 in Hlt. simpl in Hlt.
        assert (s = 0) as -> by lia. unfold a. lia.
      - rewrite (Z.pow_neg_r 2 u) by lia. lia. }
    rewrite Hval. destruct (Z.leb_spec (2 ^ 1024) 0) as [Hneg|_].
    { exfalso. assert (0 < 2 ^ 1024) by (apply Z.pow_pos_nonneg; lia). lia. }
    cbn [fmap option_fmap option_map]. eexists. split; [reflexivity|].
    unfold double_floor. cbn [significand exponent].
    assert (Z.sgn a * (a * 2 ^ (- k)) = a * 2 ^ (- k)) as ->.
    { destruct (decide (a = 0)) as [->|Hne]; [done|].
      rewrite Z.sgn_pos by lia. lia. }
    destruct (Z.leb_spec 0 u) as [Hu0|Hu0].
    + assert (u = 0) as Hu' by lia. rewrite Hu' in Hval. simpl in Hval. lia.
    + assert (- u = - k + K) as -> by lia.
      rewrite Z.pow_add_r by lia.
      rewrite (Z.mul_comm (2 ^ (- k)) (2 ^ K)).
      rewrite Z.div_mul_cancel_r.
      * split; [apply Z.div_pos; lia|]. apply Z.div_lt_upper_bound; lia.
      * lia.
      * apply Z.pow_nonzero; lia.
  - (* the last [k] bits are dropped *)
    assert (u = L + e - 52) as Hu by lia.
    assert (k = L - 52) as Hk' by lia.
    assert (0 < a) as Hapos.
    { destruct (decide (a = 0)) as [E|E]; [exfalso|lia].
      assert (L = 0) as HL0 by (unfold L; rewrite E; reflexivity). lia. }
    destruct (Z.log2_spec a Hapos) as [HL _]. fold L in HL.
    assert (2 ^ (k - 1) < N) as Hhalf.
    { assert (2 ^ L = 2 ^ (k - 1) * 2 ^ 53) as E.
      { rewrite <- Z.pow_add_r by lia. f_equal; lia. }
      assert (0 < 2 ^ 53) by (apply Z.pow_pos_nonneg; lia). nia. }
    destruct (rounded_significand a k Ha Hk) as [Hr0 Hr].
    cbv zeta in Hr0, Hr.
    set (r := if a mod 2 ^ k <? 2 ^ (k - 1) then a / 2 ^ k
              else if 2 ^ (k - 1) <? a mod 2 ^ k then a / 2 ^ k + 1
              else if Z.even (a / 2 ^ k) then a / 2 ^ k else a / 2 ^ k + 1) in *.
    assert (r * 2 ^ k < 2 ^ K * N) as Hstar by lia.
    assert (0 < 2 ^ k) as Hpk by (apply Z.pow_pos_nonneg; lia).
    rewrite Z.sgn_pos by done. rewrite Z.mul_1_l.
    destruct (Z.leb_spec 0 u) as [Hu0|Hu0].
    + assert (2 ^ k = 2 ^ u * 2 ^ K) as E.
      { rewrite <- Z.pow_add_r by lia. f_equal; lia. }
      assert (0 ≤ 2 ^ u) as Hpu by (apply Z.pow_nonneg; lia).
      assert (r * 2 ^ u < N) as Hin by nia.
      destruct (Z.leb_spec (2 ^ 1024) (r * 2 ^ u)) as [Hover|_]; [lia|].
      cbn [fmap option_fmap option_map]. eexists. split; [reflexivity|].
      unfold double_floor. cbn [significand exponent].
      destruct (Z.leb_spec 0 u); [|lia]. split; [nia | done].
    + rewrite (Z.pow_neg_r 2 u) by lia. rewrite Z.mul_0_r.
      destruct (Z.leb_spec (2 ^ 1024) 0) as [Hneg|_].
      { exfalso. assert (0 < 2 ^ 1024) by (apply Z.pow_pos_nonneg; lia). lia. }
      cbn [fmap option_fmap option_map]. eexists. split; [reflexivity|].
      unfold double_floor. cbn [significand exponent].
      destruct (Z.leb_spec 0 u); [lia|].
      assert (2 ^ K = 2 ^ (- u) * 2 ^ k) as E.
      { rewrite <- Z.pow_add_r by lia. f_equal; lia. }
      assert (0 < 2 ^ (- u)) as Hpu by (apply Z.pow_pos_nonneg; lia).
      split; [apply Z.div_pos; lia|].
      apply Z.div_lt_upper_bound; [done|]. nia.
Qed.

(** The rounding matters: for the double just below 4/7 and an array of
    7 elements, and for the double just below 1/3 and an array of 3, the
    exact product lies below 4, and below 1, and the rounded one is 4,
    and 1. *)
Example random_index_rounds :
  unit_double random_4_7 ∧ unit_double random_1_3
  ∧ random_index random_4_7 7 = Some 4
  ∧ (significand random_4_7 * 7) / 2 ^ 52 = 3
  ∧ random_index random_1_3 3 = Some 1
  ∧ (significand random_1_3 * 3) / 2 ^ 54 = 0.
Proof.
  split; [by apply (bool_decide_unpack _)|].
  split; [by apply (bool_decide_unpack _)|].
  repeat split; reflexivity.
Qed.

(** ** The number of moves *)

Lemma directions_of_length (piece : Piece) : (length (directions_of piece) ≤ 4)%nat.
Proof.
  unfold directions_of. rewrite length_app.
  destruct (bool_decide (type piece = white) || isKing piece),
           (bool_decide (type piece = black) || isKing piece); simpl; lia.
Qed.

(** A piece has four moves at most. *)
Lemma getValidMoves_length (b : Board) (pos : Position) (ms : list Move) :
  has_rows b → getValidMoves b pos = Ok ms → (length ms ≤ 4)%nat.
Proof.
  intros Hb Hms.
  destruct (piece_on b (row pos) (col pos)) as [piece|] eqn:Hp.
  - rewrite (getValidMoves_value b pos piece) in Hms by done.
    injection Hms as <-. cbv zeta.
    pose proof (directions_of_length piece) as Hd.
    pose proof (length_filter (can_jump b pos piece) (directions_of piece)).
    pose proof (length_filter (can_step b pos) (directions_of piece)).
    case_bool_decide; rewrite length_fmap; lia.
  - assert (Hrow : 0 ≤ row pos < Z.of_nat (length b)).
    { unfold getValidMoves in Hms. apply bind_Ok in Hms as (v & Hv & _).
      by apply cell_Ok in Hv as [? _]. }
    destruct (getValidMoves_total b pos Hb Hrow) as (ms' & Hms' & _ & Hnone).
    rewrite Hms in Hms'. injection Hms' as <-. rewrite Hnone by done. simpl. lia.
Qed.

(** A side has 256 moves at most, far fewer than an array can hold. *)
Lemma getAllValidMoves_length (b : Board) (side : PieceType) (ms : list Move) :
  has_rows b → getAllValidMoves b side = Ok ms → (length ms ≤ 256)%nat.
Proof.
  intros Hb Hms.
  destruct (getAllValidMoves_candidates b side Hb) as (raw & Hraw & _ & Hall).
  rewrite Hms in Hall. injection Hall as ->.
  apply mapM_Ok_Forall2 in Hraw.
  assert (length raw ≤ 64)%nat as Hlen.
  { rewrite <- (Forall2_length _ _ _ Hraw). unfold pieces_of.
    etrans; [apply length_filter|]. vm_compute. lia. }
  assert (Forall (λ l : list Move, (length l ≤ 4)%nat) raw) as Hfour.
  { apply Forall_forall. intros l Hl.
    apply list_elem_of_lookup in Hl as (i & Hi).
    destruct (Forall2_lookup_r _ _ _ _ _ Hraw Hi) as (pos & _ & Hget).
    by eapply getValidMoves_length. }
  assert (length (concat raw) ≤ 4 * length raw)%nat as Hconcat.
  { clear Hraw Hlen Hms. induction Hfour as [|l raw Hl _ IH]; [simpl; lia|].
    change (concat (l :: raw)) with (l ++ concat raw).
    rewrite length_app, length_cons. lia. }
  unfold forced_capture. case_decide.
  - etrans; [apply length_filter|]. lia.
  - lia.
Qed.

Lemma array_length_le (n k : nat) : (n ≤ k)%nat → array_length k → array_length n.
Proof. unfold array_length. lia. Qed.

Lemma getAllValidMoves_array (b : Board) (side : PieceType) (ms : list Move) :
  has_rows b → getAllValidMoves b side = Ok ms → array_length (length ms).
Proof.
  intros Hb Hms. apply (array_length_le _ 256).
  - by eapply getAllValidMoves_length.
  - by apply (bool_decide_unpack _).
Qed.

(** ** The tiers *)

Section BotProperties.
Variable random : double.
Hypothesis random_range : unit_double random.

(** The element picked at random is an element of the array. *)
Lemma random_element_member {A : Type} (a : list A) :
  a ≠ [] → array_length (length a) →
  ∃ x, random_element random a = Some x ∧ x ∈ a.
Proof.
  intros Ha Hlen. unfold random_element.
  destruct (random_index_range random (length a) random_range) as (i & -> & Hi);
    [destruct a; [done | simpl; lia] | done |].
  simpl. by apply index_in_range.
Qed.

Lemma getRandomMove_member (moves : list Move) :
  moves ≠ [] → array_length (length moves) →
  ∃ m, getRandomMove random moves = Some m ∧ m ∈ moves.
Proof. apply random_element_member. Qed.

Lemma filter_array_length {A : Type} (P : A → Prop) `{∀ x, Decision (P x)}
    (a : list A) :
  array_length (length a) → array_length (length (filter P a)).
Proof. apply array_length_le, length_filter. Qed.

Lemma getBasicMove_member (b : Board) (moves : list Move) :
  moves ≠ [] → array_length (length moves) →
  ∃ m, getBasicMove random b moves = Some m ∧ m ∈ moves.
Proof.
  intros Hne Hlen. unfold getBasicMove.
  case_bool_decide as Hc.
  { destruct (random_element_member (filter (λ m, isCapture m = true) moves))
      as (m & Hm & Hin).
    - intros E. rewrite E in Hc. simpl in Hc. lia.
    - by apply filter_array_length.
    - exists m. split; [done|]. by apply list_elem_of_filter in Hin as [_ ?]. }
  case_bool_decide as Hk.
  { destruct (random_element_member (filter (λ m, row (to m) = BOARD_SIZE - 1) moves))
      as (m & Hm & Hin).
    - intros E. rewrite E in Hk. simpl in Hk. lia.
    - by apply filter_array_length.
    - exists m. split; [done|]. by apply list_elem_of_filter in Hin as [_ ?]. }
  by apply getRandomMove_member.
Qed.

(** The three best moves are an array of three elements at most: its
    random index needs no bound on the number of moves. *)
Lemma take_array_length {A : Type} (a : list A) :
  array_length (length (take (Nat.min 3 (length a)) a)).
Proof.
  apply (array_length_le _ 3).
  - rewrite length_take. lia.
  - by apply (bool_decide_unpack _).
Qed.

Lemma getIntermediateMove_member (b : Board) (moves : list Move) :
  moves ≠ [] → ∃ m, getIntermediateMove random b moves = Ok m ∧ m ∈ moves.
Proof.
  intros Hne. unfold getIntermediateMove.
  set (scored := array_sort _ _).
  assert (Hperm : scored ≡ₚ (λ move, (move, evaluateMove b move)) <$> moves)
    by apply array_sort_perm.
  assert (Hlen : length scored = length moves).
  { rewrite Hperm. apply length_fmap. }
  destruct (random_element_member (take (Nat.min 3 (length scored)) scored))
    as (sm & Hsm & Hin).
  { intros E. apply (f_equal length) in E. rewrite length_take in E.
    assert (length moves ≠ 0%nat) by (by destruct moves).
    cbn [length] in E. lia. }
  { apply take_array_length. }
  rewrite Hsm. exists sm.1. split; [done|].
  apply subseteq_take in Hin. rewrite Hperm in Hin.
  apply list_elem_of_fmap in Hin as (m & -> & Hm). done.
Qed.

Lemma getAdvancedMove_member (b : Board) (moves : list Move) (difficulty : Z) :
  has_rows b → Forall (moved_by b black) moves → moves ≠ [] →
  ∃ m, getAdvancedMove b moves difficulty = Ok (Some m) ∧ m ∈ moves.
Proof.
  intros Hb Hall Hne. unfold getAdvancedMove.
  set (depth := if decide (difficulty >= 1600) then 4%nat else 3%nat).
  destruct (for_each_invariant
              (λ st : option Move * number, ∃ m, st.1 = Some m ∧ m ∈ moves) moves
              (λ '(bestMove, bestScore) move,
                 newBoard ← makeMove b move;
                 score ← minimax newBoard (depth - 1) NegInfinity Infinity false;
                 if num_gt score bestScore then Ok (Some move, score)
                 else Ok (bestMove, bestScore))
              (index moves 0, NegInfinity))
    as ([best score] & Hloop & m & Hbest & Hin).
  - destruct moves as [|m0 moves']; [done|]. exists m0. split; [done | left].
  - intros [bestMove bestScore] move Hmove (m & Hm & Hin). simpl in Hm.
    rewrite Forall_forall in Hall.
    destruct (makeMove_has_rows b black move Hb (Hall _ Hmove)) as (nb & -> & Hnb).
    simpl.
    destruct (minimax_bounded (depth - 1) nb NegInfinity Infinity false Hnb eq_refl)
      as (r & _ & -> & _). simpl.
    destruct (num_gt r bestScore); eexists; (split; [done|]); simpl; eauto.
  - rewrite Hloop. simpl in *. exists m. by rewrite Hbest.
Qed.

(** [getBotMove] returns a move of black, or [null] when black has
    none. *)
Lemma getBotMove_total (b : Board) (difficulty : Z) :
  has_rows b →
  ∃ moves, getAllValidMoves b black = Ok moves
    ∧ ((moves = [] ∧ getBotMove random b difficulty = Ok None)
       ∨ ∃ m, m ∈ moves ∧ getBotMove random b difficulty = Ok (Some m)).
Proof.
  intros Hb.
  destruct (getAllValidMoves_total b black Hb) as (moves & Hmoves & Hall).
  pose proof (getAllValidMoves_array b black moves Hb Hmoves) as Hlen.
  exists moves. split; [done|]. unfold getBotMove. rewrite Hmoves. simpl.
  destruct (decide (length moves = 0%nat)) as [Hzero|Hzero].
  { left. split; [by destruct moves | done]. }
  right. assert (moves ≠ []) as Hne by (by destruct moves).
  destruct (decide (difficulty < 400)).
  { destruct (getRandomMove_member moves Hne Hlen) as (m & -> & Hm). eauto. }
  destruct (decide (difficulty < 800)).
  { destruct (getBasicMove_member b moves Hne Hlen) as (m & -> & Hm). eauto. }
  destruct (decide (difficulty < 1200)).
  { destruct (getIntermediateMove_member b moves Hne) as (m & -> & Hm). eauto. }
  destruct (getAdvancedMove_member b moves difficulty Hb Hall Hne) as (m & -> & Hm).
  eauto.
Qed.

(** C9.  For a double of [0, 1) as the value of [Math.random()], on
    every board of the data model and for every rating: [getBotMove]
    returns (it does not throw); what it returns is [null] exactly when
    [getAllValidMoves(board, 'black')] is empty; and a move it returns is
    one of the moves of [getAllValidMoves(board, 'black')]. *)
Theorem getBotMove_spec (b : Board) (difficulty : Z) :
  wf_board b →
  ∃ moves result,
    getAllValidMoves b black = Ok moves
    ∧ getBotMove random b difficulty = Ok result
    ∧ (result = None ↔ moves = [])
    ∧ (∀ m, result = Some m → m ∈ moves).
Proof.
  intros Hwf. apply wf_board_has_rows in Hwf.
  destruct (getBotMove_total b difficulty Hwf)
    as (moves & Hmoves & [[-> Hbot]|(m & Hm & Hbot)]).
  - exists [], None. split; [done|]. split; [done|]. split; [done|]. done.
  - exists moves, (Some m). split; [done|]. split; [done|]. split.
    + split; [done|]. intros ->. by apply elem_of_nil in Hm.
    + by intros m' [= <-].
Qed.

End BotProperties.

Lemma getBotMove_spec_witness :
  unit_double random_4_7
  ∧ wf_board initial_board
  ∧ ∃ moves result,
      getAllValidMoves initial_board black = Ok moves
      ∧ getBotMove random_4_7 initial_board 200 = Ok result
      ∧ (result = None ↔ moves = [])
      ∧ (∀ m, result = Some m → m ∈ moves).
Proof.
  assert (unit_double random_4_7) as Hrandom
    by (by apply (bool_decide_unpack _)).
  split; [exact Hrandom|]. split; [exact wf_initial_board|].
  exact (getBotMove_spec random_4_7 Hrandom initial_board 200
           wf_initial_board).
Defined.

(** With the value just below 4/7 of [Math.random()] the lowest tier
    plays the fifth of the seven opening moves of black. *)
Example getBotMove_opening :
  getBotMove random_4_7 initial_board 200
  = Ok (Some (mkMove (mkPosition 2 5) (mkPosition 3 4) None)).
Proof. vm_compute. reflexivity. Qed.


(** * The score of a move *)

(** The score of a move to a square of the board: 100 for each captured
    square, and between -10 and 65 for the destination. *)
Lemma evaluateMove_bounds (b : Board) (m : Move) :
  on_board (to m) →
  (inject_Z (100 * Z.of_nat (length (captured_squares m)) - 10) <= evaluateMove b m)%Q
  ∧ (evaluateMove b m <= inject_Z (100 * Z.of_nat (length (captured_squares m)) + 65))%Q.
Proof.
  intros Hto. apply on_board_range in Hto.
  destruct m as [from_ [r c] cs]. simpl in Hto.
  assert (r = 0 ∨ r = 1 ∨ r = 2 ∨ r = 3 ∨ r = 4 ∨ r = 5 ∨ r = 6 ∨ r = 7) as Hr by lia.
  assert (c = 0 ∨ c = 1 ∨ c = 2 ∨ c = 3 ∨ c = 4 ∨ c = 5 ∨ c = 6 ∨ c = 7) as Hc by lia.
  unfold evaluateMove, captured_squares. simpl.
  destruct cs as [cs|]; simpl;
    destruct_or!; subst; simpl;
    unfold Qle, Qplus, Qminus, Qmult, Qopp, inject_Z; simpl; lia.
Qed.

Lemma isCapture_length (m : Move) :
  (isCapture m = true → (1 ≤ length (captured_squares m))%nat)
  ∧ (isCapture m = false → length (captured_squares m) = 0%nat).
Proof.
  unfold isCapture, captured_squares. destruct (captured m) as [cs|]; simpl.
  - split; intros H.
    + apply bool_decide_eq_true in H. lia.
    + apply bool_decide_eq_false in H. lia.
  - split; [done | by intros _].
Qed.

(** X12. For a move whose destination is a square of the board,
    [evaluateMove] returns a score between 100 n - 10 and 100 n + 65,
    where n is the number of captured squares the move names. *)
Theorem evaluateMove_range (b : Board) (m : Move) :
  on_board (to m) →
  (inject_Z (100 * Z.of_nat (length (captured_squares m)) - 10) <= evaluateMove b m)%Q
  ∧ (evaluateMove b m <= inject_Z (100 * Z.of_nat (length (captured_squares m)) + 65))%Q.
Proof. apply evaluateMove_bounds. Qed.

Lemma evaluateMove_range_witness :
  on_board (to black_jump)
  ∧ (inject_Z (100 * Z.of_nat (length (captured_squares black_jump)) - 10)
     <= evaluateMove capture_board black_jump)%Q
  ∧ (evaluateMove capture_board black_jump
     <= inject_Z (100 * Z.of_nat (length (captured_squares black_jump)) + 65))%Q.
Proof.
  split; [reflexivity|].
  exact (evaluateMove_range capture_board black_jump eq_refl).
Defined.

(** X13. Of two moves whose destinations are squares of the board,
    [evaluateMove] scores the one that captures strictly higher than the
    one that does not, wherever the two moves end. *)
Theorem evaluateMove_capture_first (b : Board) (m1 m2 : Move) :
  on_board (to m1) → on_board (to m2) →
  isCapture m1 = true → isCapture m2 = false →
  (evaluateMove b m2 < evaluateMove b m1)%Q.
Proof.
  intros H1 H2 Hc1 Hc2.
  destruct (evaluateMove_bounds b m1 H1) as [Hlo _].
  destruct (evaluateMove_bounds b m2 H2) as [_ Hhi].
  apply isCapture_length in Hc1. apply isCapture_length in Hc2.
  eapply Qle_lt_trans; [exact Hhi|]. eapply Qlt_le_trans; [|exact Hlo].
  rewrite <- Zlt_Qlt. lia.
Qed.

Lemma evaluateMove_capture_first_witness :
  on_board (to black_jump) ∧ on_board (to opening_move)
  ∧ isCapture black_jump = true ∧ isCapture opening_move = false
  ∧ (evaluateMove capture_board opening_move < evaluateMove capture_board black_jump)%Q.
Proof.
  split; [reflexivity|]. split; [reflexivity|].
  split; [reflexivity|]. split; [reflexivity|].
  exact (evaluateMove_capture_first capture_board black_jump opening_move
           eq_refl eq_refl eq_refl eq_refl).
Defined.


(** * The tiers of the bot *)

Lemma Qminus_le_0 (x y : Q) : (y - x <= 0)%Q ↔ (y <= x)%Q.
Proof.
  rewrite (Qle_minus_iff (y - x) 0), (Qle_minus_iff y x).
  assert (0 + - (y - x) == x + - y)%Q as E by ring.
  by rewrite E.
Qed.

(** The sort of [getIntermediateMove] puts the scores in descending
    order. *)
Lemma sort_insert_descending (x : Move * Q) (l : list (Move * Q)) :
  descending l → descending (sort_insert (λ a b, (snd b - snd a)%Q) x l).
Proof.
  induction l as [|y l IH]; intros Hl; simpl.
  - done.
  - destruct Hl as [Hy Hl].
    destruct (Qle_bool (snd y - snd x) 0) eqn:Hcmp.
    + apply Qle_bool_iff in Hcmp. apply (proj1 (Qminus_le_0 _ _)) in Hcmp.
      split; [|by split]. constructor; [exact Hcmp|].
      eapply Forall_impl; [exact Hy|]. intros z Hz. simpl in Hz.
      by eapply Qle_trans.
    + assert (snd x <= snd y)%Q as Hxy.
      { apply Qlt_le_weak, Qnot_le_lt. intros Hle.
        apply (proj2 (Qminus_le_0 _ _)) in Hle. apply Qle_bool_iff in Hle.
        congruence. }
      split; [|by apply IH].
      rewrite (sort_insert_perm _ x l). by constructor.
Qed.

Lemma array_sort_descending (a : list (Move * Q)) :
  descending (array_sort (λ a b, (snd b - snd a)%Q) a).
Proof.
  unfold array_sort. induction a as [|x a IH]; simpl; [done|].
  by apply sort_insert_descending.
Qed.

Lemma descending_app (l1 l2 : list (Move * Q)) (y : Move * Q) :
  descending (l1 ++ y :: l2) → Forall (λ z, (snd z <= snd y)%Q) l2.
Proof.
  induction l1 as [|x l1 IH]; simpl.
  - by intros [? _].
  - intros [_ ?]. by apply IH.
Qed.

Lemma index_lookup {A : Type} (a : list A) (i : Z) (x : A) :
  index a i = Some x → 0 ≤ i ∧ a !! Z.to_nat i = Some x.
Proof.
  unfold index. destruct (Z.ltb_spec i 0); [done|]. intros Hx. split; [lia | done].
Qed.

Section BotTiers.
Variable random : double.
Hypothesis random_range : unit_double random.

(** X14. For a double of [0, 1) as the value of [Math.random()] and a
    non-empty list of moves, of a length below 2^32 as that of every
    array, [getBasicMove] returns one of the moves; it is a capture when
    the list has a capture, and otherwise a move to row 7 when the list
    has a move to row 7. *)
Theorem getBasicMove_preference (b : Board) (moves : list Move) :
  moves ≠ [] → array_length (length moves) →
  ∃ m, getBasicMove random b moves = Some m ∧ m ∈ moves
    ∧ (Exists (λ m', isCapture m' = true) moves → isCapture m = true)
    ∧ (¬ Exists (λ m', isCapture m' = true) moves →
       Exists (λ m', row (to m') = 7) moves → row (to m) = 7).
Proof.
  intros Hne Hlen. unfold getBasicMove.
  case_bool_decide as Hc.
  { destruct (random_element_member random random_range
                (filter (λ m, isCapture m = true) moves)) as (m & Hm & Hin).
    - intros E. rewrite E in Hc. simpl in Hc. lia.
    - by apply filter_array_length.
    - exists m. split; [done|]. apply list_elem_of_filter in Hin as [Hcap Hin].
      split; [done|]. split; [done|]. intros Hno. destruct Hno.
      apply Exists_exists. eauto. }
  assert (¬ Exists (λ m', isCapture m' = true) moves) as Hno.
  { intros (m' & Hm' & Hcap)%Exists_exists.
    assert (m' ∈ filter (λ m, isCapture m = true) moves) as Hin
      by (by apply list_elem_of_filter).
    destruct (filter (λ m, isCapture m = true) moves); [|simpl in Hc; lia].
    by apply elem_of_nil in Hin. }
  case_bool_decide as Hk.
  { destruct (random_element_member random random_range
                (filter (λ m, row (to m) = BOARD_SIZE - 1) moves)) as (m & Hm & Hin).
    - intros E. rewrite E in Hk. simpl in Hk. lia.
    - by apply filter_array_length.
    - exists m. split; [done|]. apply list_elem_of_filter in Hin as [Hrow Hin].
      split; [done|]. split; [done|]. intros _ _. exact Hrow. }
  destruct (getRandomMove_member random random_range moves Hne Hlen) as (m & Hm & Hin).
  exists m. split; [done|]. split; [done|]. split; [done|].
  intros _ (m' & Hm' & Hrow)%Exists_exists.
  assert (m' ∈ filter (λ m, row (to m) = BOARD_SIZE - 1) moves) as Hin'
    by (by apply list_elem_of_filter).
  destruct (filter (λ m, row (to m) = BOARD_SIZE - 1) moves); [|simpl in Hk; lia].
  by apply elem_of_nil in Hin'.
Qed.

(** X15. For a double of [0, 1) as the value of [Math.random()] and a
    non-empty list of moves, [getIntermediateMove] returns one of the
    moves, and at most two moves of the list have a score of
    [evaluateMove] strictly higher than the move returned. *)
Theorem getIntermediateMove_top (b : Board) (moves : list Move) :
  moves ≠ [] →
  ∃ m, getIntermediateMove random b moves = Ok m ∧ m ∈ moves
    ∧ (length (filter (λ m', (evaluateMove b m < evaluateMove b m')%Q) moves) ≤ 2)%nat.
Proof.
  intros Hne. unfold getIntermediateMove.
  set (scored := array_sort _ _).
  assert (Hperm : scored ≡ₚ (λ move, (move, evaluateMove b move)) <$> moves)
    by apply array_sort_perm.
  assert (Hdesc : descending scored) by apply array_sort_descending.
  assert (Hlen : length scored = length moves).
  { rewrite Hperm. apply length_fmap. }
  assert (Hscore : Forall (λ sm, snd sm = evaluateMove b (fst sm)) scored).
  { rewrite Hperm. apply Forall_fmap, Forall_forall. done. }
  destruct (random_element_member random random_range
              (take (Nat.min 3 (length scored)) scored)) as (sm & Hpick & Hin).
  { intros E. apply (f_equal length) in E. rewrite length_take in E.
    assert (length moves ≠ 0%nat) by (by destruct moves).
    cbn [length] in E. lia. }
  { apply take_array_length. }
  rewrite Hpick.
  apply list_elem_of_lookup in Hin as (i & Hsm).
  rewrite lookup_take_Some in Hsm. destruct Hsm as [Hsm Hi].
  assert (i < 3)%nat as Hi3 by lia.
  exists sm.1. split; [done|]. split.
  { apply list_elem_of_lookup_2 in Hsm. rewrite Hperm in Hsm.
    apply list_elem_of_fmap in Hsm as (m & -> & Hm). done. }
  assert (length (filter (λ m', (evaluateMove b sm.1 < evaluateMove b m')%Q) moves)
          = length (filter (λ sm', (evaluateMove b sm.1 < evaluateMove b sm'.1)%Q) scored))
    as ->.
  { rewrite Hperm.
    rewrite (length_filter_fmap (λ move, (move, evaluateMove b move))
               (λ sm', (evaluateMove b sm.1 < evaluateMove b sm'.1)%Q)).
    done. }
  clear Hpick Hi.
  rewrite <- (take_drop_middle scored i sm Hsm) in Hdesc, Hscore |- *.
  apply descending_app in Hdesc.
  apply Forall_app in Hscore as [_ Hscore].
  apply Forall_cons in Hscore as [Hsm_score Hscore].
  rewrite filter_app, filter_cons, length_app.
  rewrite decide_False by apply Qlt_irrefl.
  rewrite (filter_none _ (drop (S i) scored)).
  - pose proof (length_filter (λ sm', (evaluateMove b sm.1 < evaluateMove b sm'.1)%Q)
                  (take i scored)) as Hle.
    rewrite length_take in Hle. simpl. lia.
  - apply Forall_forall. intros z Hz.
    rewrite Forall_forall in Hdesc, Hscore.
    specialize (Hdesc z Hz). specialize (Hscore z Hz). simpl in Hdesc, Hscore.
    rewrite <- Hscore, <- Hsm_score. by apply Qle_not_lt.
Qed.

End BotTiers.

Lemma getBasicMove_preference_witness :
  (unit_double random_1_3
   ∧ capture_choice ≠ [] ∧ array_length (length capture_choice)
   ∧ Exists (λ m', isCapture m' = true) capture_choice
   ∧ ∃ m, getBasicMove random_1_3 initial_board capture_choice = Some m
     ∧ m ∈ capture_choice
     ∧ (Exists (λ m', isCapture m' = true) capture_choice → isCapture m = true)
     ∧ (¬ Exists (λ m', isCapture m' = true) capture_choice →
        Exists (λ m', row (to m') = 7) capture_choice → row (to m) = 7))
  ∧ (unit_double random_1_3
     ∧ crowning_choice ≠ [] ∧ array_length (length crowning_choice)
     ∧ ¬ Exists (λ m', isCapture m' = true) crowning_choice
     ∧ Exists (λ m', row (to m') = 7) crowning_choice
     ∧ ∃ m, getBasicMove random_1_3 initial_board crowning_choice = Some m
       ∧ m ∈ crowning_choice
       ∧ (Exists (λ m', isCapture m' = true) crowning_choice → isCapture m = true)
       ∧ (¬ Exists (λ m', isCapture m' = true) crowning_choice →
          Exists (λ m', row (to m') = 7) crowning_choice → row (to m) = 7)).
Proof.
  split.
  - split; [by apply (bool_decide_unpack _)|]. split; [discriminate|].
    split; [by apply (bool_decide_unpack _)|].
    split; [by apply (bool_decide_unpack _)|].
    apply (getBasicMove_preference random_1_3).
    + by apply (bool_decide_unpack _).
    + discriminate.
    + by apply (bool_decide_unpack _).
  - split; [by apply (bool_decide_unpack _)|]. split; [discriminate|].
    split; [by apply (bool_decide_unpack _)|].
    split; [by apply (bool_decide_unpack _)|].
    split; [by apply (bool_decide_unpack _)|].
    apply (getBasicMove_preference random_1_3).
    + by apply (bool_decide_unpack _).
    + discriminate.
    + by apply (bool_decide_unpack _).
Defined.

(** The basic tier on the two lists: the capture of the first, and the
    move to row 7 of the second. *)
Example getBasicMove_choices :
  getBasicMove random_1_3 initial_board capture_choice = Some black_jump
  ∧ getBasicMove random_1_3 initial_board crowning_choice
    = Some (mkMove (mkPosition 6 1) (mkPosition 7 2) None).
Proof. split; vm_compute; reflexivity. Qed.

Lemma getIntermediateMove_top_witness :
  unit_double random_1_3
  ∧ opening_moves ≠ []
  ∧ ∃ m, getIntermediateMove random_1_3 initial_board opening_moves = Ok m
    ∧ m ∈ opening_moves
    ∧ (length (filter (λ m', (evaluateMove initial_board m
                              < evaluateMove initial_board m')%Q)
                 opening_moves) ≤ 2)%nat.
Proof.
  split; [by apply (bool_decide_unpack _)|]. split; [discriminate|].
  apply (getIntermediateMove_top random_1_3).
  - by apply (bool_decide_unpack _).
  - discriminate.
Defined.

(** The intermediate tier on the opening moves of black: the three best
    are the two moves to (3,4), of the score 30, and the first of the
    moves to (3,2), of the score 25; the double just below 1/3 picks the
    second of the three. *)
Example getIntermediateMove_opening :
  getIntermediateMove random_1_3 initial_board opening_moves
  = Ok (mkMove (mkPosition 2 5) (mkPosition 3 4) None).
Proof. vm_compute. reflexivity. Qed.

(** ** The advanced tier *)

Lemma num_gt_NegInfinity (s : number) : num_gt s NegInfinity = false → s = NegInfinity.
Proof. by destruct s. Qed.

Lemma num_gt_true (s k : number) : num_gt s k = true → num_lt k s = true.
Proof. done. Qed.

Lemma num_gt_false (s k : number) : num_gt s k = false → num_le s k = true.
Proof. unfold num_gt. by destruct (num_le s k). Qed.

(** The loop of [getAdvancedMove] keeps the first of the best moves. *)
Lemma advanced_loop (b : Board) (difficulty : Z) (pre rest : list Move)
    (best : option Move) (bestScore : number) :
  (∀ m, m ∈ rest → ∃ s, ply_score b difficulty m = Ok s) →
  best_so_far (ply_score b difficulty) (pre ++ rest) pre best bestScore →
  ∃ best' bestScore',
    for_each rest (λ '(bestMove, bestScore) move,
        newBoard ← makeMove b move;
        score ← minimax newBoard
                  ((if decide (difficulty >= 1600) then 4%nat else 3%nat) - 1)
                  NegInfinity Infinity false;
        if num_gt score bestScore then Ok (Some move, score)
        else Ok (bestMove, bestScore)) (best, bestScore)
    = Ok (best', bestScore')
    ∧ best_so_far (ply_score b difficulty) (pre ++ rest) (pre ++ rest) best' bestScore'.
Proof.
  revert pre best bestScore.
  induction rest as [|x rest IH]; intros pre best bestScore Hscores Hinv.
  - exists best, bestScore. split; [done|]. by rewrite app_nil_r in *.
  - destruct (Hscores x) as (sx & Hsx); [left|].
    pose proof Hsx as Hsx'. unfold ply_score in Hsx'. cbv zeta in Hsx'.
    apply bind_Ok in Hsx' as (nb & Hnb & Hsearch).
    cbn [for_each]. rewrite Hnb. cbn [mbind result_bind]. rewrite Hsearch.
    cbn [mbind result_bind].
    replace (pre ++ x :: rest) with ((pre ++ [x]) ++ rest) in *
      by (by rewrite <- app_assoc).
    assert (∀ m, m ∈ rest → ∃ s, ply_score b difficulty m = Ok s) as Hrest
      by (intros m Hm; apply Hscores; by right).
    destruct (num_gt sx bestScore) eqn:Hgt.
    + apply IH; [done|]. right. exists (length pre), x.
      split; [by rewrite lookup_app_r, Nat.sub_diag by lia|].
      split; [done|]. split; [done|].
      apply num_gt_true in Hgt.
      destruct Hinv as [(-> & -> & _)|(i & m & Hi & -> & Hm & Hall & Hbefore)].
      * split.
        -- intros m' [->|Hm']%elem_of_cons; [|by apply elem_of_nil in Hm'].
           exists sx. split; [done | apply num_le_refl].
        -- intros j m' Hj. simpl in Hj. lia.
      * split.
        -- intros m' [Hm'|Hm']%elem_of_app.
           ++ destruct (Hall m' Hm') as (s' & Hs' & Hle). exists s'. split; [done|].
              apply num_lt_le. by eapply num_le_lt_trans.
           ++ apply list_elem_of_singleton in Hm' as ->. exists sx.
              split; [done | apply num_le_refl].
        -- intros j m' Hj Hjm. rewrite lookup_app_l in Hjm by done.
           apply list_elem_of_lookup_2 in Hjm.
           destruct (Hall m' Hjm) as (s' & Hs' & Hle). exists s'. split; [done|].
           by eapply num_le_lt_trans.
    + apply num_gt_false in Hgt. apply IH; [done|]. right.
      destruct Hinv as [(-> & -> & Hbest)|(i & m & Hi & -> & Hm & Hall & Hbefore)].
      * simpl in Hbest. exists 0%nat, x. split; [done|]. split; [done|].
        assert (sx = NegInfinity) as -> by (by destruct sx).
        split; [done|]. split.
        -- intros m' [->|Hm']%elem_of_cons; [|by apply elem_of_nil in Hm'].
           exists NegInfinity. done.
        -- intros j m' Hj. lia.
      * exists i, m. split; [by apply lookup_app_l_Some|]. split; [done|].
        split; [done|]. split.
        -- intros m' [Hm'|Hm']%elem_of_app; [by apply Hall|].
           apply list_elem_of_singleton in Hm' as ->. exists sx. done.
        -- intros j m' Hj Hjm. apply (Hbefore j m' Hj).
           apply lookup_lt_Some in Hi.
           by rewrite lookup_app_l in Hjm by lia.
Qed.

(** X16. On an 8x8 board, for the non-empty list of the moves of
    [getAllValidMoves] for black, [getAdvancedMove] returns the first move
    of the list whose score is the highest, the score of a move being
    that of [minimax], with the full window and white to play, at depth 2
    (3 from the rating 1600 on) on the board after the move: no move of
    the list scores more, and every move before it scores strictly
    less. *)
Theorem getAdvancedMove_best (b : Board) (moves : list Move) (difficulty : Z) :
  wf_board b → getAllValidMoves b black = Ok moves → moves ≠ [] →
  ∃ (i : nat) (m : Move) (s : number),
    getAdvancedMove b moves difficulty = Ok (Some m)
    ∧ moves !! i = Some m ∧ ply_score b difficulty m = Ok s
    ∧ (∀ m', m' ∈ moves → ∃ s', ply_score b difficulty m' = Ok s' ∧ num_le s' s = true)
    ∧ (∀ (j : nat) m', (j < i)%nat → moves !! j = Some m' →
         ∃ s', ply_score b difficulty m' = Ok s' ∧ num_lt s' s = true).
Proof.
  intros Hwf Hmoves Hne. pose proof (wf_board_has_rows b Hwf) as Hb.
  destruct (getAllValidMoves_total b black Hb) as (ms' & Hms' & Hall).
  rewrite Hmoves in Hms'. injection Hms' as <-.
  assert (∀ m, m ∈ moves → ∃ s, ply_score b difficulty m = Ok s) as Hscores.
  { intros m Hm. rewrite Forall_forall in Hall.
    destruct (makeMove_has_rows b black m Hb (Hall m Hm)) as (nb & Hnb & Hrows).
    unfold ply_score. cbv zeta. rewrite Hnb. cbn [mbind result_bind].
    destruct (minimax_bounded
                ((if decide (difficulty >= 1600) then 4%nat else 3%nat) - 1)
                nb NegInfinity Infinity false Hrows eq_refl) as (r & _ & Hr & _).
    eauto. }
  destruct (advanced_loop b difficulty [] moves (index moves 0) NegInfinity Hscores)
    as (best & bs & Hloop & Hinv).
  { left. done. }
  simpl in Hinv.
  destruct Hinv as [(-> & _)|(i & m & Hi & -> & Hm & Hbest & Hbefore)]; [done|].
  exists i, m, bs. unfold getAdvancedMove. cbv zeta. rewrite Hloop. done.
Qed.

Lemma wf_exposed_board : wf_board exposed_board.
Proof. by apply (bool_decide_unpack _). Qed.

Lemma getAdvancedMove_best_witness :
  wf_board exposed_board
  ∧ getAllValidMoves exposed_board black = Ok exposed_moves
  ∧ exposed_moves ≠ []
  ∧ ∃ (i : nat) (m : Move) (s : number),
      getAdvancedMove exposed_board exposed_moves 1400 = Ok (Some m)
      ∧ exposed_moves !! i = Some m
      ∧ ply_score exposed_board 1400 m = Ok s
      ∧ (∀ m', m' ∈ exposed_moves →
           ∃ s', ply_score exposed_board 1400 m' = Ok s' ∧ num_le s' s = true)
      ∧ (∀ (j : nat) m', (j < i)%nat → exposed_moves !! j = Some m' →
           ∃ s', ply_score exposed_board 1400 m' = Ok s' ∧ num_lt s' s = true).
Proof.
  split; [exact wf_exposed_board|]. split; [reflexivity|]. split; [discriminate|].
  apply (getAdvancedMove_best exposed_board exposed_moves 1400).
  - exact wf_exposed_board.
  - reflexivity.
  - discriminate.
Defined.

(** On that board the three moves of black score -12, 2 and 2: the
    advanced tier plays the second, the first of the two best. *)
Example getAdvancedMove_exposed :
  getAllValidMoves exposed_board black = Ok exposed_moves
  ∧ ply_score exposed_board 1400 <$> exposed_moves
    = [Ok (Int (-12)); Ok (Int 2); Ok (Int 2)]
  ∧ getAdvancedMove exposed_board exposed_moves 1400
    = Ok (Some (mkMove (mkPosition 2 3) (mkPosition 3 4) None))
  ∧ getAdvancedMove exposed_board exposed_moves 1600
    = Ok (Some (mkMove (mkPosition 2 3) (mkPosition 3 4) None)).
Proof. repeat split; vm_compute; reflexivity. Qed.


(** * The game component *)

Lemma find_None_Forall {A : Type} (f : A → bool) (l : list A) :
  Forall (λ x, f x = false) l → find f l = None.
Proof.
  induction 1 as [|x l Hx _ IH]; simpl; [done|]. by rewrite Hx.
Qed.

Lemma find_Some_elem {A : Type} (f : A → bool) (l : list A) (x : A) :
  find f l = Some x → x ∈ l ∧ f x = true.
Proof.
  induction l as [|y l IH]; simpl; [done|].
  destruct (f y) eqn:Hy.
  - intros [= ->]. split; [left | done].
  - intros [? ?]%IH. split; [by right | done].
Qed.

Lemma targets_to (r c : Z) (m : Move) :
  Game.targets r c m = true ↔ to m = mkPosition r c.
Proof.
  unfold Game.targets. rewrite andb_true_iff, !bool_decide_eq_true.
  destruct (to m) as [r' c']. simpl. split.
  - by intros [-> ->].
  - by intros [= -> ->].
Qed.

(** The destination of a move of [getAllValidMoves] is empty. *)
Lemma generated_destination_empty (b : Board) (side : PieceType) (ms : list Move)
    (m : Move) :
  has_rows b → getAllValidMoves b side = Ok ms → m ∈ ms →
  piece_on b (row (to m)) (col (to m)) = None.
Proof.
  intros Hb Hms Hm.
  destruct (getAllValidMoves_generated b side ms m Hb Hms Hm)
    as (pos & piece & d & _ & _ & _ & _ & [[Hjump ->]|[Hstep ->]]).
  - by destruct Hjump as (_ & _ & _ & ?).
  - by destruct Hstep as [_ ?].
Qed.

(** X17. On an 8x8 board, when it is white's turn, no move is being
    animated, there is no winner and the moves offered so far are moves
    of [getAllValidMoves] for white, a click on a white piece offers
    exactly the moves of [getAllValidMoves] for white that leave from the
    clicked square, and selects that square; except that the click
    changes nothing when white has a capture and none of them leaves from
    the clicked square.  It starts no move. *)
Theorem handleCellClick_select (s : Game.State) (r c : Z) (all : list Move) :
  wf_board (Game.board s) →
  Game.winner s = null → Game.currentPlayer s = white → Game.animatingMove s = None →
  getAllValidMoves (Game.board s) white = Ok all →
  (∀ m, m ∈ Game.validMoves s → m ∈ all) →
  type_of (piece_on (Game.board s) r c) = Some white →
  Game.handleCellClick s r c
  = Ok (if existsb isCapture all
           && bool_decide (filter (λ m, from m = mkPosition r c) all = [])
        then s
        else Game.mkState (Game.board s) (Game.currentPlayer s) (Some (mkPosition r c))
               (filter (λ m, from m = mkPosition r c) all)
               (Game.winner s) (Game.difficulty s) (Game.isThinking s)
               (Game.animatingMove s),
        None).
Proof.
  intros Hwf Hwin Hturn Hanim Hall Hlegal Hpiece.
  pose proof (wf_board_has_rows _ Hwf) as Hb.
  unfold Game.handleCellClick. rewrite Hwin, Hturn, Hanim. simpl.
  destruct (piece_on (Game.board s) r c) as [p|] eqn:Hp; [|done].
  rewrite (cell_in_range (Game.board s) r c)
    by (by apply piece_on_Some_range in Hp as [? _]).
  rewrite Hp. cbn [mbind result_bind].
  assert (find (Game.targets r c) (Game.validMoves s) = None) as ->.
  { apply find_None_Forall, Forall_forall. intros m Hm.
    destruct (Game.targets r c m) eqn:E; [|done].
    apply targets_to in E.
    pose proof (generated_destination_empty _ _ _ m Hb Hall (Hlegal m Hm)) as Hempty.
    rewrite E in Hempty. simpl in Hempty. congruence. }
  destruct (side_moves_of_piece (Game.board s) white (mkPosition r c) Hwf)
    as (all' & ms & Hall' & Hms & Hfilter); [simpl; by rewrite Hp|].
  rewrite Hall in Hall'. injection Hall' as <-.
  destruct (Game.selectedPosition s);
    rewrite decide_True by done;
    rewrite Hall, Hms; cbn [mbind result_bind]; rewrite Hfilter;
    (destruct (existsb isCapture all) eqn:Hcap; simpl;
     [destruct (existsb isCapture ms) eqn:Hpcap; simpl;
      [destruct ms; [done|]; by rewrite bool_decide_eq_false_2 | done]
     | done]).
Qed.

Lemma handleCellClick_select_witness :
  wf_board capture_board
  ∧ getAllValidMoves capture_board white = Ok [white_jump]
  ∧ type_of (piece_on capture_board 4 3) = Some white
  ∧ Game.handleCellClick (white_to_play capture_board) 4 3
    = Ok (if existsb isCapture [white_jump]
             && bool_decide (filter (λ m, from m = mkPosition 4 3) [white_jump] = [])
          then white_to_play capture_board
          else Game.mkState capture_board white (Some (mkPosition 4 3))
                 (filter (λ m, from m = mkPosition 4 3) [white_jump])
                 null 1000 false None,
          None).
Proof.
  split; [exact wf_capture_board|]. split; [reflexivity|]. split; [reflexivity|].
  apply (handleCellClick_select (white_to_play capture_board) 4 3 [white_jump]).
  - exact wf_capture_board.
  - reflexivity.
  - reflexivity.
  - reflexivity.
  - reflexivity.
  - intros m Hm. simpl in Hm. by apply elem_of_nil in Hm.
  - reflexivity.
Defined.

(** X18. On an 8x8 board, when the moves offered so far are moves of
    [getAllValidMoves] for white, a click in a row of the board does not
    throw and leaves the board, the turn and the winner as they are;
    the moves offered afterwards are again moves of [getAllValidMoves]
    for white; and a move the click starts is one of them, ends on the
    clicked square and becomes the animated move, which happens only on
    white's turn, without a winner and with no move being animated. *)
Theorem handleCellClick_legal (s : Game.State) (r c : Z) (all : list Move) :
  wf_board (Game.board s) → 0 ≤ r < 8 →
  getAllValidMoves (Game.board s) white = Ok all →
  (∀ m, m ∈ Game.validMoves s → m ∈ all) →
  ∃ s' started,
    Game.handleCellClick s r c = Ok (s', started)
    ∧ Game.board s' = Game.board s
    ∧ Game.currentPlayer s' = Game.currentPlayer s
    ∧ Game.winner s' = Game.winner s
    ∧ (∀ m, m ∈ Game.validMoves s' → m ∈ all)
    ∧ (∀ m, started = Some m →
         m ∈ all ∧ to m = mkPosition r c ∧ Game.animatingMove s' = Some m
         ∧ Game.winner s = null ∧ Game.currentPlayer s = white
         ∧ Game.animatingMove s = None)
    ∧ (started = None → Game.animatingMove s' = Game.animatingMove s).
Proof.
  intros Hwf Hon Hall Hlegal. pose proof (wf_board_has_rows _ Hwf) as Hb.
  unfold Game.handleCellClick.
  destruct (bool_decide (Game.winner s ≠ null) || bool_decide (Game.currentPlayer s ≠ white)
            || bool_decide (Game.animatingMove s ≠ None)) eqn:Hguard.
  { exists s, None. repeat split; try done. }
  apply orb_false_iff in Hguard as [Hguard Hanim].
  apply orb_false_iff in Hguard as [Hwin Hturn].
  apply bool_decide_eq_false in Hwin, Hturn, Hanim.
  apply dec_stable in Hwin, Hturn, Hanim.
  rewrite (cell_in_range (Game.board s) r c) by (apply has_rows_range; [done | lia]).
  cbn [mbind result_bind].
  assert (∃ s' : Game.State,
            (if decide (type_of (piece_on (Game.board s) r c) = Some white) then
               allMoves ← getAllValidMoves (Game.board s) white;
               pieceMoves ← getValidMoves (Game.board s) (mkPosition r c);
               if existsb isCapture allMoves && negb (existsb isCapture pieceMoves)
               then Ok (s, None)
               else Ok (Game.mkState (Game.board s) (Game.currentPlayer s)
                          (Some (mkPosition r c)) pieceMoves (Game.winner s)
                          (Game.difficulty s) (Game.isThinking s) (Game.animatingMove s),
                        None)
             else Ok (Game.mkState (Game.board s) (Game.currentPlayer s) None []
                        (Game.winner s) (Game.difficulty s) (Game.isThinking s)
                        (Game.animatingMove s), None))
            = Ok (s', @None Move)
            ∧ Game.board s' = Game.board s
            ∧ Game.currentPlayer s' = Game.currentPlayer s
            ∧ Game.winner s' = Game.winner s
            ∧ (∀ m, m ∈ Game.validMoves s' → m ∈ all)
            ∧ Game.animatingMove s' = Game.animatingMove s) as Hselect.
  { destruct (decide (type_of (piece_on (Game.board s) r c) = Some white)) as [Hw|Hw].
    - destruct (side_moves_of_piece (Game.board s) white (mkPosition r c) Hwf Hw)
        as (all' & ms & Hall' & Hms & Hfilter).
      rewrite Hall in Hall'. injection Hall' as <-.
      rewrite Hall, Hms. cbn [mbind result_bind].
      destruct (existsb isCapture all && negb (existsb isCapture ms)).
      + exists s. repeat split; done.
      + eexists. split; [done|]. repeat split; try done. simpl.
        intros m Hm. rewrite <- Hfilter in Hm.
        by apply list_elem_of_filter in Hm as [_ ?].
    - eexists. split; [done|]. repeat split; try done. simpl.
      intros m Hm. by apply elem_of_nil in Hm. }
  destruct (Game.selectedPosition s) as [sel|] eqn:Hsel.
  - destruct (find (Game.targets r c) (Game.validMoves s)) as [move|] eqn:Hfind.
    + apply find_Some_elem in Hfind as [Hin Htarget]. apply targets_to in Htarget.
      eexists _, (Some move). split; [done|]. simpl.
      split; [done|]. split; [done|]. split; [done|]. split; [exact Hlegal|].
      split; [|done]. intros m [= <-]. auto 10.
    + destruct Hselect as (s' & -> & ? & ? & ? & ? & ?).
      exists s', None. repeat split; try done.
  - destruct Hselect as (s' & Hs' & ? & ? & ? & ? & ?).
    exists s', None.
    split; [by destruct (find (Game.targets r c) (Game.validMoves s))|].
    repeat split; try done.
Qed.

Lemma handleCellClick_legal_witness :
  wf_board capture_board ∧ 0 ≤ 2 < 8
  ∧ getAllValidMoves capture_board white = Ok [white_jump]
  ∧ ∃ s' started,
      Game.handleCellClick (white_selected capture_board) 2 1 = Ok (s', started)
      ∧ Game.board s' = Game.board (white_selected capture_board)
      ∧ Game.currentPlayer s' = Game.currentPlayer (white_selected capture_board)
      ∧ Game.winner s' = Game.winner (white_selected capture_board)
      ∧ (∀ m, m ∈ Game.validMoves s' → m ∈ [white_jump])
      ∧ (∀ m, started = Some m →
           m ∈ [white_jump] ∧ to m = mkPosition 2 1 ∧ Game.animatingMove s' = Some m
           ∧ Game.winner (white_selected capture_board) = null
           ∧ Game.currentPlayer (white_selected capture_board) = white
           ∧ Game.animatingMove (white_selected capture_board) = None)
      ∧ (started = None →
         Game.animatingMove s' = Game.animatingMove (white_selected capture_board)).
Proof.
  split; [exact wf_capture_board|]. split; [lia|]. split; [reflexivity|].
  apply (handleCellClick_legal (white_selected capture_board) 2 1 [white_jump]).
  - exact wf_capture_board.
  - lia.
  - reflexivity.
  - intros m Hm. exact Hm.
Defined.

(** ** A turn *)

(** A click that starts a move. *)
Lemma click_started (s s1 : Game.State) (r c : Z) (m : Move) :
  Game.handleCellClick s r c = Ok (s1, Some m) →
  Game.winner s = null ∧ Game.currentPlayer s = white ∧ Game.animatingMove s = None
  ∧ m ∈ Game.validMoves s ∧ to m = mkPosition r c
  ∧ s1 = Game.mkState (Game.board s) (Game.currentPlayer s) (Game.selectedPosition s)
           (Game.validMoves s) (Game.winner s) (Game.difficulty s) (Game.isThinking s)
           (Some m).
Proof.
  unfold Game.handleCellClick.
  destruct (bool_decide (Game.winner s ≠ null) || bool_decide (Game.currentPlayer s ≠ white)
            || bool_decide (Game.animatingMove s ≠ None)) eqn:Hguard; [done|].
  apply orb_false_iff in Hguard as [Hguard Hanim].
  apply orb_false_iff in Hguard as [Hwin Hturn].
  apply bool_decide_eq_false in Hwin, Hturn, Hanim.
  apply dec_stable in Hwin, Hturn, Hanim.
  intros (piece & _ & H)%bind_Ok.
  assert ((if decide (type_of piece = Some white) then
             allMoves ← getAllValidMoves (Game.board s) white;
             pieceMoves ← getValidMoves (Game.board s) (mkPosition r c);
             if existsb isCapture allMoves && negb (existsb isCapture pieceMoves)
             then Ok (s, None)
             else Ok (Game.mkState (Game.board s) (Game.currentPlayer s)
                        (Some (mkPosition r c)) pieceMoves (Game.winner s)
                        (Game.difficulty s) (Game.isThinking s) (Game.animatingMove s),
                      None)
           else Ok (Game.mkState (Game.board s) (Game.currentPlayer s) None []
                      (Game.winner s) (Game.difficulty s) (Game.isThinking s)
                      (Game.animatingMove s), None))
          ≠ Ok (s1, Some m)) as Hselect.
  { case_decide; [|done].
    intros (allMoves & _ & (pieceMoves & _ & H')%bind_Ok)%bind_Ok.
    by destruct (existsb isCapture allMoves && negb (existsb isCapture pieceMoves)). }
  destruct (Game.selectedPosition s) as [sel|]; [|done].
  destruct (find (Game.targets r c) (Game.validMoves s)) as [move|] eqn:Hfind; [|done].
  injection H as <- <-.
  apply find_Some_elem in Hfind as [Hin Htarget]. apply targets_to in Htarget.
  done.
Qed.

(** A move of [getAllValidMoves] can be made, and the board it gives can
    be judged. *)
Lemma legal_move_applies (b : Board) (side : PieceType) (ms : list Move) (m : Move) :
  wf_board b → getAllValidMoves b side = Ok ms → m ∈ ms →
  ∃ b' w, makeMove b m = Ok b' ∧ wf_board b' ∧ checkWinner b' = Ok w.
Proof.
  intros Hwf Hms Hm. pose proof (wf_board_has_rows _ Hwf) as Hb.
  destruct (getAllValidMoves_total b side Hb) as (ms' & Hms' & Hall).
  rewrite Hms in Hms'. injection Hms' as <-.
  rewrite Forall_forall in Hall. specialize (Hall m Hm).
  destruct (makeMove_has_rows b side m Hb Hall) as (b' & Hmk & Hb').
  destruct Hall as [_ Hshape].
  destruct (move_from_squares _ _ Hshape) as (Hto & Hcs & _).
  destruct (checkWinner_total b' Hb') as (wm & bm & _ & _ & Hw).
  exists b'. eexists. split; [done|]. split; [by eapply makeMove_wf | exact Hw].
Qed.

(** X19. On an 8x8 board, when the moves offered are moves of
    [getAllValidMoves] for white, a click that starts a move starts a move
    of [getAllValidMoves] for white; the callback it schedules, run in the
    state the click leaves, does not throw; it installs the 8x8 board
    [makeMove] gives for that move, clears the selection, the offered
    moves and the animated move, records the winner [checkWinner] finds
    on the new board, and gives the turn to black exactly when there is
    no winner. *)
Theorem player_turn (s s1 : Game.State) (r c : Z) (m : Move) (all : list Move) :
  wf_board (Game.board s) →
  getAllValidMoves (Game.board s) white = Ok all →
  (∀ m', m' ∈ Game.validMoves s → m' ∈ all) →
  Game.handleCellClick s r c = Ok (s1, Some m) →
  ∃ b' w,
    m ∈ all ∧ makeMove (Game.board s) m = Ok b' ∧ wf_board b' ∧ checkWinner b' = Ok w
    ∧ Game.playerMoveDone (Game.board s) m s1
      = (Game.mkState b' (if decide (w = null) then black else white) None [] w
           (Game.difficulty s) (Game.isThinking s) None,
         Ok ()).
Proof.
  intros Hwf Hall Hlegal Hclick.
  apply click_started in Hclick as (Hwin & Hturn & Hanim & Hin & Hto & ->).
  destruct (legal_move_applies _ _ _ m Hwf Hall (Hlegal m Hin)) as (b' & w & Hmk & Hwf' & Hw).
  exists b', w. split; [auto|]. split; [done|]. split; [done|]. split; [done|].
  unfold Game.playerMoveDone. rewrite Hmk, Hw. simpl. rewrite Hwin, Hturn.
  destruct (decide (w = null)) as [->|Hne].
  - by rewrite decide_False by (intros ?; done).
  - by rewrite decide_True.
Qed.

Lemma player_turn_witness :
  wf_board capture_board
  ∧ getAllValidMoves capture_board white = Ok [white_jump]
  ∧ Game.handleCellClick (white_selected capture_board) 2 1
    = Ok (Game.mkState capture_board white (Some (mkPosition 4 3)) [white_jump] null
            1000 false (Some white_jump), Some white_jump)
  ∧ ∃ b' w,
      white_jump ∈ [white_jump] ∧ makeMove capture_board white_jump = Ok b'
      ∧ wf_board b' ∧ checkWinner b' = Ok w
      ∧ Game.playerMoveDone capture_board white_jump
          (Game.mkState capture_board white (Some (mkPosition 4 3)) [white_jump] null
             1000 false (Some white_jump))
        = (Game.mkState b' (if decide (w = null) then black else white) None [] w
             1000 false None,
           Ok ()).
Proof.
  split; [exact wf_capture_board|]. split; [reflexivity|]. split; [reflexivity|].
  apply (player_turn (white_selected capture_board) _ 2 1 white_jump [white_jump]).
  - exact wf_capture_board.
  - reflexivity.
  - intros m' Hm'. exact Hm'.
  - reflexivity.
Defined.

Section BotTurn.
Variable random : double.
Hypothesis random_range : unit_double random.

(** X20. For a double of [0, 1) as the value of [Math.random()], on an
    8x8 board, when
    the effect lets the bot play (black's turn, no winner, no move being
    animated): if [getAllValidMoves] has no move for black, the callback
    of the first timer declares white the winner and ends the thinking,
    without touching the board; otherwise it makes a move of
    [getAllValidMoves] for black the animated move, and the callback of
    the second timer, run in that state, does not throw, installs the 8x8
    board [makeMove] gives for that move, ends the animation and the
    thinking, records the winner [checkWinner] finds on the new board,
    and gives the turn to white exactly when there is no winner. *)
Theorem bot_turn (s : Game.State) :
  wf_board (Game.board s) → Game.botToPlay s = true →
  ∃ moves, getAllValidMoves (Game.board s) black = Ok moves
    ∧ ((moves = []
        ∧ Game.botTimer random s
          = Ok (Game.mkState (Game.board s) black (Game.selectedPosition s)
                  (Game.validMoves s) white (Game.difficulty s) false None,
                None))
       ∨ ∃ m b' w,
           m ∈ moves
           ∧ Game.botTimer random s
             = Ok (Game.mkState (Game.board s) black (Game.selectedPosition s)
                     (Game.validMoves s) null (Game.difficulty s) (Game.isThinking s)
                     (Some m),
                   Some m)
           ∧ makeMove (Game.board s) m = Ok b' ∧ wf_board b' ∧ checkWinner b' = Ok w
           ∧ Game.botMoveDone (Game.board s) m
               (Game.mkState (Game.board s) black (Game.selectedPosition s)
                  (Game.validMoves s) null (Game.difficulty s) (Game.isThinking s)
                  (Some m))
             = (Game.mkState b' (if decide (w = null) then white else black)
                  (Game.selectedPosition s) (Game.validMoves s) w
                  (Game.difficulty s) false None,
                Ok ())).
Proof.
  intros Hwf Hplay. unfold Game.botToPlay in Hplay.
  apply andb_true_iff in Hplay as [Hplay Hanim].
  apply andb_true_iff in Hplay as [Hturn Hwin].
  apply bool_decide_eq_true in Hturn, Hwin, Hanim.
  destruct (getBotMove_total random random_range (Game.board s) (Game.difficulty s)
              (wf_board_has_rows _ Hwf)) as (moves & Hmoves & Hbot).
  exists moves. split; [done|]. unfold Game.botTimer.
  destruct Hbot as [[-> Hbot]|(m & Hm & Hbot)]; rewrite Hbot; cbn [mbind result_bind].
  - left. split; [done|]. by rewrite Hturn, Hanim.
  - right.
    destruct (legal_move_applies _ _ _ m Hwf Hmoves Hm) as (b' & w & Hmk & Hwf' & Hw).
    exists m, b', w. split; [done|]. split; [by rewrite Hturn, Hwin|].
    split; [done|]. split; [done|]. split; [done|].
    unfold Game.botMoveDone. rewrite Hmk, Hw. simpl.
    destruct (decide (w = null)) as [->|Hne].
    + by rewrite decide_False by (intros ?; done).
    + by rewrite decide_True.
Qed.

End BotTurn.

Lemma bot_turn_witness :
  unit_double random_1_3
  ∧ wf_board initial_board ∧ Game.botToPlay (black_to_play initial_board) = true
  ∧ ∃ moves, getAllValidMoves initial_board black = Ok moves
    ∧ ((moves = []
        ∧ Game.botTimer random_1_3 (black_to_play initial_board)
          = Ok (Game.mkState initial_board black None [] white 1000 false None, None))
       ∨ ∃ m b' w,
           m ∈ moves
           ∧ Game.botTimer random_1_3 (black_to_play initial_board)
             = Ok (Game.mkState initial_board black None [] null 1000 true (Some m),
                   Some m)
           ∧ makeMove initial_board m = Ok b' ∧ wf_board b' ∧ checkWinner b' = Ok w
           ∧ Game.botMoveDone initial_board m
               (Game.mkState initial_board black None [] null 1000 true (Some m))
             = (Game.mkState b' (if decide (w = null) then white else black)
                  None [] w 1000 false None,
                Ok ())).
Proof.
  assert (unit_double random_1_3) as Hrange by (by apply (bool_decide_unpack _)).
  split; [exact Hrange|].
  split; [exact wf_initial_board|]. split; [reflexivity|].
  exact (bot_turn random_1_3 Hrange (black_to_play initial_board)
           wf_initial_board eq_refl).
Defined.

(** The first timer on the initial board, at the rating 1000 and with
    the double just below 1/3: the bot plays the piece on (2,5) to
    (3,4). *)
Example botTimer_opening :
  Game.botTimer random_1_3 (black_to_play initial_board)
  = Ok (Game.mkState initial_board black None [] null 1000 true
          (Some (mkMove (mkPosition 2 5) (mkPosition 3 4) None)),
        Some (mkMove (mkPosition 2 5) (mkPosition 3 4) None)).
Proof. vm_compute. reflexivity. Qed.


(** * Boards with rows missing *)

Lemma has_rows_length (b : Board) : has_rows b ↔ ¬ (length b < 8)%nat.
Proof. unfold has_rows, BOARD_SIZE. lia. Qed.

Lemma getAllValidMoves_throws (b : Board) (side : PieceType) :
  ¬ has_rows b → getAllValidMoves b side = TypeError.
Proof.
  intros Hb. unfold getAllValidMoves.
  rewrite (for_each_squares (λ r acc c, collect_square b side r acc c)).
  rewrite (for_each_throws squares _ _ (mkPosition (Z.of_nat (length b)) 0)); [done| |].
  - apply elem_of_squares, on_board_range. simpl.
    unfold has_rows, BOARD_SIZE in Hb. lia.
  - intros [moves captures]. simpl. unfold collect_square.
    rewrite cell_out_of_range by lia. done.
Qed.

Lemma evaluateBoard_throws (b : Board) : ¬ has_rows b → evaluateBoard b = TypeError.
Proof.
  intros Hb. unfold evaluateBoard.
  rewrite (for_each_squares (λ r score c,
      piece ← cell b r c;
      match piece with
      | Some piece =>
          let pieceValue := if isKing piece then 15 else 10 in
          let positionBonus :=
            if isKing piece then 0
            else if decide (type piece = black) then r
            else BOARD_SIZE - 1 - r in
          if decide (type piece = black) then Ok (score + (pieceValue + positionBonus))
          else Ok (score - (pieceValue + positionBonus))
      | None => Ok score
      end)).
  rewrite (for_each_throws squares _ _ (mkPosition (Z.of_nat (length b)) 0)); [done| |].
  - apply elem_of_squares, on_board_range. simpl.
    unfold has_rows, BOARD_SIZE in Hb. lia.
  - intros s. simpl. rewrite cell_out_of_range by lia. done.
Qed.

(** X21. The functions that scan the board read its rows 0 to 7 whatever
    its length: [getAllValidMoves], [checkWinner], [evaluateBoard],
    [minimax] with a window alpha < beta and, for a double of [0, 1) as
    the value of [Math.random()], [getBotMove] throw a TypeError exactly
    when the board has fewer than 8 rows; the lengths of the rows play no
    part. *)
Theorem short_board_throws (b : Board) :
  (∀ side, getAllValidMoves b side = TypeError ↔ (length b < 8)%nat)
  ∧ (checkWinner b = TypeError ↔ (length b < 8)%nat)
  ∧ (evaluateBoard b = TypeError ↔ (length b < 8)%nat)
  ∧ (∀ depth alpha beta isMaximizing, num_lt alpha beta = true →
       minimax b depth alpha beta isMaximizing = TypeError ↔ (length b < 8)%nat)
  ∧ (∀ random difficulty, unit_double random →
       getBotMove random b difficulty = TypeError ↔ (length b < 8)%nat).
Proof.
  destruct (decide (has_rows b)) as [Hb|Hb].
  - pose proof (proj1 (has_rows_length b) Hb) as Hlen.
    split; [|split; [|split; [|split]]].
    + intros side. destruct (getAllValidMoves_total b side Hb) as (ms & -> & _).
      split; [done | by intros ?].
    + destruct (checkWinner_total b Hb) as (wm & bm & _ & _ & ->).
      split; [done | by intros ?].
    + destruct (evaluateBoard_total b Hb) as (score & ->).
      split; [done | by intros ?].
    + intros depth alpha beta isMaximizing Hlt.
      destruct (minimax_bounded depth b alpha beta isMaximizing Hb Hlt)
        as (r & _ & -> & _). split; [done | by intros ?].
    + intros random difficulty Hrange.
      destruct (getBotMove_total random Hrange b difficulty Hb)
        as (moves & _ & [[_ ->]|(m & _ & ->)]); (split; [done | by intros ?]).
  - assert (length b < 8)%nat as Hlen.
    { destruct (decide (length b < 8)%nat); [done|].
      destruct Hb. by apply has_rows_length. }
    split; [|split; [|split; [|split]]].
    + intros side. by rewrite getAllValidMoves_throws.
    + by rewrite checkWinner_throws.
    + by rewrite evaluateBoard_throws.
    + intros depth alpha beta isMaximizing _.
      rewrite minimax_unfold, checkWinner_throws by done. done.
    + intros random difficulty _. unfold getBotMove.
      by rewrite getAllValidMoves_throws.
Qed.


(** * A new game while a move is animated *)

Lemma resetGame_value (s : Game.State) :
  Game.resetGame s
  = Ok (Game.mkState initial_board white None [] null (Game.difficulty s)
          (Game.isThinking s) None).
Proof. unfold Game.resetGame. by rewrite createInitialBoard_value. Qed.

(** X22. [resetGame] does not cancel the callback of a move that a click
    has started.  On an 8x8 board, when the moves offered are moves of
    [getAllValidMoves] for white: called between the click that starts a
    move and the callback of the move, [resetGame] installs the starting
    position with white to play, and the callback then leaves the state
    it would have left without the reset, whose board is the one
    [makeMove] gives for the board and the move of the click. *)
Theorem resetGame_undone (s s1 s2 : Game.State) (r c : Z) (m : Move) (all : list Move) :
  wf_board (Game.board s) →
  getAllValidMoves (Game.board s) white = Ok all →
  (∀ m', m' ∈ Game.validMoves s → m' ∈ all) →
  Game.handleCellClick s r c = Ok (s1, Some m) → Game.resetGame s1 = Ok s2 →
  Game.board s2 = initial_board ∧ Game.currentPlayer s2 = white
  ∧ Game.winner s2 = null ∧ Game.animatingMove s2 = None
  ∧ ∃ b', makeMove (Game.board s) m = Ok b'
      ∧ Game.playerMoveDone (Game.board s) m s2
        = Game.playerMoveDone (Game.board s) m s1
      ∧ Game.board (Game.playerMoveDone (Game.board s) m s2).1 = b'.
Proof.
  intros Hwf Hall Hlegal Hclick Hreset.
  apply click_started in Hclick as (Hwin & Hturn & Hanim & Hin & _ & ->).
  rewrite resetGame_value in Hreset. injection Hreset as <-. simpl.
  repeat (split; [done|]).
  destruct (legal_move_applies _ _ _ m Hwf Hall (Hlegal m Hin)) as (b' & w & Hmk & _ & Hw).
  exists b'. split; [done|].
  unfold Game.playerMoveDone. rewrite Hmk, Hw. simpl. rewrite Hwin, Hturn.
  split; [done|]. by case_decide.
Qed.

Lemma resetGame_undone_witness :
  wf_board capture_board
  ∧ getAllValidMoves capture_board white = Ok [white_jump]
  ∧ Game.handleCellClick (white_selected capture_board) 2 1
    = Ok (Game.mkState capture_board white (Some (mkPosition 4 3)) [white_jump] null
            1000 false (Some white_jump), Some white_jump)
  ∧ Game.resetGame
      (Game.mkState capture_board white (Some (mkPosition 4 3)) [white_jump] null
         1000 false (Some white_jump))
    = Ok (white_to_play initial_board)
  ∧ Game.board (white_to_play initial_board) = initial_board
  ∧ Game.currentPlayer (white_to_play initial_board) = white
  ∧ Game.winner (white_to_play initial_board) = null
  ∧ Game.animatingMove (white_to_play initial_board) = None
  ∧ ∃ b', makeMove (Game.board (white_selected capture_board)) white_jump = Ok b'
      ∧ Game.playerMoveDone (Game.board (white_selected capture_board)) white_jump
          (white_to_play initial_board)
        = Game.playerMoveDone (Game.board (white_selected capture_board)) white_jump
            (Game.mkState capture_board white (Some (mkPosition 4 3)) [white_jump] null
               1000 false (Some white_jump))
      ∧ Game.board (Game.playerMoveDone (Game.board (white_selected capture_board))
                      white_jump (white_to_play initial_board)).1 = b'.
Proof.
  split; [exact wf_capture_board|]. split; [reflexivity|].
  split; [reflexivity|]. split; [vm_compute; reflexivity|].
  exact (resetGame_undone (white_selected capture_board)
           (Game.mkState capture_board white (Some (mkPosition 4 3)) [white_jump] null
              1000 false (Some white_jump))
           (white_to_play initial_board) 2 1 white_jump [white_jump]
           wf_capture_board eq_refl (λ m' Hm', Hm') eq_refl eq_refl).
Defined.


(** * The difficulty selector *)

(** X23. For every rating the selector shows one of its five levels, one
    whose rating is nearest to the rating of the game, and the lower of
    the two when two levels are equally near; for the rating of a level
    it shows that level. *)
Theorem currentDifficulty_nearest (difficulty : Z) :
  (∃ level,
     Selector.currentDifficulty difficulty = Ok level
     ∧ level ∈ Selector.difficulties
     ∧ ∀ l, l ∈ Selector.difficulties →
         Z.abs (Selector.elo level - difficulty) ≤ Z.abs (Selector.elo l - difficulty)
         ∧ (Z.abs (Selector.elo l - difficulty)
            = Z.abs (Selector.elo level - difficulty) →
            Selector.elo level ≤ Selector.elo l))
  ∧ ∀ l, l ∈ Selector.difficulties → Selector.currentDifficulty (Selector.elo l) = Ok l.
Proof.
  split.
  - unfold Selector.currentDifficulty, Selector.reduce, Selector.difficulties.
    cbn [foldl Selector.elo].
    repeat case_decide;
      (eexists; split; [reflexivity|]; split;
       [rewrite !elem_of_cons; by auto 10|]);
      intros l Hl; unfold Selector.difficulties in Hl;
      repeat (apply elem_of_cons in Hl as [->|Hl]); try (by apply elem_of_nil in Hl);
      cbn [Selector.elo] in *; lia.
  - intros l Hl. unfold Selector.difficulties in Hl.
    repeat (apply elem_of_cons in Hl as [->|Hl]); try (by apply elem_of_nil in Hl);
      vm_compute; reflexivity.
Qed.
